(** * COSE474 homework kernels: sliding-window view, convolution, pooling,
      multi-head attention and the Transformer encoder stack.

    The development embeds [hw4.py] and [hw7.py] shallowly.

    - Python exceptions are a sum type [result]; code that can raise is
      written in the error monad with [x <- e ;; k].
    - A torch tensor of [hw4.py] is a strided view: a flat storage, a storage
      offset, a shape and one stride per dimension.  Elements are integers,
      so that sums are exact.
    - The methods of the convolution layer that read and replace its
      parameters are about sharing: there a tensor is an object that names
      a storage in a heap.
    - The values of [hw7.py] are real numbers extended with the IEEE special
      values (the code writes [float('-inf')] into the scores); a tensor is
      a shape with its elements by index, and every shape test of torch is
      made.  The random draws of dropout are an argument.

    - The classifier, the batch lengths and the binary metrics of [hw7.py]
      are embedded the same way; 32-bit and 64-bit sums wrap around.

    Part I is the embedding, Part II the vocabulary the properties are
    stated in, Part III the properties of the contract, Part IV further
    properties of the code. *)

From Stdlib Require Import String.
From Stdlib Require Import List ZArith Lia Bool Arith PeanoNat.
From Stdlib Require Import Reals Lra.
Import ListNotations.

Set Implicit Arguments.

(* ================================================================= *)
(** * Part I: the embedding *)
(* ================================================================= *)

(** ** Python exceptions and the error monad *)

Module Py.

Inductive exn : Type :=
| TypeError (msg : string)
| ValueError (msg : string)
| RuntimeError (msg : string)
| IndexError (msg : string)
| ZeroDivisionError
| UnboundLocalError (var : string).

Inductive result (A : Type) : Type :=
| Ok (a : A)
| Raise (e : exn).

Arguments Ok {A} a.
Arguments Raise {A} e.

Definition bind {A B : Type} (m : result A) (k : A -> result B) : result B :=
  match m with
  | Ok a => k a
  | Raise e => Raise e
  end.

(** The class of the exception a computation ends with. *)
Inductive kind : Type :=
| KType | KValue | KRuntime | KIndex | KZeroDivision | KUnbound.

Definition kind_of (e : exn) : kind :=
  match e with
  | TypeError _ => KType
  | ValueError _ => KValue
  | RuntimeError _ => KRuntime
  | IndexError _ => KIndex
  | ZeroDivisionError => KZeroDivision
  | UnboundLocalError _ => KUnbound
  end.

Definition raises {A : Type} (m : result A) (k : kind) : Prop :=
  exists e, m = Raise e /\ kind_of e = k.

Definition returns {A : Type} (m : result A) : Prop :=
  exists a, m = Ok a.

End Py.

Import Py.

Declare Scope py_scope.
Delimit Scope py_scope with py.
Notation "x <- m ;; k" := (bind m (fun x => k))
  (at level 61, m at next level, right associativity) : py_scope.
Notation "' pat <- m ;; k" := (bind m (fun x => match x with pat => k end))
  (at level 61, pat pattern, m at next level, right associativity) : py_scope.
Open Scope string_scope.
Open Scope list_scope.
Open Scope py_scope.
Open Scope nat_scope.

(** ** Strided tensors (the part of torch that [hw4.py] uses) *)

Module Torch.

Record tensor : Type := mkTensor {
  storage : list Z;      (* the backing store, shared by all views *)
  offset  : nat;         (* storage_offset() *)
  shape   : list nat;    (* size() *)
  stride  : list nat     (* stride(), in elements *)
}.

(** Linear offset of a multi-index: the dot product with the strides. *)
Fixpoint dot (idx strd : list nat) : nat :=
  match idx, strd with
  | i :: idx', s :: strd' => i * s + dot idx' strd'
  | _, _ => 0
  end.

(** Number of elements of a shape. *)
Definition numel (shp : list nat) : nat := fold_right Nat.mul 1 shp.

(** Row-major strides of a freshly allocated tensor.  (For a shape with a
    zero extent torch reports other numbers; such a tensor has no element
    to read.) *)
Fixpoint contiguous_strides (shp : list nat) : list nat :=
  match shp with
  | [] => []
  | _ :: shp' => numel shp' :: contiguous_strides shp'
  end.

(** Position of a multi-index in the row-major order of a shape, and back. *)
Definition ravel (idx shp : list nat) : nat := dot idx (contiguous_strides shp).

Fixpoint unravel (k : nat) (shp : list nat) : list nat :=
  match shp with
  | [] => []
  | _ :: shp' => k / numel shp' :: unravel (k mod numel shp') shp'
  end.

Fixpoint in_bounds (idx shp : list nat) : bool :=
  match idx, shp with
  | [], [] => true
  | i :: idx', n :: shp' => (i <? n) && in_bounds idx' shp'
  | _, _ => false
  end.

(** Unchecked read, as the kernels do it. *)
Definition rd (t : tensor) (idx : list nat) : Z :=
  nth (offset t + dot idx (stride t)) (storage t) 0%Z.

(** [t[i0, ..., ik]] for a full integer index; [None] stands for the
    IndexError of an index that is out of range. *)
Definition get (t : tensor) (idx : list nat) : option Z :=
  if in_bounds idx (shape t)
  then nth_error (storage t) (offset t + dot idx (stride t))
  else None.

(** All multi-indices of a shape, in row-major order. *)
Fixpoint indices (shp : list nat) : list (list nat) :=
  match shp with
  | [] => [[]]
  | n :: shp' => flat_map (fun i => map (cons i) (indices shp')) (seq 0 n)
  end.

(** The elements of a view in row-major (logical) order. *)
Definition to_list (t : tensor) : list Z :=
  map (rd t) (indices (shape t)).

(** A fresh contiguous tensor holding [l]. *)
Definition from_list (l : list Z) (shp : list nat) : tensor :=
  mkTensor l 0 shp (contiguous_strides shp).

(** The largest storage offset a view of this geometry reads. *)
Definition max_offset (shp strd : list nat) : nat :=
  dot (map Nat.pred shp) strd.

(** The storage bound torch checks when it builds a view: nothing is
    required of an empty view. *)
Definition fits (len off : nat) (shp strd : list nat) : bool :=
  existsb (Nat.eqb 0) shp || (off + max_offset shp strd <? len).

(** The invariant of every tensor torch hands out. *)
Definition tensor_ok (t : tensor) : Prop :=
  length (stride t) = length (shape t) /\
  fits (length (storage t)) (offset t) (shape t) (stride t) = true.

(** [torch.as_strided(t, size, stride)]: same storage and offset. *)
Definition as_strided (t : tensor) (size strd : list Z) : result tensor :=
  if negb (length size =? length strd) then
    Raise (RuntimeError "mismatch in length of strides and shape")
  else if existsb (fun n => n <? 0)%Z size then
    Raise (RuntimeError "Trying to create tensor with negative dimension")
  else if existsb (fun s => s <? 0)%Z strd then
    Raise (RuntimeError "as_strided: Negative strides are not supported")
  else
    let shp := map Z.to_nat size in
    let st := map Z.to_nat strd in
    if fits (length (storage t)) (offset t) shp st
    then Ok (mkTensor (storage t) (offset t) shp st)
    else Raise (RuntimeError "setStorage: out of bounds for storage").

(** [t[::s0, ::s1, ...]]: one [slice(None, None, s)] per leading dimension.
    Torch refuses a step that is not positive. *)
Fixpoint slice_steps (shp strd : list nat) (steps : list Z)
  : result (list nat * list nat) :=
  match steps with
  | [] => Ok (shp, strd)
  | st :: steps' =>
      match shp, strd with
      | n :: shp', s :: strd' =>
          if (st <? 1)%Z then
            Raise (ValueError "step must be greater than zero")
          else
            '(shp'', strd'') <- slice_steps shp' strd' steps' ;;
            Ok (Z.to_nat ((Z.of_nat n + st - 1) / st) :: shp'',
                s * Z.to_nat st :: strd'')
      | _, _ => Raise (IndexError "too many indices for tensor")
      end
  end.

(** [t[slices]] for a tuple of such slices: a view on the same storage. *)
Definition getitem_slices (t : tensor) (steps : list Z) : result tensor :=
  '(shp, strd) <- slice_steps (shape t) (stride t) steps ;;
  Ok (mkTensor (storage t) (offset t) shp strd).

(** A list without its [k]-th entry. *)
Fixpoint remove_at {A : Type} (k : nat) (l : list A) : list A :=
  match k, l with
  | _, [] => []
  | O, _ :: l' => l'
  | S k', a :: l' => a :: remove_at k' l'
  end.

(** [t.squeeze(dim)]: drops dimension [dim] when its extent is 1. *)
Definition squeeze (t : tensor) (dim : nat) : result tensor :=
  match nth_error (shape t) dim with
  | None => Raise (IndexError "Dimension out of range")
  | Some n =>
      if n =? 1
      then Ok (mkTensor (storage t) (offset t)
                 (remove_at dim (shape t)) (remove_at dim (stride t)))
      else Ok t
  end.

(** Shape inference of [reshape]/[view]: at most one [-1]. *)
Definition infer_size (shp : list Z) (n : nat) : result (list nat) :=
  if existsb (fun d => d <? -1)%Z shp then
    Raise (RuntimeError "invalid shape dimension")
  else
    match count_occ Z.eq_dec shp (-1)%Z with
    | 0 =>
        let shp' := map Z.to_nat shp in
        if numel shp' =? n then Ok shp'
        else Raise (RuntimeError "shape is invalid for input size")
    | 1 =>
        let known := numel (map Z.to_nat (remove Z.eq_dec (-1)%Z shp)) in
        if (known =? 0) || negb (n mod known =? 0) then
          Raise (RuntimeError "shape is invalid for input size")
        else
          Ok (map (fun d => if (d =? -1)%Z then n / known else Z.to_nat d) shp)
    | _ => Raise (RuntimeError "only one dimension can be inferred")
    end.

(** [t.reshape(shp)]: the elements in logical order, under a new shape.
    (Torch returns a view where it can and a copy otherwise; the kernels
    only read the result.) *)
Definition reshape (t : tensor) (shp : list Z) : result tensor :=
  shp' <- infer_size shp (numel (shape t)) ;;
  Ok (from_list (to_list t) shp').

(** [dims] names every dimension below [n] once. *)
Definition is_permutation (dims : list nat) (n : nat) : bool :=
  (length dims =? n) && forallb (fun k => existsb (Nat.eqb k) dims) (seq 0 n).

(** [t.permute(dims)]. *)
Definition permute (t : tensor) (dims : list nat) : result tensor :=
  if is_permutation dims (length (shape t)) then
    Ok (mkTensor (storage t) (offset t)
          (map (fun d => nth d (shape t) 0) dims)
          (map (fun d => nth d (stride t) 0) dims))
  else Raise (RuntimeError "permute: dims do not match the tensor").

(** [t.t()] on a matrix. *)
Definition t_ (t : tensor) : result tensor :=
  match shape t with
  | [_; _] => permute t [1; 0]
  | _ => Raise (RuntimeError "t() expects a 2D tensor")
  end.

(** Sum of a list. *)
Definition sumZ (l : list Z) : Z := fold_right Z.add 0%Z l.

(** [torch.mm(a, b)]. *)
Definition mm (a b : tensor) : result tensor :=
  match shape a, shape b with
  | [n; k], [k'; m] =>
      if k =? k' then
        Ok (from_list
              (map (fun ij =>
                      match ij with
                      | [i; j] =>
                          sumZ (map (fun l => Z.mul (rd a [i; l]) (rd b [l; j]))
                                    (seq 0 k))
                      | _ => 0%Z
                      end)
                   (indices [n; m]))
              [n; m])
      else Raise (RuntimeError "mat1 and mat2 shapes cannot be multiplied")
  | _, _ => Raise (RuntimeError "mm expects 2D tensors")
  end.

(** Broadcasting of two shapes, aligned at the last dimension. *)
Fixpoint broadcast_rev (s1 s2 : list nat) : result (list nat) :=
  match s1, s2 with
  | [], _ => Ok s2
  | _, [] => Ok s1
  | a :: s1', b :: s2' =>
      r <- broadcast_rev s1' s2' ;;
      if a =? b then Ok (a :: r)
      else if a =? 1 then Ok (b :: r)
      else if b =? 1 then Ok (a :: r)
      else Raise (RuntimeError "shapes cannot be broadcast")
  end.

Definition broadcast_shapes (s1 s2 : list nat) : result (list nat) :=
  r <- broadcast_rev (rev s1) (rev s2) ;; Ok (rev r).

(** The index an operand of shape [shp] is read at for the result index
    [idx]: leading result dimensions are dropped, extent-1 dimensions are
    read at 0. *)
Definition broadcast_index (shp idx : list nat) : list nat :=
  map (fun '(n, i) => if n =? 1 then 0 else i)
      (combine shp (skipn (length idx - length shp) idx)).

(** [a + b] with broadcasting; the result is a fresh tensor. *)
Definition add (a b : tensor) : result tensor :=
  shp <- broadcast_shapes (shape a) (shape b) ;;
  Ok (from_list
        (map (fun idx => Z.add (rd a (broadcast_index (shape a) idx))
                               (rd b (broadcast_index (shape b) idx)))
             (indices shp))
        shp).

(** Maximum of a non-empty list. *)
Definition maxZ (l : list Z) : Z :=
  match l with
  | [] => 0%Z
  | x :: l' => fold_left Z.max l' x
  end.

(** [torch.max(t, dim=-1)[0]]. *)
Definition max_last (t : tensor) : result tensor :=
  match rev (shape t) with
  | [] => Raise (IndexError "Dimension out of range")
  | n :: rshp =>
      if n =? 0 then
        Raise (IndexError "max(): Expected reduction dim to have non-zero size")
      else
        let shp := rev rshp in
        Ok (from_list
              (map (fun idx => maxZ (map (fun k => rd t (idx ++ [k])) (seq 0 n)))
                   (indices shp))
              shp)
  end.

End Torch.

Import Torch.

(** ** Tensor objects in the Python heap

    The methods that read and replace the parameters of the convolution
    layer are about sharing, so here tensors are objects: a reference
    names a storage in the heap and carries the view's geometry.  Two
    references alias when they name the same storage. *)

Module Heap.

(** The storages, by identifier. *)
Definition heap : Type := list (list Z).

Record tref : Type := mkRef {
  sid : nat;                 (* which storage *)
  ref_offset : nat;
  ref_shape : list nat;
  ref_stride : list nat;
  requires_grad : bool;
  is_leaf : bool             (* no grad_fn: not the result of a recorded operation *)
}.

(** The tensor a reference denotes in a heap. *)
Definition deref (h : heap) (r : tref) : tensor :=
  mkTensor (nth (sid r) h []) (ref_offset r) (ref_shape r) (ref_stride r).

(** A reference to a storage that exists. *)
Definition valid_ref (h : heap) (r : tref) : Prop := sid r < length h.

(** Any in-place write through a tensor replaces the contents of its storage. *)
Fixpoint poke (h : heap) (id : nat) (sto : list Z) : heap :=
  match h, id with
  | [], _ => []
  | _ :: h', O => sto :: h'
  | s :: h', S id' => s :: poke h' id' sto
  end.

(** [r.clone()]: a fresh storage holding the elements of [r].  The copy of
    a tensor that requires grad is the result of a recorded operation, so it
    is no leaf. *)
Definition clone (r : tref) (h : heap) : heap * tref :=
  (h ++ [to_list (deref h r)],
   mkRef (length h) 0 (ref_shape r) (contiguous_strides (ref_shape r))
         (requires_grad r) (negb (requires_grad r))).

(** [r.detach()]: the same storage, cut from the autograd graph: a leaf
    that does not require grad. *)
Definition detach (r : tref) : tref :=
  mkRef (sid r) (ref_offset r) (ref_shape r) (ref_stride r) false true.

(** [l[k] = v]. *)
Fixpoint list_set (l : list Z) (k : nat) (v : Z) : list Z :=
  match l, k with
  | [], _ => []
  | _ :: l', O => v :: l'
  | a :: l', S k' => a :: list_set l' k' v
  end.

(** Equality of shapes. *)
Definition shape_eqb (s1 s2 : list nat) : bool :=
  (length s1 =? length s2) && forallb (fun p => fst p =? snd p) (combine s1 s2).

(** [a += b]: writes the sums into the storage of [a].  Autograd refuses an
    in-place operation on a leaf that requires grad unless it runs under
    [torch.no_grad()].  (A reference keeps the flags its tensor had when it
    was made.  An addition that is let through can only turn a tensor into
    one that is no leaf, so it never makes this test fail later.) *)
Definition iadd (grad_enabled : bool) (a b : tref) (h : heap) : result heap :=
  if grad_enabled && requires_grad a && is_leaf a then
    Raise (RuntimeError
             "a leaf Variable that requires grad is being used in an in-place operation")
  else
    shp <- broadcast_shapes (ref_shape a) (ref_shape b) ;;
    if shape_eqb shp (ref_shape a) then
      let ta := deref h a in
      let tb := deref h b in
      Ok (poke h (sid a)
            (fold_left
               (fun sto idx =>
                  list_set sto (ref_offset a + dot idx (ref_stride a))
                           (Z.add (rd ta idx)
                                  (rd tb (broadcast_index (ref_shape b) idx))))
               (indices (ref_shape a)) (storage ta)))
    else Raise (RuntimeError "output shape doesn't match the broadcast shape").

End Heap.

Import Heap.

(** ** hw4.py *)

(** What a caller may pass where a tensor is expected. *)
Inductive pyobj : Type :=
| Tensor (t : tensor)
| NotTensor.

(** An argument that is either a number or a tuple of numbers. *)
Inductive pyarg : Type :=
| Number (z : Z)
| Tuple (l : list Z).

Definition zip_with {A B C : Type} (f : A -> B -> C) (l1 : list A) (l2 : list B) : list C :=
  map (fun p => f (fst p) (snd p)) (combine l1 l2).

Definition view_as_windows (arr_in : pyobj) (window_shape step : pyarg)
  : result tensor :=
  match arr_in with
  | NotTensor => Raise (TypeError "`arr_in` must be a pytorch tensor")
  | Tensor arr =>
      let ndim := length (shape arr) in
      let window_shape :=
        match window_shape with
        | Number w => repeat w ndim
        | Tuple l => l
        end in
      if negb (length window_shape =? ndim) then
        Raise (ValueError "`window_shape` is incompatible with `arr_in.shape`")
      else
        step <- match step with
                | Number s =>
                    if (s <? 1)%Z then Raise (ValueError "`step` must be >= 1")
                    else Ok (repeat s ndim)
                | Tuple l => Ok l
                end ;;
        if negb (length step =? ndim) then
          Raise (ValueError "`step` is incompatible with `arr_in.shape`")
        else
          let arr_shape := map Z.of_nat (shape arr) in
          if existsb (fun d => d <? 0)%Z (zip_with Z.sub arr_shape window_shape) then
            Raise (ValueError "`window_shape` is too large")
          else if existsb (fun w => w - 1 <? 0)%Z window_shape then
            Raise (ValueError "`window_shape` is too small")
          else
            (* -- build rolling window view *)
            let window_strides := map Z.of_nat (stride arr) in
            sliced <- getitem_slices arr step ;;
            let indexing_strides := map Z.of_nat (stride sliced) in
            let win_indices_shape :=
              zip_with (fun d st => d / st + 1)%Z
                       (zip_with Z.sub arr_shape window_shape) step in
            let new_shape := win_indices_shape ++ window_shape in
            let strides := indexing_strides ++ window_strides in
            as_strided arr new_shape strides
  end.

Module nn_convolutional_layer.

(** The attributes [W] and [b] of an instance.  [layer tref] is the Python
    object, whose attributes name tensor objects in the heap; [layer tensor]
    is its state, the two parameter tensors as [forward] reads them. *)
Record layer (T : Type) : Type := mkLayer { W : T; b : T }.

Definition state (h : heap) (self : layer tref) : layer tensor :=
  mkLayer (deref h (W self)) (deref h (b self)).

Definition update_weights (grad_enabled : bool) (self : layer tref) (dW db : tref)
           (h : heap) : result heap :=
  h <- iadd grad_enabled (W self) dW h ;;
  iadd grad_enabled (b self) db h.

Definition get_weights (self : layer tref) (h : heap) : heap * (tref * tref) :=
  let '(h, w) := clone (W self) h in
  let w := detach w in
  let '(h, c) := clone (b self) h in
  let c := detach c in
  (h, (w, c)).

Definition set_weights (self : layer tref) (W b : tref) (h : heap)
  : heap * layer tref :=
  let '(h, w) := clone W h in
  let w := detach w in
  let '(h, c) := clone b h in
  let c := detach c in
  (h, mkLayer w c).

Definition forward (self : layer tensor) (x : tensor) : result tensor :=
  match shape x, shape (W self) with
  | [batch_size; in_ch_size; height; width], [out_ch_size; _; f_height; f_width] =>
      let batch_size := Z.of_nat batch_size in
      let in_ch_size := Z.of_nat in_ch_size in
      let height := Z.of_nat height in
      let width := Z.of_nat width in
      let out_ch_size := Z.of_nat out_ch_size in
      let f_height := Z.of_nat f_height in
      let f_width := Z.of_nat f_width in
      let out_height := (height - f_height + 1)%Z in
      let out_width := (width - f_width + 1)%Z in
      x_windows <- view_as_windows (Tensor x) (Tuple [1; 1; f_height; f_width]%Z) (Number 1) ;;
      x_windows <- squeeze x_windows 2 ;;
      x_windows <- squeeze x_windows 2 ;;
      x_col <- reshape x_windows
                 [batch_size; in_ch_size; out_height * out_width; f_height * f_width]%Z ;;
      x_col <- permute x_col [0; 2; 1; 3] ;;
      x_col <- reshape x_col
                 [batch_size * out_height * out_width; in_ch_size * f_height * f_width]%Z ;;
      W_col <- reshape (W self) [out_ch_size; -1]%Z ;;
      W_col_t <- t_ W_col ;;
      out <- mm x_col W_col_t ;;
      out <- reshape out [batch_size; out_height; out_width; out_ch_size] ;;
      out <- permute out [0; 3; 1; 2] ;;
      add out (b self)
  | _, _ => Raise (ValueError "not enough values to unpack")
  end.

End nn_convolutional_layer.

Module nn_max_pooling_layer.

Record layer : Type := mkLayer { pool_size : Z; stride : Z }.

(** Python's [//] on integers. *)
Definition floordiv (a b : Z) : result Z :=
  if (b =? 0)%Z then Raise ZeroDivisionError else Ok (a / b)%Z.

Definition forward (self : layer) (x : tensor) : result tensor :=
  match shape x with
  | [batch_size; channels; height; width] =>
      let batch_size := Z.of_nat batch_size in
      let channels := Z.of_nat channels in
      let height := Z.of_nat height in
      let width := Z.of_nat width in
      qh <- floordiv (height - pool_size self) (stride self) ;;
      let out_height := (qh + 1)%Z in
      qw <- floordiv (width - pool_size self) (stride self) ;;
      let out_width := (qw + 1)%Z in
      windows <- view_as_windows (Tensor x)
                   (Tuple [1; 1; pool_size self; pool_size self]%Z)
                   (Tuple [1; 1; stride self; stride self]%Z) ;;
      windows <- squeeze windows 2 ;;
      windows <- squeeze windows 2 ;;
      windows <- reshape windows
                   [batch_size; channels; out_height; out_width;
                    pool_size self * pool_size self]%Z ;;
      max_last windows
  | _ => Raise (ValueError "not enough values to unpack")
  end.

End nn_max_pooling_layer.




(** ** Extended reals: the values of [hw7.py]

    The encoder computes on floating-point numbers.  Rounding is left out:
    a finite value is a real number.  The special values are kept, because
    the code writes [float('-inf')] into the scores itself and IEEE
    arithmetic decides what the softmax makes of it. *)

Module XFloat.

Inductive xfloat : Type :=
| NaN
| NegInf
| PosInf
| Fin (r : R).

Definition sign (r : R) : comparison :=
  match total_order_T r 0 with
  | inleft (left _) => Lt
  | inleft (right _) => Eq
  | inright _ => Gt
  end.

Definition xopp (a : xfloat) : xfloat :=
  match a with
  | NaN => NaN
  | NegInf => PosInf
  | PosInf => NegInf
  | Fin r => Fin (- r)
  end.

Definition xadd (a b : xfloat) : xfloat :=
  match a, b with
  | NaN, _ | _, NaN => NaN
  | PosInf, NegInf | NegInf, PosInf => NaN
  | PosInf, _ | _, PosInf => PosInf
  | NegInf, _ | _, NegInf => NegInf
  | Fin x, Fin y => Fin (x + y)
  end.

Definition xsub (a b : xfloat) : xfloat := xadd a (xopp b).

(** An infinity times a finite factor. *)
Definition scale_inf (positive : bool) (r : R) : xfloat :=
  match sign r with
  | Eq => NaN
  | Gt => if positive then PosInf else NegInf
  | Lt => if positive then NegInf else PosInf
  end.

Definition xmul (a b : xfloat) : xfloat :=
  match a, b with
  | NaN, _ | _, NaN => NaN
  | PosInf, PosInf | NegInf, NegInf => PosInf
  | PosInf, NegInf | NegInf, PosInf => NegInf
  | PosInf, Fin r | Fin r, PosInf => scale_inf true r
  | NegInf, Fin r | Fin r, NegInf => scale_inf false r
  | Fin x, Fin y => Fin (x * y)
  end.

(** Division; a zero divisor is taken to be [+0.0]. *)
Definition xdiv (a b : xfloat) : xfloat :=
  match a, b with
  | NaN, _ | _, NaN => NaN
  | Fin x, Fin y =>
      match sign y with
      | Eq => match sign x with Eq => NaN | Gt => PosInf | Lt => NegInf end
      | _ => Fin (x / y)
      end
  | Fin _, _ => Fin 0
  | PosInf, Fin y => match sign y with Lt => NegInf | _ => PosInf end
  | NegInf, Fin y => match sign y with Lt => PosInf | _ => NegInf end
  | _, _ => NaN
  end.

Definition xexp (a : xfloat) : xfloat :=
  match a with
  | NaN => NaN
  | NegInf => Fin 0
  | PosInf => PosInf
  | Fin r => Fin (exp r)
  end.

Definition xsqrt (a : xfloat) : xfloat :=
  match a with
  | NaN | NegInf => NaN
  | PosInf => PosInf
  | Fin r => match sign r with Lt => NaN | _ => Fin (sqrt r) end
  end.

(** Maximum, with NaN winning. *)
Definition xmax (a b : xfloat) : xfloat :=
  match a, b with
  | NaN, _ | _, NaN => NaN
  | PosInf, _ | _, PosInf => PosInf
  | NegInf, c | c, NegInf => c
  | Fin x, Fin y => Fin (Rmax x y)
  end.

Definition xsum (l : list xfloat) : xfloat := fold_left xadd l (Fin 0).

(** Softmax of one row, as the kernels compute it: shifted by the maximum
    of the row. *)
Definition softmax_row (row : list xfloat) : list xfloat :=
  match row with
  | [] => []
  | x :: row' =>
      let m := fold_left xmax row' x in
      let e := map (fun v => xexp (xsub v m)) row in
      let s := xsum e in
      map (fun v => xdiv v s) e
  end.

End XFloat.

Import XFloat.


(** ** Tensors of [hw7.py]

    A tensor is a shape and its elements by index.  Views, transposes and
    [contiguous] only rename indices, so no storage is kept here; every
    shape test torch makes is made, and raises what torch raises. *)

Module RTorch.

Record rtensor : Type := mkR { rshape : list nat; elem : list nat -> xfloat }.

(** Integer tensors: token ids. *)
Record itensor : Type := mkI { ishape : list nat; ielem : list nat -> Z }.

Definition map_elems (f : xfloat -> xfloat) (x : rtensor) : rtensor :=
  mkR (rshape x) (fun idx => f (elem x idx)).

(** The row along the last dimension that passes through [idx]. *)
Definition row_of (x : rtensor) (idx : list nat) : list xfloat :=
  map (fun j => elem x (removelast idx ++ [j])) (seq 0 (last (rshape x) 0)).

(** [F.softmax(x, dim=-1)]. *)
Definition softmax (x : rtensor) : rtensor :=
  match rshape x with
  | [] => mkR [] (fun _ => nth 0 (softmax_row [elem x []]) NaN)
  | _ => mkR (rshape x)
             (fun idx => nth (last idx 0) (softmax_row (row_of x idx)) NaN)
  end.

(** [x.view(shp)] and [x.reshape(shp)]: the same elements in row-major
    order.  (The code calls [view] on contiguous tensors only.) *)
Definition view (x : rtensor) (shp : list Z) : result rtensor :=
  shp' <- infer_size shp (numel (rshape x)) ;;
  Ok (mkR shp' (fun idx => elem x (unravel (ravel idx shp') (rshape x)))).

Definition contiguous (x : rtensor) : rtensor := x.

(** A dimension argument, possibly counted from the end. *)
Definition norm_dim (d : Z) (rank : nat) : result nat :=
  let d' := if (d <? 0)%Z then (d + Z.of_nat rank)%Z else d in
  if (0 <=? d')%Z && (d' <? Z.of_nat rank)%Z then Ok (Z.to_nat d')
  else Raise (IndexError "Dimension out of range").

Definition swap {A : Type} (i j : nat) (l : list A) (d : A) : list A :=
  map (fun k => if k =? i then nth j l d
                else if k =? j then nth i l d
                else nth k l d)
      (seq 0 (length l)).

(** [x.transpose(d0, d1)]. *)
Definition transpose (x : rtensor) (d0 d1 : Z) : result rtensor :=
  i <- norm_dim d0 (length (rshape x)) ;;
  j <- norm_dim d1 (length (rshape x)) ;;
  Ok (mkR (swap i j (rshape x) 0) (fun idx => elem x (swap i j idx 0))).

(** [torch.matmul] on operands of rank at least 2: a batch of matrix
    products, the batch dimensions broadcast. *)
Definition matmul2 (a c : rtensor) : result rtensor :=
  match rev (rshape a), rev (rshape c) with
  | k :: n :: ba, m :: k' :: bc =>
      if k =? k' then
        batch <- broadcast_shapes (rev ba) (rev bc) ;;
        Ok (mkR (batch ++ [n; m])
              (fun idx =>
                 let bidx := firstn (length idx - 2) idx in
                 let i := nth (length idx - 2) idx 0 in
                 let j := nth (length idx - 1) idx 0 in
                 xsum (map (fun l =>
                              xmul (elem a (broadcast_index (rev ba) bidx ++ [i; l]))
                                   (elem c (broadcast_index (rev bc) bidx ++ [l; j])))
                           (seq 0 k))))
      else Raise (RuntimeError "mat1 and mat2 shapes cannot be multiplied")
  | _, _ => Raise (RuntimeError "both arguments to matmul need to be at least 1D")
  end.

(** [torch.matmul]: a vector operand is a one-row or one-column matrix whose
    added dimension is dropped from the result. *)
Definition matmul (a c : rtensor) : result rtensor :=
  match rshape a, rshape c with
  | [], _ | _, [] =>
      Raise (RuntimeError "both arguments to matmul need to be at least 1D")
  | [k], [k'] =>
      r <- matmul2 (mkR [1; k] (fun idx => elem a (tl idx)))
                   (mkR [k'; 1] (fun idx => elem c (removelast idx))) ;;
      Ok (mkR [] (fun _ => elem r [0; 0]))
  | [k], _ =>
      r <- matmul2 (mkR [1; k] (fun idx => elem a (tl idx))) c ;;
      Ok (mkR (removelast (removelast (rshape r)) ++ [last (rshape r) 0])
              (fun idx => elem r (removelast idx ++ [0; last idx 0])))
  | _, [k'] =>
      r <- matmul2 a (mkR [k'; 1] (fun idx => elem c (removelast idx))) ;;
      Ok (mkR (removelast (rshape r)) (fun idx => elem r (idx ++ [0])))
  | _, _ => matmul2 a c
  end.

(** [a + b], broadcast. *)
Definition add (a c : rtensor) : result rtensor :=
  shp <- broadcast_shapes (rshape a) (rshape c) ;;
  Ok (mkR shp (fun idx => xadd (elem a (broadcast_index (rshape a) idx))
                               (elem c (broadcast_index (rshape c) idx)))).

(** [x / s] for a Python float [s]. *)
Definition div_scalar (x : rtensor) (s : xfloat) : rtensor :=
  map_elems (fun v => xdiv v s) x.

(** Boolean masks. *)
Record bmask : Type := mkM { mshape : list nat; mval : list nat -> bool }.

Definition zeros_like_bool (x : rtensor) : bmask :=
  mkM (rshape x) (fun _ => false).

(** Where the slice [start:] of a dimension of extent [n] begins. *)
Definition slice_start (start : Z) (n : nat) : nat :=
  if (start <? 0)%Z then Z.to_nat (Z.max 0 (Z.of_nat n + start))
  else Z.to_nat (Z.min start (Z.of_nat n)).

(** [mask[i, :, :, start:] = True]. *)
Definition mask_setitem (mask : bmask) (i : nat) (start : Z) : result bmask :=
  match mshape mask with
  | B :: _ :: _ :: K :: _ =>
      if i <? B then
        Ok (mkM (mshape mask)
              (fun idx =>
                 match idx with
                 | b0 :: _ :: _ :: k :: _ =>
                     ((b0 =? i) && (slice_start start K <=? k)) || mval mask idx
                 | _ => mval mask idx
                 end))
      else Raise (IndexError "index is out of bounds for dimension 0")
  | _ => Raise (IndexError "too many indices for tensor")
  end.

(** [x.masked_fill(mask, v)]. *)
Definition masked_fill (x : rtensor) (mask : bmask) (v : xfloat) : rtensor :=
  mkR (rshape x) (fun idx => if mval mask idx then v else elem x idx).

Definition xrelu (v : xfloat) : xfloat :=
  match v with
  | NaN => NaN
  | NegInf => Fin 0
  | PosInf => PosInf
  | Fin r => Fin (Rmax r 0)
  end.

Definition relu (x : rtensor) : rtensor := map_elems xrelu x.

(** [nn.Linear]. *)
Record Linear : Type := mkLinear {
  in_features : nat;
  out_features : nat;
  weight : nat -> nat -> xfloat;     (* weight[out][in] *)
  bias : nat -> xfloat
}.

Definition Linear_forward (self : Linear) (x : rtensor) : result rtensor :=
  match rev (rshape x) with
  | [] => Raise (RuntimeError "linear: input must have at least one dimension")
  | n :: pre =>
      if n =? in_features self then
        Ok (mkR (rev pre ++ [out_features self])
              (fun idx =>
                 xadd (xsum (map (fun j =>
                                    xmul (elem x (removelast idx ++ [j]))
                                         (weight self (last idx 0) j))
                                 (seq 0 (in_features self))))
                      (bias self (last idx 0))))
      else Raise (RuntimeError "mat1 and mat2 shapes cannot be multiplied")
  end.

(** [nn.Dropout].  In training mode the elements that are not kept are
    multiplied by zero and the others by [1 / (1 - p)]; which are kept is
    the random draw, an argument here. *)
Record Dropout : Type := mkDropout { p : R; training : bool }.

Definition Dropout_init (p : R) (training : bool) : result Dropout :=
  if Rlt_dec p 0 then
    Raise (ValueError "dropout probability has to be between 0 and 1")
  else if Rlt_dec 1 p then
    Raise (ValueError "dropout probability has to be between 0 and 1")
  else Ok (mkDropout p training).

Definition Dropout_forward (self : Dropout) (keep : list nat -> bool) (x : rtensor)
  : rtensor :=
  if training self then
    if Req_EM_T (p self) 0 then x
    else if Req_EM_T (p self) 1 then map_elems (fun v => xmul v (Fin 0)) x
    else mkR (rshape x)
             (fun idx => if keep idx
                         then xmul (elem x idx) (Fin (1 / (1 - p self)))
                         else xmul (elem x idx) (Fin 0))
  else x.

(** [nn.LayerNorm(d)]. *)
Record LayerNorm : Type := mkLayerNorm {
  normalized_shape : nat;
  eps : R;
  ln_weight : nat -> xfloat;
  ln_bias : nat -> xfloat
}.

Definition LayerNorm_forward (self : LayerNorm) (x : rtensor) : result rtensor :=
  match rev (rshape x) with
  | [] => Raise (RuntimeError "layer_norm: input shape does not match normalized_shape")
  | n :: _ =>
      if n =? normalized_shape self then
        Ok (mkR (rshape x)
              (fun idx =>
                 let row := row_of x idx in
                 let d := Fin (INR n) in
                 let mean := xdiv (xsum row) d in
                 let var := xdiv (xsum (map (fun v => xmul (xsub v mean) (xsub v mean)) row)) d in
                 xadd (xmul (xdiv (xsub (elem x idx) mean)
                                  (xsqrt (xadd var (Fin (eps self)))))
                            (ln_weight self (last idx 0)))
                      (ln_bias self (last idx 0))))
      else Raise (RuntimeError "layer_norm: input shape does not match normalized_shape")
  end.

(** [nn.Embedding]. *)
Record Embedding : Type := mkEmbedding {
  num_embeddings : nat;
  embedding_dim : nat;
  emb_weight : nat -> nat -> xfloat
}.

Definition Embedding_forward (self : Embedding) (x : itensor) : result rtensor :=
  if forallb (fun idx => (0 <=? ielem x idx)%Z
                         && (ielem x idx <? Z.of_nat (num_embeddings self))%Z)
             (indices (ishape x))
  then Ok (mkR (ishape x ++ [embedding_dim self])
             (fun idx => emb_weight self (Z.to_nat (ielem x (removelast idx)))
                                    (last idx 0)))
  else Raise (IndexError "index out of range in self").

(** [x.shape[k]]. *)
Definition shape_at (x : rtensor) (k : nat) : result nat :=
  match nth_error (rshape x) k with
  | Some n => Ok n
  | None => Raise (IndexError "tuple index out of range")
  end.

End RTorch.

Import RTorch.


(** ** hw7.py *)

(** The random draws of the dropout layers: which elements call site [k]
    keeps. *)
Definition noise : Type := nat -> list nat -> bool.

(** [a, b, c = x.shape]. *)
Definition unpack3 (x : rtensor) : result (nat * nat * nat) :=
  match rshape x with
  | [a; b; c] => Ok (a, b, c)
  | _ => Raise (ValueError "not enough values to unpack (expected 3)")
  end.

Module MultiHeadAttention.

Record t : Type := mk {
  d_model : nat;
  numhead : nat;
  d_Q : nat;
  d_K : nat;
  d_V : nat;
  W_Q : Linear;
  W_K : Linear;
  W_V : Linear;
  W_O : Linear;
  dropout : Dropout;
  scale : xfloat
}.

(** The initial values of the four projections. *)
Record params : Type := mkParams {
  wq : nat -> nat -> xfloat; bq : nat -> xfloat;
  wk : nat -> nat -> xfloat; bk : nat -> xfloat;
  wv : nat -> nat -> xfloat; bv : nat -> xfloat;
  wo : nat -> nat -> xfloat; bo : nat -> xfloat
}.

Definition init (d_model d_Q d_K d_V numhead : nat) (dropout : R) (training : bool)
           (w : params) : result t :=
  drop <- Dropout_init dropout training ;;
  Ok (mk d_model numhead d_Q d_K d_V
         (mkLinear d_model (d_Q * numhead) (wq w) (bq w))
         (mkLinear d_model (d_K * numhead) (wk w) (bk w))
         (mkLinear d_model (d_V * numhead) (wv w) (bv w))
         (mkLinear (d_V * numhead) d_model (wo w) (bo w))
         drop
         (Fin (sqrt (INR d_K)))).

(** The loop [for i, length in enumerate(src_batch_lens)]. *)
Fixpoint mask_loop (mask : bmask) (i : nat) (src_batch_lens : list Z) : result bmask :=
  match src_batch_lens with
  | [] => Ok mask
  | length :: rest =>
      mask <- mask_setitem mask i length ;;
      mask_loop mask (S i) rest
  end.

(** [forward], lines 60 to 66: the projections and the scaled scores.  The
    locals [scores], [V], [batch_size] and [seq_len] are what the rest of
    the function reads. *)
Definition scores_and_values (self : t) (x_Q x_K x_V : rtensor)
  : result (rtensor * rtensor * Z * Z) :=
  '(batch_size, seq_len, _) <- unpack3 x_Q ;;
  let batch_size := Z.of_nat batch_size in
  let seq_len := Z.of_nat seq_len in
  Q <- Linear_forward (W_Q self) x_Q ;;
  Q <- view Q [batch_size; seq_len; Z.of_nat (numhead self); Z.of_nat (d_Q self)] ;;
  Q <- transpose Q 1 2 ;;
  K <- Linear_forward (W_K self) x_K ;;
  K <- view K [batch_size; seq_len; Z.of_nat (numhead self); Z.of_nat (d_K self)] ;;
  K <- transpose K 1 2 ;;
  V <- Linear_forward (W_V self) x_V ;;
  V <- view V [batch_size; seq_len; Z.of_nat (numhead self); Z.of_nat (d_V self)] ;;
  V <- transpose V 1 2 ;;
  Kt <- transpose K (-2) (-1) ;;
  scores <- matmul Q Kt ;;
  let scores := div_scalar scores (scale self) in
  Ok (scores, V, batch_size, seq_len).

(** [forward], lines 68 to 82: mask, softmax, dropout, weighted sum, merge of
    the heads and output projection.  The local [attention] (the softmax
    weights, before dropout) is returned next to the result. *)
Definition attend (self : t) (keep : list nat -> bool) (scores V : rtensor)
           (batch_size seq_len : Z) (src_batch_lens : option (list Z))
  : result (rtensor * rtensor) :=
  scores <- match src_batch_lens with
            | None => Ok scores
            | Some lens =>
                mask <- mask_loop (zeros_like_bool scores) 0 lens ;;
                Ok (masked_fill scores mask NegInf)
            end ;;
  let attention := softmax scores in
  let dropped := Dropout_forward (dropout self) keep attention in
  out <- matmul dropped V ;;
  out <- transpose out 1 2 ;;
  out <- view (contiguous out) [batch_size; seq_len; -1]%Z ;;
  out <- Linear_forward (W_O self) out ;;
  Ok (attention, out).

Definition forward_with_attention (self : t) (keep : list nat -> bool)
           (x_Q x_K x_V : rtensor) (src_batch_lens : option (list Z))
  : result (rtensor * rtensor) :=
  '(scores, V, batch_size, seq_len) <- scores_and_values self x_Q x_K x_V ;;
  attend self keep scores V batch_size seq_len src_batch_lens.

Definition forward (self : t) (keep : list nat -> bool)
           (x_Q x_K x_V : rtensor) (src_batch_lens : option (list Z))
  : result rtensor :=
  r <- forward_with_attention self keep x_Q x_K x_V src_batch_lens ;;
  Ok (snd r).

End MultiHeadAttention.

Module TF_Encoder_Block.

(** [nn.Sequential(Linear, ReLU, Dropout, Linear)]. *)
Record ff : Type := mkFF { ff_in : Linear; ff_dropout : Dropout; ff_out : Linear }.

Record t : Type := mk {
  attention : MultiHeadAttention.t;
  ff_network : ff;
  norm1 : LayerNorm;
  norm2 : LayerNorm;
  dropout : Dropout
}.

Record params : Type := mkParams {
  attention_params : MultiHeadAttention.params;
  w1 : nat -> nat -> xfloat; b1 : nat -> xfloat;
  w2 : nat -> nat -> xfloat; b2 : nat -> xfloat
}.

(** Python's [//] on non-negative integers. *)
Definition floordiv (a c : nat) : result nat :=
  if c =? 0 then Raise ZeroDivisionError else Ok (a / c).

Definition LayerNorm_init (d : nat) : LayerNorm :=
  mkLayerNorm d (1 / 100000)%R (fun _ => Fin 1) (fun _ => Fin 0).

Definition init (d_model d_ff numhead : nat) (dropout : R) (training : bool)
           (w : params) : result t :=
  d_head <- floordiv d_model numhead ;;
  attention <- MultiHeadAttention.init d_model d_head d_head d_head numhead
                 dropout training (attention_params w) ;;
  ff_drop <- Dropout_init dropout training ;;
  drop <- Dropout_init dropout training ;;
  Ok (mk attention
         (mkFF (mkLinear d_model d_ff (w1 w) (b1 w)) ff_drop
               (mkLinear d_ff d_model (w2 w) (b2 w)))
         (LayerNorm_init d_model) (LayerNorm_init d_model)
         drop).

Definition ff_forward (self : ff) (keep : list nat -> bool) (x : rtensor)
  : result rtensor :=
  x <- Linear_forward (ff_in self) x ;;
  let x := relu x in
  let x := Dropout_forward (ff_dropout self) keep x in
  Linear_forward (ff_out self) x.

(** Call sites of dropout inside a block: 0 in the attention, 1 and 3 on
    the two residual paths, 2 in the feed-forward network. *)
Definition forward (self : t) (rng : noise) (x : rtensor)
           (src_batch_lens : option (list Z)) : result rtensor :=
  att_out <- MultiHeadAttention.forward (attention self) (rng 0) x x x src_batch_lens ;;
  x <- add x (Dropout_forward (dropout self) (rng 1) att_out) ;;
  x <- LayerNorm_forward (norm1 self) x ;;
  ff_out <- ff_forward (ff_network self) (rng 2) x ;;
  out <- add x (Dropout_forward (dropout self) (rng 3) ff_out) ;;
  LayerNorm_forward (norm2 self) out.

End TF_Encoder_Block.

Definition PosEncoding_value (d_model pos i : nat) : R :=
  ((1 - INR (i mod 2)) * sin (INR pos / Rpower 10 (4 * INR i / INR d_model))
   + INR (i mod 2) * cos (INR pos / Rpower 10 (4 * (INR i - 1) / INR d_model)))%R.

(** [torch.tensor(range(0))] is an empty float tensor and
    [torch.tensor(range(n))] an integer one: [torch.meshgrid] refuses the
    pair when exactly one of the two ranges is empty. *)
Definition PosEncoding (t_len d_model : nat) : result rtensor :=
  if xorb (t_len =? 0) (d_model =? 0) then
    Raise (RuntimeError "torch.meshgrid: Expected all tensors to have the same dtype")
  else
    Ok (mkR [t_len; d_model]
          (fun idx =>
             match idx with
             | [pos; i] => Fin (PosEncoding_value d_model pos i)
             | _ => NaN
             end)).

Module TF_Encoder.

Record t : Type := mk {
  numlayer : nat;
  src_embed : Embedding;
  dropout : Dropout;
  encoder_layers : list TF_Encoder_Block.t
}.

(** [[TF_Encoder_Block(...) for _ in range(numlayer)]]: block [k] is
    initialised with the values [w k]. *)
Fixpoint make_layers (d_model d_ff numhead : nat) (dropout : R) (training : bool)
         (w : nat -> TF_Encoder_Block.params) (k n : nat)
  : result (list TF_Encoder_Block.t) :=
  match n with
  | O => Ok []
  | S n' =>
      blk <- TF_Encoder_Block.init d_model d_ff numhead dropout training (w k) ;;
      rest <- make_layers d_model d_ff numhead dropout training w (S k) n' ;;
      Ok (blk :: rest)
  end.

Definition init (vocab_size d_model d_ff numlayer numhead : nat) (dropout : R)
           (training : bool) (embed : nat -> nat -> xfloat)
           (w : nat -> TF_Encoder_Block.params) : result t :=
  drop <- Dropout_init dropout training ;;
  layers <- make_layers d_model d_ff numhead dropout training w 0 numlayer ;;
  Ok (mk numlayer (mkEmbedding vocab_size d_model embed) drop layers).

(** Dropout call sites: 0 for the embedding, [1 + 4 k ..] for block [k]. *)
Definition block_noise (rng : noise) (k : nat) : noise :=
  fun site => rng (1 + 4 * k + site).

(** The loop [for encoder_layer in self.encoder_layers], with the local
    [out] ([None] while it is unbound).  Every iteration reads [x]. *)
Fixpoint layers_loop (layers : list TF_Encoder_Block.t) (rng : noise) (k : nat)
         (x : rtensor) (src_batch_lens : option (list Z)) (out : option rtensor)
  : result (option rtensor) :=
  match layers with
  | [] => Ok out
  | encoder_layer :: rest =>
      out <- TF_Encoder_Block.forward encoder_layer (block_noise rng k) x src_batch_lens ;;
      layers_loop rest rng (S k) x src_batch_lens (Some out)
  end.

(** The input of the first block: embedding, dropout, positional encoding. *)
Definition embed (self : t) (rng : noise) (x : itensor) : result rtensor :=
  x_embed <- Embedding_forward (src_embed self) x ;;
  let x := Dropout_forward (dropout self) (rng 0) x_embed in
  t_len <- shape_at x 1 ;;
  d <- shape_at x 2 ;;
  p_enc <- PosEncoding t_len d ;;
  add x p_enc.

Definition forward (self : t) (rng : noise) (x : itensor)
           (src_batch_lens : option (list Z)) : result rtensor :=
  x <- embed self rng x ;;
  out <- layers_loop (encoder_layers self) rng 0 x src_batch_lens None ;;
  match out with
  | Some out => Ok out
  | None => Raise (UnboundLocalError "out")
  end.

(** The stack as the specification words it: each block consumes the
    output of the block before it. *)
Fixpoint chained_loop (layers : list TF_Encoder_Block.t) (rng : noise) (k : nat)
         (x : rtensor) (src_batch_lens : option (list Z)) : result rtensor :=
  match layers with
  | [] => Ok x
  | encoder_layer :: rest =>
      x <- TF_Encoder_Block.forward encoder_layer (block_noise rng k) x src_batch_lens ;;
      chained_loop rest rng (S k) x src_batch_lens
  end.

Definition forward_chained (self : t) (rng : noise) (x : itensor)
           (src_batch_lens : option (list Z)) : result rtensor :=
  x <- embed self rng x ;;
  chained_loop (encoder_layers self) rng 0 x src_batch_lens.

End TF_Encoder.


(** [nn.AdaptiveAvgPool2d((1, None))]: the mean over the last dimension but
    one, the last dimension kept as it is.  A 3-D input is one image with its
    channels first. *)
Definition AdaptiveAvgPool2d_1_None (x : rtensor) : result rtensor :=
  let pooled (pre : list nat) (h w : nat) :=
    if (h =? 0) || (w =? 0) then
      Raise (RuntimeError
               "adaptive_avg_pool2d(): Expected input to have non-zero size for non-batch dimensions")
    else
      Ok (mkR (pre ++ [1; w])
            (fun idx =>
               let lead := firstn (length pre) idx in
               let j := last idx 0 in
               xdiv (xsum (map (fun k => elem x (lead ++ [k; j])) (seq 0 h)))
                    (Fin (INR h)))) in
  match rshape x with
  | [c; h; w] => pooled [c] h w
  | [n; c; h; w] => pooled [n; c] h w
  | _ => Raise (RuntimeError "adaptive_avg_pool2d(): Expected 3D or 4D tensor")
  end.

(** [x.flatten()]. *)
Definition flatten (x : rtensor) : rtensor :=
  mkR [numel (rshape x)] (fun idx => elem x (unravel (nth 0 idx 0) (rshape x))).

Module sentiment_classifier.

(** [self.classifier]: pooling, dropout, linear, ReLU, dropout, linear. *)
Record t : Type := mk {
  encoder : TF_Encoder.t;
  classifier_dropout1 : Dropout;
  classifier_linear1 : Linear;
  classifier_dropout2 : Dropout;
  classifier_linear2 : Linear
}.

(** The initial values of the two linear layers of the classifier. *)
Record params : Type := mkParams {
  cw1 : nat -> nat -> xfloat; cb1 : nat -> xfloat;
  cw2 : nat -> nat -> xfloat; cb2 : nat -> xfloat
}.

Definition init (enc_input_size enc_d_model enc_d_ff enc_num_layer enc_num_head : nat)
           (dropout : R) (training : bool) (embed : nat -> nat -> xfloat)
           (w : nat -> TF_Encoder_Block.params) (cw : params) : result t :=
  encoder <- TF_Encoder.init enc_input_size enc_d_model enc_d_ff enc_num_layer
               enc_num_head dropout training embed w ;;
  drop1 <- Dropout_init dropout training ;;
  drop2 <- Dropout_init dropout training ;;
  Ok (mk encoder drop1
         (mkLinear enc_d_model enc_d_model (cw1 cw) (cb1 cw))
         drop2
         (mkLinear enc_d_model 1 (cw2 cw) (cb2 cw))).

(** The dropout call sites of the classifier come after those of the
    encoder. *)
Definition classifier_noise (self : t) (rng : noise) (site : nat) : list nat -> bool :=
  rng (1 + 4 * TF_Encoder.numlayer (encoder self) + site).

Definition classifier_forward (self : t) (rng : noise) (x : rtensor) : result rtensor :=
  x <- AdaptiveAvgPool2d_1_None x ;;
  let x := Dropout_forward (classifier_dropout1 self) (classifier_noise self rng 0) x in
  x <- Linear_forward (classifier_linear1 self) x ;;
  let x := relu x in
  let x := Dropout_forward (classifier_dropout2 self) (classifier_noise self rng 1) x in
  Linear_forward (classifier_linear2 self) x.

Definition forward (self : t) (rng : noise) (x : itensor) (x_lens : option (list Z))
  : result rtensor :=
  src_ctx <- TF_Encoder.forward (encoder self) rng x x_lens ;;
  out <- classifier_forward self rng src_ctx ;;
  let out_logits := flatten out in
  Ok out_logits.

End sentiment_classifier.

(** Two's-complement wrap-around of a [w]-bit integer. *)
Definition wrap (w : Z) (z : Z) : Z :=
  ((z + 2 ^ (w - 1)) mod 2 ^ w - 2 ^ (w - 1))%Z.

(** [torch.sum(x, dim=-1)] on 64-bit integers. *)
Definition isum_last (x : itensor) : itensor :=
  match rev (ishape x) with
  | [] => x
  | n :: pre =>
      mkI (rev pre)
          (fun idx => fold_left (fun acc j => wrap 64 (acc + ielem x (idx ++ [j])))
                                (seq 0 n) 0%Z)
  end.

(** [get_lens_from_tensor]; [SRC_PAD_IDX] is the global the module reads
    from the vocabulary. *)
Definition get_lens_from_tensor (SRC_PAD_IDX : Z) (x : itensor) : itensor :=
  let lens := mkI (ishape x) (fun _ => 1%Z) in
  let lens := mkI (ishape lens)
                  (fun idx => if (ielem x idx =? SRC_PAD_IDX)%Z then 0%Z
                              else ielem lens idx) in
  isum_last lens.

(** What iterating over a 1-D tensor yields: its entries, in order. *)
Definition tensor_items (t : itensor) : list Z :=
  map (fun i => ielem t [i]) (seq 0 (nth 0 (ishape t) 0)).

(** The call of the model in [train] and [evaluate]: the lengths are
    computed from the batch. *)
Definition model_on_batch (model : sentiment_classifier.t) (SRC_PAD_IDX : Z)
           (rng : noise) (src : itensor) : result rtensor :=
  let x_lens := get_lens_from_tensor SRC_PAD_IDX src in
  sentiment_classifier.forward model rng src (Some (tensor_items x_lens)).

(** [((a == u) & (c == v)).type(torch.int32)] on two 1-D tensors, which
    broadcast when one of them has a single entry. *)
Definition both (a c : list Z) (u v : Z) : result (list Z) :=
  let hit (x y : Z) := if (x =? u)%Z && (y =? v)%Z then 1%Z else 0%Z in
  if length a =? length c then Ok (map (fun p => hit (fst p) (snd p)) (combine a c))
  else if length a =? 1 then Ok (map (fun y => hit (hd 0%Z a) y) c)
  else if length c =? 1 then Ok (map (fun x => hit x (hd 0%Z c)) a)
  else Raise (RuntimeError "The size of tensor a must match the size of tensor b").

(** Python's [sum] over the entries of a 32-bit integer tensor. *)
Definition sum32 (l : list Z) : Z := fold_left (fun acc v => wrap 32 (acc + v)) l 0%Z.

(** [v != 0] on a float. *)
Definition xnonzero (v : xfloat) : bool :=
  match v with
  | Fin r => if Req_EM_T r 0 then false else true
  | _ => true
  end.

(** [get_binary_metrics] on two 1-D tensors of labels.  On an empty tensor
    the four sums are the Python integer 0 and the first quotient is a
    division of integers; otherwise they are 32-bit tensors, whose quotient
    is a float.  The integer 0 of the guards stands as the float 0. *)
Definition get_binary_metrics (y_pred y : list Z)
  : result (xfloat * xfloat * xfloat * xfloat) :=
  tp <- both y_pred y 1 1 ;;
  fp <- both y_pred y 1 0 ;;
  tn <- both y_pred y 0 0 ;;
  fn <- both y_pred y 0 1 ;;
  match tp with
  | [] => Raise ZeroDivisionError
  | _ :: _ =>
      let TP := sum32 tp in
      let FP := sum32 fp in
      let TN := sum32 tn in
      let FN := sum32 fn in
      let ratio (a c : Z) := xdiv (Fin (IZR a)) (Fin (IZR c)) in
      let accy := ratio (wrap 32 (TP + TN))
                        (wrap 32 (wrap 32 (wrap 32 (TP + FP) + TN) + FN)) in
      let recall := if (wrap 32 (TP + FN) =? 0)%Z then Fin 0
                    else ratio TP (wrap 32 (TP + FN)) in
      let prec := if (wrap 32 (TP + FP) =? 0)%Z then Fin 0
                  else ratio TP (wrap 32 (TP + FP)) in
      let f1 := if xnonzero (xadd recall prec)
                then xdiv (xmul (xmul (Fin 2) recall) prec) (xadd recall prec)
                else Fin 0 in
      Ok (accy, recall, prec, f1)
  end.


(* ================================================================= *)
(** * Part II: the vocabulary of the properties *)
(* ================================================================= *)

(** ** The window view *)

(** The window descriptor of the data model, dimension by dimension:
    [1 <= window <= extent] and [1 <= step]. *)
Inductive valid_dims : list nat -> list Z -> list Z -> Prop :=
| valid_nil : valid_dims [] [] []
| valid_cons n w s shp ws st :
    (1 <= w <= Z.of_nat n)%Z -> (1 <= s)%Z ->
    valid_dims shp ws st ->
    valid_dims (n :: shp) (w :: ws) (s :: st).

(** Number of window positions per dimension. *)
Definition positions (shp : list nat) (ws st : list Z) : list nat :=
  map Z.to_nat
      (zip_with (fun d k => d / k + 1)%Z (zip_with Z.sub (map Z.of_nat shp) ws) st).

(** Strides of the step-subsampled view. *)
Definition stepped_strides (strd : list nat) (st : list Z) : list nat :=
  zip_with (fun s k => s * Z.to_nat k) strd st.

(** The input position a window element is read from. *)
Definition window_index (i j : list nat) (st : list Z) : list nat :=
  zip_with Nat.add (zip_with (fun a k => a * Z.to_nat k) i st) j.

(** A scalar argument stands for one entry per dimension. *)
Definition broadcast_arg (a : pyarg) (n : nat) : list Z :=
  match a with
  | Number z => repeat z n
  | Tuple l => l
  end.

(** The view [view_as_windows] builds for a valid descriptor. *)
Definition window_view (t : tensor) (ws st : list Z) : tensor :=
  mkTensor (storage t) (offset t)
           (positions (shape t) ws st ++ map Z.to_nat ws)
           (stepped_strides (stride t) st ++ stride t).

(** The malformed inputs of the contract, in its words.  A scalar
    [window_shape] stands for one extent per dimension; a scalar [step] is
    judged as given. *)
Section WindowArguments.

Variable t : tensor.
Variables window_shape step : pyarg.

Let N := length (shape t).

Definition window_rank_mismatch : Prop :=
  length (broadcast_arg window_shape N) <> N.

Definition step_invalid : Prop :=
  match step with
  | Number s => (s < 1)%Z
  | Tuple l => Exists (fun s => s < 1)%Z l \/ length l <> N
  end.

Definition window_too_large : Prop :=
  Exists (fun p => Z.of_nat (fst p) < snd p)%Z
         (combine (shape t) (broadcast_arg window_shape N)).

Definition window_too_small : Prop :=
  Exists (fun w => w < 1)%Z (broadcast_arg window_shape N).

Definition well_formed : Prop :=
  ~ window_rank_mismatch /\ ~ step_invalid /\
  ~ window_too_large /\ ~ window_too_small.

End WindowArguments.

(** [torch.arange(n)]. *)
Definition arange (n : nat) : tensor := from_list (map Z.of_nat (seq 0 n)) [n].

(** A 2-D tensor as a list of rows. *)
Definition rows (t : tensor) : list (list Z) :=
  match shape t with
  | [n; m] => map (fun i => map (fun j => rd t [i; j]) (seq 0 m)) (seq 0 n)
  | _ => []
  end.

(** The checks of the contract on the arguments of [view_as_windows]. *)
Inductive check : Type :=
| NotATensor | WindowRank | StepCheck | WindowTooLarge | WindowTooSmall.

(** The check an exception of [view_as_windows] reports, by its message.
    A step that is not positive is reported by the function itself when the
    step is a number, and by the slicing of the tensor otherwise. *)
Definition reported_check (e : exn) : option check :=
  match e with
  | TypeError _ => Some NotATensor
  | ValueError msg =>
      if String.eqb msg "`window_shape` is incompatible with `arr_in.shape`"
      then Some WindowRank
      else if String.eqb msg "`step` must be >= 1"
              || String.eqb msg "`step` is incompatible with `arr_in.shape`"
              || String.eqb msg "step must be greater than zero"
      then Some StepCheck
      else if String.eqb msg "`window_shape` is too large" then Some WindowTooLarge
      else if String.eqb msg "`window_shape` is too small" then Some WindowTooSmall
      else None
  | _ => None
  end.

(** The malformed inputs of the contract as tests. *)
Definition window_rank_mismatchb (t : tensor) (window_shape : pyarg) : bool :=
  negb (length (broadcast_arg window_shape (length (shape t))) =? length (shape t)).

Definition step_rank_mismatchb (t : tensor) (step : pyarg) : bool :=
  match step with
  | Number _ => false
  | Tuple l => negb (length l =? length (shape t))
  end.

Definition step_not_positiveb (step : pyarg) : bool :=
  match step with
  | Number s => (s <? 1)%Z
  | Tuple l => existsb (fun s => s <? 1)%Z l
  end.

Definition window_too_largeb (t : tensor) (window_shape : pyarg) : bool :=
  existsb (fun p => Z.of_nat (fst p) <? snd p)%Z
          (combine (shape t) (broadcast_arg window_shape (length (shape t)))).

Definition window_too_smallb (t : tensor) (window_shape : pyarg) : bool :=
  existsb (fun w => w <? 1)%Z (broadcast_arg window_shape (length (shape t))).

(** The first check that fails, in the order the specification states:
    tensor, rank of the window, step (value or rank), window too large,
    window too small. *)
Definition stated_first_failure (arr_in : pyobj) (window_shape step : pyarg)
  : option check :=
  match arr_in with
  | NotTensor => Some NotATensor
  | Tensor t =>
      if window_rank_mismatchb t window_shape then Some WindowRank
      else if step_not_positiveb step || step_rank_mismatchb t step then Some StepCheck
      else if window_too_largeb t window_shape then Some WindowTooLarge
      else if window_too_smallb t window_shape then Some WindowTooSmall
      else None
  end.

(** The order as amended: of the step, only a number below 1 and a tuple of
    the wrong length are refused before the window is looked at; a tuple
    with a component below 1 is refused last. *)
Definition amended_first_failure (arr_in : pyobj) (window_shape step : pyarg)
  : option check :=
  match arr_in with
  | NotTensor => Some NotATensor
  | Tensor t =>
      if window_rank_mismatchb t window_shape then Some WindowRank
      else if match step with Number s => (s <? 1)%Z | Tuple _ => false end
              || step_rank_mismatchb t step then Some StepCheck
      else if window_too_largeb t window_shape then Some WindowTooLarge
      else if window_too_smallb t window_shape then Some WindowTooSmall
      else if step_not_positiveb step then Some StepCheck
      else None
  end.

(** The exception class the contract gives a check. *)
Definition check_kind (c : check) : kind :=
  match c with
  | NotATensor => KType
  | _ => KValue
  end.

(** ** Convolution and pooling *)

(** The reference: valid, unpadded, stride-1 cross-correlation (the kernel is
    not flipped), plus the bias of the output channel. *)
Definition cross_correlation (x w b : tensor) (n o h v : nat) : Z :=
  match shape w with
  | [_; C; fh; fw] =>
      Z.add
        (sumZ (map (fun c =>
           sumZ (map (fun i =>
             sumZ (map (fun j => Z.mul (rd x [n; c; h + i; v + j]) (rd w [o; c; i; j]))
                       (seq 0 fw)))
                (seq 0 fh)))
           (seq 0 C)))
        (rd b [0; o; 0; 0])
  | _ => 0%Z
  end.

(** A 4 by 4 image and a 2 by 2 filter. *)
Definition conv_example_x : tensor := from_list (map Z.of_nat (seq 0 16)) [1; 1; 4; 4].
Definition conv_example_layer : nn_convolutional_layer.layer tensor :=
  nn_convolutional_layer.mkLayer (from_list [1; 0; 0; 2]%Z [1; 1; 2; 2])
                                 (from_list [100]%Z [1; 1; 1; 1]).

(** The reference: the maximum over the [p] by [p] window at [(h * s, v * s)]. *)
Definition max_pool_reference (x : tensor) (p s : nat) (n c h v : nat) : Z :=
  maxZ (flat_map (fun i => map (fun j => rd x [n; c; h * s + i; v * s + j]) (seq 0 p))
                 (seq 0 p)).

(** A 2x2 image whose largest entry is neither first nor last. *)
Definition pool_example_x : tensor := from_list [1; 9; 3; 4]%Z [1; 1; 2; 2].

(** ** Copies of the parameters *)

(** Two tensors with the same shape and the same elements. *)
Definition same_contents (t1 t2 : tensor) : Prop :=
  shape t1 = shape t2 /\
  forall idx, in_bounds idx (shape t1) = true -> rd t1 idx = rd t2 idx.

(** A layer whose two parameters own the two storages of a heap. *)
Definition example_heap : heap := [[1; 2; 3; 4]; [7]]%Z.
Definition example_instance : nn_convolutional_layer.layer tref :=
  nn_convolutional_layer.mkLayer (mkRef 0 0 [1; 1; 2; 2] [4; 4; 2; 1] true true)
                                 (mkRef 1 0 [1; 1; 1; 1] [1; 1; 1; 1] true true).

(** ** Positional encoding and attention *)

(** The formula of the specification. *)
Definition sinusoid (d_model pos i : nat) : R :=
  if Nat.even i
  then sin (INR pos / Rpower 10000 (INR i / INR d_model))
  else cos (INR pos / Rpower 10000 ((INR i - 1) / INR d_model)).

(** Rows whose entries are finite or negative infinity. *)
Definition finite (v : xfloat) : Prop := exists r, v = Fin r.
Definition finite_or_masked (v : xfloat) : Prop := v = NegInf \/ finite v.

(** What the mask makes of the scores of one row of keys of length [S]. *)
Definition masked_score (S : nat) (scores : rtensor) (lens : option (list Z))
           (b hh q j : nat) : xfloat :=
  match lens with
  | None => elem scores [b; hh; q; j]
  | Some l =>
      if (b <? length l) && (slice_start (nth b l 0%Z) S <=? j)
      then NegInf
      else elem scores [b; hh; q; j]
  end.

(** The dimensions the constructor gives the four projections. *)
Definition built (self : MultiHeadAttention.t) (D : nat) : Prop :=
  (in_features (MultiHeadAttention.W_Q self) = D /\
   out_features (MultiHeadAttention.W_Q self)
   = MultiHeadAttention.d_Q self * MultiHeadAttention.numhead self) /\
  (in_features (MultiHeadAttention.W_K self) = D /\
   out_features (MultiHeadAttention.W_K self)
   = MultiHeadAttention.d_K self * MultiHeadAttention.numhead self) /\
  (in_features (MultiHeadAttention.W_V self) = D /\
   out_features (MultiHeadAttention.W_V self)
   = MultiHeadAttention.d_V self * MultiHeadAttention.numhead self) /\
  (in_features (MultiHeadAttention.W_O self)
   = MultiHeadAttention.d_V self * MultiHeadAttention.numhead self /\
   out_features (MultiHeadAttention.W_O self) = D).

(** A one-token batch with one head, every parameter and input zero. *)
Definition zero_params : MultiHeadAttention.params :=
  MultiHeadAttention.mkParams
    (fun _ _ => Fin 0) (fun _ => Fin 0) (fun _ _ => Fin 0) (fun _ => Fin 0)
    (fun _ _ => Fin 0) (fun _ => Fin 0) (fun _ _ => Fin 0) (fun _ => Fin 0).

Definition tiny_attention : MultiHeadAttention.t :=
  MultiHeadAttention.mk 1 1 1 1 1
    (mkLinear 1 1 (fun _ _ => Fin 0) (fun _ => Fin 0))
    (mkLinear 1 1 (fun _ _ => Fin 0) (fun _ => Fin 0))
    (mkLinear 1 1 (fun _ _ => Fin 0) (fun _ => Fin 0))
    (mkLinear 1 1 (fun _ _ => Fin 0) (fun _ => Fin 0))
    (mkDropout 0 false)
    (Fin (sqrt (INR 1))).

Definition tiny_input : rtensor := mkR [1; 1; 1] (fun _ => Fin 0).

Definition one_input : rtensor := mkR [1; 2; 1] (fun _ => Fin 0).

(** ** Encoder block and stack *)

(** A length vector the mask loop accepts for a batch of [B]. *)
Definition lens_ok (lens : option (list Z)) (B : nat) : Prop :=
  match lens with
  | Some l => length l <= B
  | None => True
  end.

(** What the constructor of a block establishes. *)
Definition built_block (blk : TF_Encoder_Block.t) (D : nat) : Prop :=
  built (TF_Encoder_Block.attention blk) D /\
  MultiHeadAttention.d_Q (TF_Encoder_Block.attention blk)
  = MultiHeadAttention.d_K (TF_Encoder_Block.attention blk) /\
  in_features (TF_Encoder_Block.ff_in (TF_Encoder_Block.ff_network blk)) = D /\
  out_features (TF_Encoder_Block.ff_in (TF_Encoder_Block.ff_network blk))
  = in_features (TF_Encoder_Block.ff_out (TF_Encoder_Block.ff_network blk)) /\
  out_features (TF_Encoder_Block.ff_out (TF_Encoder_Block.ff_network blk)) = D /\
  normalized_shape (TF_Encoder_Block.norm1 blk) = D /\
  normalized_shape (TF_Encoder_Block.norm2 blk) = D.

(** Every token id is a row of the embedding table. *)
Definition tokens_in_vocab (x : itensor) (vocab_size : nat) : Prop :=
  forall idx, In idx (indices (ishape x)) ->
              (0 <= ielem x idx < Z.of_nat vocab_size)%Z.

(** A block, a token batch and an encoder of the smallest size. *)
Definition zero_block_params : TF_Encoder_Block.params :=
  TF_Encoder_Block.mkParams zero_params
    (fun _ _ => Fin 0) (fun _ => Fin 0) (fun _ _ => Fin 0) (fun _ => Fin 0).

Definition one_token : itensor := mkI [1; 1] (fun _ => 0%Z).

(** ** Further examples and predicates *)

(** Layers whose filter does not fit the example image: too tall and wide,
    and with two input channels. *)
Definition oversized_filter_layer : nn_convolutional_layer.layer tensor :=
  nn_convolutional_layer.mkLayer (from_list (repeat 1%Z 25) [1; 1; 5; 5])
                                 (from_list [100]%Z [1; 1; 1; 1]).
Definition two_channel_layer : nn_convolutional_layer.layer tensor :=
  nn_convolutional_layer.mkLayer (from_list (repeat 1%Z 8) [1; 2; 2; 2])
                                 (from_list [100]%Z [1; 1; 1; 1]).

(** The example layer after [set_weights] with its own parameters, and the
    copies [get_weights] then returns. *)
Definition example_reset : heap * nn_convolutional_layer.layer tref :=
  nn_convolutional_layer.set_weights example_instance
    (nn_convolutional_layer.W example_instance)
    (nn_convolutional_layer.b example_instance) example_heap.
Definition example_copies : heap * (tref * tref) :=
  nn_convolutional_layer.get_weights (snd example_reset) (fst example_reset).

(** An encoder without blocks, and a token outside a vocabulary of one. *)
Definition empty_encoder : TF_Encoder.t :=
  TF_Encoder.mk 0 (mkEmbedding 1 1 (fun _ _ => Fin 0)) (mkDropout 0 false) [].

Definition unknown_token : itensor := mkI [1; 1] (fun _ => 1%Z).

(** An attention module whose queries are one wide and whose keys are two
    wide, every parameter zero. *)
Definition lopsided_attention : MultiHeadAttention.t :=
  MultiHeadAttention.mk 1 1 1 2 1
    (mkLinear 1 1 (fun _ _ => Fin 0) (fun _ => Fin 0))
    (mkLinear 1 2 (fun _ _ => Fin 0) (fun _ => Fin 0))
    (mkLinear 1 1 (fun _ _ => Fin 0) (fun _ => Fin 0))
    (mkLinear 1 1 (fun _ _ => Fin 0) (fun _ => Fin 0))
    (mkDropout 0 false)
    (Fin (sqrt (INR 2))).

(** Sum of a list of reals. *)
Definition Rsum (l : list R) : R := fold_right Rplus 0%R l.

(** The scores of one query are finite and the mask leaves its first key. *)
Definition first_key_kept (lens : option (list Z)) (i : nat) : Prop :=
  match lens with
  | Some l => i < length l -> (1 <= nth i l 0)%Z
  | None => True
  end.

(** The dropout layers of a block, an encoder and a classifier are switched
    off, as [model.eval()] leaves them. *)
Definition eval_mode_block (blk : TF_Encoder_Block.t) : Prop :=
  training (MultiHeadAttention.dropout (TF_Encoder_Block.attention blk)) = false /\
  training (TF_Encoder_Block.ff_dropout (TF_Encoder_Block.ff_network blk)) = false /\
  training (TF_Encoder_Block.dropout blk) = false.

Definition eval_mode_encoder (enc : TF_Encoder.t) : Prop :=
  training (TF_Encoder.dropout enc) = false /\
  Forall eval_mode_block (TF_Encoder.encoder_layers enc).

Definition eval_mode (model : sentiment_classifier.t) : Prop :=
  eval_mode_encoder (sentiment_classifier.encoder model) /\
  training (sentiment_classifier.classifier_dropout1 model) = false /\
  training (sentiment_classifier.classifier_dropout2 model) = false.

(** The initial values of a classifier whose parameters are all zero. *)
Definition zero_classifier_params : sentiment_classifier.params :=
  sentiment_classifier.mkParams
    (fun _ _ => Fin 0) (fun _ => Fin 0) (fun _ _ => Fin 0) (fun _ => Fin 0).

(** The heads of a block's attention have at least one value dimension
    between them. *)
Definition heads_nonempty (blk : TF_Encoder_Block.t) : Prop :=
  1 <= MultiHeadAttention.d_V (TF_Encoder_Block.attention blk)
       * MultiHeadAttention.numhead (TF_Encoder_Block.attention blk).

(** What the constructor of a classifier establishes. *)
Definition built_classifier (model : sentiment_classifier.t) (vocab D n : nat) : Prop :=
  num_embeddings (TF_Encoder.src_embed (sentiment_classifier.encoder model)) = vocab /\
  embedding_dim (TF_Encoder.src_embed (sentiment_classifier.encoder model)) = D /\
  length (TF_Encoder.encoder_layers (sentiment_classifier.encoder model)) = n /\
  Forall (fun blk => built_block blk D)
         (TF_Encoder.encoder_layers (sentiment_classifier.encoder model)) /\
  in_features (sentiment_classifier.classifier_linear1 model) = D /\
  out_features (sentiment_classifier.classifier_linear1 model) = D /\
  in_features (sentiment_classifier.classifier_linear2 model) = D /\
  out_features (sentiment_classifier.classifier_linear2 model) = 1.

(** A batch of one review that is a single padding token, the padding
    token being 0. *)
Definition padding_only : itensor := mkI [1; 1] (fun _ => 0%Z).

(** Number of tokens of review [i] that are not the padding token. *)
Definition non_padding (SRC_PAD_IDX : Z) (x : itensor) (i S : nat) : nat :=
  length (filter (fun j => negb (ielem x [i; j] =? SRC_PAD_IDX)%Z) (seq 0 S)).

(** One review of two tokens with one padding token (0), after and before
    the real token. *)
Definition right_padded : itensor :=
  mkI [1; 2] (fun idx => match idx with [_; 0] => 5%Z | _ => 0%Z end).
Definition left_padded : itensor :=
  mkI [1; 2] (fun idx => match idx with [_; 1] => 5%Z | _ => 0%Z end).

(** Number of positions where the prediction is [u] and the label is [v]. *)
Definition tally (u v : Z) (y_pred y : list Z) : nat :=
  length (filter (fun p => (fst p =? u)%Z && (snd p =? v)%Z) (combine y_pred y)).

(** Number of positions where prediction and label agree. *)
Definition agreements (y_pred y : list Z) : nat :=
  length (filter (fun p => (fst p =? snd p)%Z) (combine y_pred y)).

(** A tensor of labels: every entry is 0 or 1. *)
Definition labels (l : list Z) : Prop := Forall (fun v => v = 0%Z \/ v = 1%Z) l.

(* ================================================================= *)
(** * Part III: properties *)
(* ================================================================= *)

(** ** Bookkeeping lemmas on the error monad *)

Lemma raises_bind_l {A B : Type} (m : result A) (k : A -> result B) (c : kind) :
  raises m c -> raises (bind m k) c.
Proof.
  intros [e [-> He]]. exists e. split; [reflexivity | exact He].
Qed.

(** ** The window view: geometry *)

Lemma positions_cons n shp w ws s st :
  positions (n :: shp) (w :: ws) (s :: st)
  = Z.to_nat ((Z.of_nat n - w) / s + 1) :: positions shp ws st.
Proof. reflexivity. Qed.

Lemma stepped_strides_cons s0 strd s st :
  stepped_strides (s0 :: strd) (s :: st) = s0 * Z.to_nat s :: stepped_strides strd st.
Proof. reflexivity. Qed.

Lemma valid_dims_length shp ws st :
  valid_dims shp ws st -> length ws = length shp /\ length st = length shp.
Proof.
  induction 1 as [|n w s shp ws st Hw Hs _ [IH1 IH2]]; simpl; auto.
Qed.

Lemma valid_dims_not_too_large shp ws st :
  valid_dims shp ws st ->
  existsb (fun d => d <? 0)%Z (zip_with Z.sub (map Z.of_nat shp) ws) = false.
Proof.
  induction 1 as [|n w s shp ws st Hw Hs _ IH]; simpl; [reflexivity|].
  unfold zip_with in IH. rewrite IH, orb_false_r. apply Z.ltb_ge. lia.
Qed.

Lemma valid_dims_not_too_small shp ws st :
  valid_dims shp ws st -> existsb (fun w => w - 1 <? 0)%Z ws = false.
Proof.
  induction 1 as [|n w s shp ws st Hw Hs _ IH]; simpl; [reflexivity|].
  rewrite IH, orb_false_r. apply Z.ltb_ge. lia.
Qed.

Lemma slice_steps_valid shp ws st strd :
  valid_dims shp ws st -> length strd = length shp ->
  exists shp', slice_steps shp strd st = Ok (shp', stepped_strides strd st).
Proof.
  intros H. revert strd.
  induction H as [|n w s shp ws st Hw Hs _ IH]; intros strd Hlen.
  - destruct strd; [|discriminate]. exists []. reflexivity.
  - destruct strd as [|s0 strd]; [discriminate|]. simpl in Hlen.
    destruct (IH strd) as [shp' E]; [lia|].
    simpl. replace (s <? 1)%Z with false by (symmetry; apply Z.ltb_ge; lia).
    rewrite E. simpl. eexists. reflexivity.
Qed.

Lemma slice_steps_bad_step shp strd st :
  length strd = length shp -> length st = length shp ->
  Exists (fun s => s < 1)%Z st ->
  raises (slice_steps shp strd st) KValue.
Proof.
  revert shp strd.
  induction st as [|s st IH]; intros shp strd H1 H2 Hex.
  - inversion Hex.
  - destruct shp as [|n shp]; [discriminate|].
    destruct strd as [|s0 strd]; [discriminate|].
    simpl. destruct (Z.ltb_spec s 1) as [Hlt|Hge].
    + eexists. split; reflexivity.
    + apply raises_bind_l. apply IH.
      * simpl in H1. lia.
      * simpl in H2. lia.
      * inversion Hex; subst; [lia | assumption].
Qed.

Lemma zip_with_cons {A B C : Type} (f : A -> B -> C) a b l l' :
  zip_with f (a :: l) (b :: l') = f a b :: zip_with f l l'.
Proof. reflexivity. Qed.

Lemma dot_app i j s s' :
  length i = length s -> dot (i ++ j) (s ++ s') = dot i s + dot j s'.
Proof.
  revert s. induction i as [|a i IH]; intros [|b s] H; try discriminate.
  - reflexivity.
  - simpl. rewrite IH by (simpl in H; lia). lia.
Qed.

Lemma in_bounds_app i j s s' :
  length i = length s ->
  in_bounds (i ++ j) (s ++ s') = in_bounds i s && in_bounds j s'.
Proof.
  revert s. induction i as [|a i IH]; intros [|b s] H; try discriminate.
  - reflexivity.
  - simpl. rewrite IH by (simpl in H; lia). now rewrite andb_assoc.
Qed.

Lemma in_bounds_length i s : in_bounds i s = true -> length i = length s.
Proof.
  revert s. induction i as [|a i IH]; intros [|b s] H; try discriminate.
  - reflexivity.
  - simpl in *. apply andb_prop in H. f_equal. apply IH, H.
Qed.

Lemma floor_positions (n : nat) (w s : Z) :
  (1 <= w <= Z.of_nat n)%Z -> (1 <= s)%Z ->
  Z.to_nat ((Z.of_nat n - w) / s + 1) = (n - Z.to_nat w) / Z.to_nat s + 1.
Proof.
  intros Hw Hs.
  rewrite Z2Nat.inj_add by (try apply Z.div_pos; lia).
  rewrite Z2Nat.inj_div by lia.
  rewrite Z2Nat.inj_sub by lia. rewrite Nat2Z.id. reflexivity.
Qed.

Lemma window_in_range (n a c : nat) (w s : Z) :
  (1 <= w <= Z.of_nat n)%Z -> (1 <= s)%Z ->
  a < Z.to_nat ((Z.of_nat n - w) / s + 1) -> c < Z.to_nat w ->
  a * Z.to_nat s + c < n.
Proof.
  intros Hw Hs Ha Hc. rewrite floor_positions in Ha by assumption.
  assert (Hs' : Z.to_nat s <> 0) by lia.
  pose proof (Nat.Div0.mul_div_le (n - Z.to_nat w) (Z.to_nat s)) as Hd.
  assert (a <= (n - Z.to_nat w) / Z.to_nat s) by lia.
  assert (a * Z.to_nat s <= (n - Z.to_nat w) / Z.to_nat s * Z.to_nat s)
    by (apply Nat.mul_le_mono_r; assumption).
  lia.
Qed.

Lemma window_in_bounds shp ws st i j :
  valid_dims shp ws st ->
  in_bounds i (positions shp ws st) = true ->
  in_bounds j (map Z.to_nat ws) = true ->
  in_bounds (window_index i j st) shp = true.
Proof.
  intros H. revert i j.
  induction H as [|n w s shp ws st Hw Hs _ IH]; intros i j Hi Hj.
  - destruct i, j; try discriminate. reflexivity.
  - destruct i as [|a i]; [discriminate|]. destruct j as [|c j]; [discriminate|].
    rewrite positions_cons in Hi. cbn [in_bounds map] in Hi, Hj.
    apply andb_prop in Hi as [Ha Hi]. apply andb_prop in Hj as [Hc Hj].
    apply Nat.ltb_lt in Ha, Hc.
    unfold window_index. rewrite !zip_with_cons. fold (window_index i j st).
    cbn [in_bounds]. apply andb_true_intro. split.
    + apply Nat.ltb_lt. eapply window_in_range; eassumption.
    + apply IH; assumption.
Qed.

Lemma window_offset strd st i j :
  length strd = length st -> length i = length st -> length j = length st ->
  dot i (stepped_strides strd st) + dot j strd = dot (window_index i j st) strd.
Proof.
  revert strd i j. induction st as [|s st IH]; intros strd i j H1 H2 H3.
  - destruct strd, i, j; try discriminate. reflexivity.
  - destruct strd as [|s0 strd]; [discriminate|].
    destruct i as [|a i]; [discriminate|]. destruct j as [|c j]; [discriminate|].
    simpl in H1, H2, H3. specialize (IH strd i j).
    unfold window_index, stepped_strides in *.
    rewrite !zip_with_cons. cbn [dot].
    rewrite <- IH by lia. nia.
Qed.

Lemma positions_length shp ws st :
  valid_dims shp ws st -> length (positions shp ws st) = length shp.
Proof.
  induction 1 as [|n w s shp ws st Hw Hs _ IH]; [reflexivity|].
  rewrite positions_cons. simpl. now rewrite IH.
Qed.

Lemma stepped_strides_length strd st :
  length strd = length st -> length (stepped_strides strd st) = length st.
Proof.
  revert st. induction strd as [|s0 strd IH]; intros [|s st] H; try discriminate.
  - reflexivity.
  - simpl. f_equal. apply IH. simpl in H. lia.
Qed.

(** The window view of a valid descriptor stays inside the region of the
    storage the input tensor itself reads. *)
Lemma window_max_offset shp ws st strd :
  valid_dims shp ws st -> length strd = length shp ->
  max_offset (positions shp ws st ++ map Z.to_nat ws) (stepped_strides strd st ++ strd)
  <= max_offset shp strd.
Proof.
  intros H Hlen. unfold max_offset. rewrite map_app.
  rewrite dot_app.
  2:{ rewrite length_map, positions_length by assumption.
      rewrite stepped_strides_length; destruct (valid_dims_length H); lia. }
  revert strd Hlen.
  induction H as [|n w s shp ws st Hw Hs _ IH]; intros strd Hlen.
  - destruct strd; [|discriminate]. simpl. lia.
  - destruct strd as [|s0 strd]; [discriminate|]. simpl in Hlen.
    specialize (IH strd ltac:(lia)).
    rewrite positions_cons, stepped_strides_cons. cbn [map dot].
    rewrite floor_positions by assumption.
    pose proof (Nat.Div0.mul_div_le (n - Z.to_nat w) (Z.to_nat s)) as Hd.
    replace (Nat.pred ((n - Z.to_nat w) / Z.to_nat s + 1))
      with ((n - Z.to_nat w) / Z.to_nat s) by lia.
    assert (Hk : (n - Z.to_nat w) / Z.to_nat s * (s0 * Z.to_nat s)
                 + Nat.pred (Z.to_nat w) * s0 <= Nat.pred n * s0) by nia.
    lia.
Qed.

Lemma valid_dims_no_empty shp ws st :
  valid_dims shp ws st -> existsb (Nat.eqb 0) shp = false.
Proof.
  induction 1 as [|n w s shp ws st Hw Hs _ IH]; [reflexivity|].
  cbn [existsb]. rewrite IH, orb_false_r. apply Nat.eqb_neq. lia.
Qed.

Lemma window_no_empty shp ws st :
  valid_dims shp ws st ->
  existsb (Nat.eqb 0) (positions shp ws st ++ map Z.to_nat ws) = false.
Proof.
  intros H. rewrite existsb_app. apply orb_false_intro.
  - induction H as [|n w s shp ws st Hw Hs _ IH]; [reflexivity|].
    rewrite positions_cons. cbn [existsb].
    rewrite IH, orb_false_r. apply Nat.eqb_neq.
    rewrite floor_positions by assumption. lia.
  - induction H as [|n w s shp ws st Hw Hs _ IH]; [reflexivity|].
    cbn [existsb map]. rewrite IH, orb_false_r. apply Nat.eqb_neq. lia.
Qed.

(** ** The window view: argument validation *)

Lemma existsb_false_not_Exists {A : Type} (p : A -> bool) (P : A -> Prop) l :
  (forall a, p a = true <-> P a) ->
  existsb p l = false <-> ~ Exists P l.
Proof.
  intros Hp. rewrite Exists_exists. split.
  - intros H [a [Hin Ha]].
    assert (existsb p l = true) by (apply existsb_exists; exists a; split; [|apply Hp]; assumption).
    congruence.
  - intros H. destruct (existsb p l) eqn:E; [|reflexivity].
    apply existsb_exists in E as [a [Hin Ha]]. exfalso. apply H. exists a.
    split; [|apply Hp]; assumption.
Qed.

Lemma too_large_check shp ws :
  existsb (fun d => d <? 0)%Z (zip_with Z.sub (map Z.of_nat shp) ws) = false <->
  ~ Exists (fun p => Z.of_nat (fst p) < snd p)%Z (combine shp ws).
Proof.
  revert ws. induction shp as [|n shp IH]; intros ws.
  - simpl. split; [intros _ H; inversion H | reflexivity].
  - destruct ws as [|w ws].
    + simpl. split; [intros _ H; inversion H | reflexivity].
    + rewrite map_cons, zip_with_cons. cbn [existsb combine].
      rewrite orb_false_iff, IH, Z.ltb_ge. split.
      * intros [H1 H2] H. inversion H; subst; simpl in *; [lia | auto].
      * intros H. split.
        -- destruct (Z_lt_le_dec (Z.of_nat n) w); [|lia].
           exfalso. apply H. left. simpl. lia.
        -- intros H'. apply H. right. assumption.
Qed.

Lemma too_small_check ws :
  existsb (fun w => w - 1 <? 0)%Z ws = false <-> ~ Exists (fun w => w < 1)%Z ws.
Proof.
  apply existsb_false_not_Exists. intros a. rewrite Z.ltb_lt. lia.
Qed.

Lemma valid_dims_of_checks shp ws st :
  length ws = length shp -> length st = length shp ->
  ~ Exists (fun p => Z.of_nat (fst p) < snd p)%Z (combine shp ws) ->
  ~ Exists (fun w => w < 1)%Z ws ->
  ~ Exists (fun s => s < 1)%Z st ->
  valid_dims shp ws st.
Proof.
  revert ws st. induction shp as [|n shp IH]; intros [|w ws] [|s st] H1 H2 H3 H4 H5;
    try discriminate; [constructor|].
  simpl in H1, H2, H3. constructor.
  - split.
    + destruct (Z_lt_le_dec w 1); [|lia]. exfalso. apply H4. left. assumption.
    + destruct (Z_lt_le_dec (Z.of_nat n) w); [|lia]. exfalso. apply H3. left. assumption.
  - destruct (Z_lt_le_dec s 1); [|lia]. exfalso. apply H5. left. assumption.
  - apply IH; try lia.
    + intros H. apply H3. right. assumption.
    + intros H. apply H4. right. assumption.
    + intros H. apply H5. right. assumption.
Qed.

Lemma valid_dims_checks shp ws st :
  valid_dims shp ws st ->
  ~ Exists (fun p => Z.of_nat (fst p) < snd p)%Z (combine shp ws) /\
  ~ Exists (fun w => w < 1)%Z ws /\
  ~ Exists (fun s => s < 1)%Z st.
Proof.
  induction 1 as [|n w s shp ws st Hw Hs _ [IH1 [IH2 IH3]]].
  - repeat split; intros H; inversion H.
  - repeat split; intros H; inversion H; subst; simpl in *; try lia; auto.
Qed.

Lemma window_positions_nonneg shp ws st :
  valid_dims shp ws st ->
  existsb (fun n => n <? 0)%Z
    (zip_with (fun d k => d / k + 1)%Z (zip_with Z.sub (map Z.of_nat shp) ws) st ++ ws)
  = false.
Proof.
  intros H. rewrite existsb_app. apply orb_false_intro.
  - induction H as [|n w s shp ws st Hw Hs _ IH]; [reflexivity|].
    rewrite map_cons, !zip_with_cons. cbn [existsb].
    rewrite IH, orb_false_r. apply Z.ltb_ge.
    assert (0 <= (Z.of_nat n - w) / s)%Z by (apply Z.div_pos; lia). lia.
  - induction H as [|n w s shp ws st Hw Hs _ IH]; [reflexivity|].
    cbn [existsb]. rewrite IH, orb_false_r. apply Z.ltb_ge. lia.
Qed.

Lemma of_nat_nonneg (l : list nat) :
  existsb (fun s => s <? 0)%Z (map Z.of_nat l) = false.
Proof.
  induction l as [|a l IH]; [reflexivity|].
  cbn [map existsb]. rewrite IH, orb_false_r. apply Z.ltb_ge. lia.
Qed.

Lemma to_nat_of_nat (l : list nat) : map Z.to_nat (map Z.of_nat l) = l.
Proof.
  induction l as [|a l IH]; [reflexivity|].
  cbn [map]. now rewrite Nat2Z.id, IH.
Qed.

(** On a valid descriptor the function returns the window view. *)
Lemma view_as_windows_valid t window_shape step :
  tensor_ok t ->
  valid_dims (shape t) (broadcast_arg window_shape (length (shape t)))
             (broadcast_arg step (length (shape t))) ->
  ~ step_invalid t step ->
  view_as_windows (Tensor t) window_shape step
  = Ok (window_view t (broadcast_arg window_shape (length (shape t)))
                      (broadcast_arg step (length (shape t)))).
Proof.
  intros [Hlen Hfit] Hv Hstep.
  destruct (valid_dims_length Hv) as [Hws Hst].
  unfold view_as_windows.
  change (match window_shape with Number w => repeat w (length (shape t)) | Tuple l => l end)
    with (broadcast_arg window_shape (length (shape t))).
  set (ws := broadcast_arg window_shape (length (shape t))) in *.
  rewrite Hws, Nat.eqb_refl. cbn [negb].
  assert (Es : match step with
               | Number s => if (s <? 1)%Z then Raise (ValueError "`step` must be >= 1")
                             else Ok (repeat s (length (shape t)))
               | Tuple l => Ok l
               end = Ok (broadcast_arg step (length (shape t)))).
  { destruct step as [s|l]; [|reflexivity]. simpl in Hstep |- *.
    destruct (Z.ltb_spec s 1); [lia | reflexivity]. }
  rewrite Es. cbn [bind].
  set (st := broadcast_arg step (length (shape t))) in *.
  rewrite Hst, Nat.eqb_refl. cbn [negb].
  rewrite (valid_dims_not_too_large Hv), (valid_dims_not_too_small Hv).
  unfold getitem_slices.
  destruct (slice_steps_valid (stride t) Hv Hlen) as [shp' E]. rewrite E. cbn [bind stride].
  unfold as_strided.
  rewrite !length_app, !length_map.
  assert (Hl1 : length (zip_with (fun d k => d / k + 1)%Z
                          (zip_with Z.sub (map Z.of_nat (shape t)) ws) st)
                = length (shape t)).
  { rewrite <- (positions_length Hv). unfold positions. now rewrite length_map. }
  rewrite Hl1, stepped_strides_length, Hws, Hst, Hlen by lia.
  rewrite Nat.eqb_refl. cbn [negb].
  rewrite (window_positions_nonneg Hv).
  rewrite <- map_app, of_nat_nonneg, to_nat_of_nat.
  rewrite map_app. fold (positions (shape t) ws st).
  unfold fits. rewrite (window_no_empty Hv). cbn [orb].
  unfold fits in Hfit. rewrite (valid_dims_no_empty Hv) in Hfit. cbn [orb] in Hfit.
  apply Nat.ltb_lt in Hfit.
  pose proof (window_max_offset (stride t) Hv Hlen) as Hmax.
  replace (offset t + _ <? length (storage t)) with true
    by (symmetry; apply Nat.ltb_lt; lia).
  reflexivity.
Qed.

(** Whatever the arguments, the function either raises [ValueError] or the
    descriptor is valid (and the view is returned). *)
Lemma view_as_windows_cases t window_shape step :
  tensor_ok t ->
  raises (view_as_windows (Tensor t) window_shape step) KValue \/
  (valid_dims (shape t) (broadcast_arg window_shape (length (shape t)))
              (broadcast_arg step (length (shape t)))
   /\ ~ step_invalid t step).
Proof.
  intros Hok. pose proof Hok as [Hlen Hfit].
  unfold view_as_windows.
  change (match window_shape with Number w => repeat w (length (shape t)) | Tuple l => l end)
    with (broadcast_arg window_shape (length (shape t))).
  set (ws := broadcast_arg window_shape (length (shape t))).
  destruct (length ws =? length (shape t)) eqn:Ews; cbn [negb];
    [apply Nat.eqb_eq in Ews | left; eexists; split; reflexivity].
  destruct step as [s|l]; cbn [bind broadcast_arg].
  - destruct (Z.ltb_spec s 1) as [Hs|Hs]; cbn [bind];
      [left; eexists; split; reflexivity|].
    rewrite repeat_length, Nat.eqb_refl. cbn [negb].
    set (st := repeat s (length (shape t))).
    destruct (existsb _ (zip_with Z.sub _ ws)) eqn:E1;
      [left; eexists; split; reflexivity|].
    destruct (existsb _ ws) eqn:E2; [left; eexists; split; reflexivity|].
    right. split; [|simpl; lia].
    apply valid_dims_of_checks; try assumption.
    + apply repeat_length.
    + now apply too_large_check.
    + now apply too_small_check.
    + intros H. apply Exists_exists in H as [x [Hin Hx]].
      apply repeat_spec in Hin. subst. lia.
  - destruct (length l =? length (shape t)) eqn:Est; cbn [negb];
      [apply Nat.eqb_eq in Est | left; eexists; split; reflexivity].
    destruct (existsb _ (zip_with Z.sub _ ws)) eqn:E1;
      [left; eexists; split; reflexivity|].
    destruct (existsb _ ws) eqn:E2; [left; eexists; split; reflexivity|].
    destruct (Exists_dec (fun s => s < 1)%Z l (fun s => Z_lt_dec s 1)) as [Hbad|Hgood].
    + left. apply raises_bind_l. unfold getitem_slices. apply raises_bind_l.
      apply slice_steps_bad_step; assumption.
    + right. split.
      * apply valid_dims_of_checks; try assumption.
        -- now apply too_large_check.
        -- now apply too_small_check.
      * simpl. intros [H|H]; [auto | lia].
Qed.

Lemma well_formed_valid t window_shape step :
  well_formed t window_shape step ->
  valid_dims (shape t) (broadcast_arg window_shape (length (shape t)))
             (broadcast_arg step (length (shape t)))
  /\ ~ step_invalid t step.
Proof.
  intros (Hrank & Hstep & Hlarge & Hsmall). split; [|assumption].
  unfold window_rank_mismatch in Hrank.
  apply valid_dims_of_checks; try assumption.
  - destruct (Nat.eq_dec (length (broadcast_arg window_shape (length (shape t))))
                         (length (shape t))); [assumption | contradiction].
  - destruct step as [s|l]; simpl in *.
    + apply repeat_length.
    + destruct (Nat.eq_dec (length l) (length (shape t))); [assumption|].
      exfalso. apply Hstep. right. assumption.
  - destruct step as [s|l]; simpl in *.
    + intros H. apply Exists_exists in H as [x [Hin Hx]].
      apply repeat_spec in Hin. subst. lia.
    + intros H. apply Hstep. left. assumption.
Qed.

Lemma valid_not_malformed t window_shape step :
  valid_dims (shape t) (broadcast_arg window_shape (length (shape t)))
             (broadcast_arg step (length (shape t))) ->
  ~ step_invalid t step ->
  well_formed t window_shape step.
Proof.
  intros Hv Hstep.
  destruct (valid_dims_length Hv) as [Hws Hst].
  destruct (valid_dims_checks Hv) as (H1 & H2 & H3).
  repeat split; try assumption.
  unfold window_rank_mismatch. lia.
Qed.

Lemma too_large_tests shp ws :
  existsb (fun d => d <? 0)%Z (zip_with Z.sub (map Z.of_nat shp) ws)
  = existsb (fun p => Z.of_nat (fst p) <? snd p)%Z (combine shp ws).
Proof.
  revert ws. induction shp as [|n shp IH]; intros [|w ws]; try reflexivity.
  cbn [map combine existsb fst snd]. rewrite zip_with_cons. cbn [existsb].
  rewrite IH. f_equal.
  destruct (Z.ltb_spec (Z.of_nat n - w) 0), (Z.ltb_spec (Z.of_nat n) w);
    try reflexivity; lia.
Qed.

Lemma too_small_tests ws :
  existsb (fun w => w - 1 <? 0)%Z ws = existsb (fun w => w <? 1)%Z ws.
Proof.
  induction ws as [|w ws IH]; [reflexivity|]. cbn [existsb]. rewrite IH. f_equal.
  destruct (Z.ltb_spec (w - 1) 0), (Z.ltb_spec w 1); try reflexivity; lia.
Qed.

Lemma slice_steps_refuses shp : forall strd st,
  length strd = length shp -> length st = length shp ->
  existsb (fun s => s <? 1)%Z st = true ->
  slice_steps shp strd st = Raise (ValueError "step must be greater than zero").
Proof.
  induction shp as [|n shp IH]; intros [|s0 strd] [|s st] Hs Hl Hbad;
    try discriminate.
  cbn [slice_steps]. cbn [existsb] in Hbad.
  destruct (s <? 1)%Z eqn:E; [reflexivity|].
  cbn [orb] in Hbad.
  rewrite (IH strd st) by (simpl in *; try lia; assumption). reflexivity.
Qed.

Lemma existsb_repeat (f : Z -> bool) s n :
  existsb f (repeat s n) = (0 <? n) && f s.
Proof.
  induction n as [|n IH]; [reflexivity|]. cbn [repeat existsb]. rewrite IH.
  destruct (f s), n; reflexivity.
Qed.

Lemma existsb_false_Exists {A : Type} (f : A -> bool) (P : A -> Prop) l :
  (forall a, f a = true <-> P a) -> existsb f l = false -> ~ Exists P l.
Proof.
  intros Hf E Hex. apply Exists_exists in Hex as (a & Hin & Ha).
  apply Hf in Ha. assert (existsb f l = true) by (apply existsb_exists; eauto).
  congruence.
Qed.

(** C2, as amended. A non-tensor is refused with TypeError; for a tensor the
    checks are made in this order, each failing with ValueError: the rank of
    the window, a step that is a number below 1, the rank of the step, a
    window that is too large, a window that is too small, and last a
    component below 1 of a step given as a tuple; when no check fails the
    call returns.  The inputs refused are those the specification lists,
    each with the documented exception class, and for a step that is a
    number the order is the one it states. *)
Theorem view_as_windows_validation_order (arr_in : pyobj) (window_shape step : pyarg) :
  (forall t, arr_in = Tensor t -> tensor_ok t) ->
  match amended_first_failure arr_in window_shape step with
  | Some c =>
      exists e, view_as_windows arr_in window_shape step = Raise e /\
                reported_check e = Some c /\ kind_of e = check_kind c
  | None => returns (view_as_windows arr_in window_shape step)
  end
  /\
  (amended_first_failure arr_in window_shape step = None <->
   stated_first_failure arr_in window_shape step = None)
  /\
  (forall s, step = Number s ->
     amended_first_failure arr_in window_shape step
     = stated_first_failure arr_in window_shape step)
  /\
  (forall t, arr_in = Tensor t ->
     (amended_first_failure arr_in window_shape step = None <->
      well_formed t window_shape step) /\
     (window_rank_mismatch t window_shape \/ step_invalid t step \/
      window_too_large t window_shape \/ window_too_small t window_shape ->
      raises (view_as_windows arr_in window_shape step) KValue)).
Proof.
  intros Hok.
  assert (Hfirst :
    match amended_first_failure arr_in window_shape step with
    | Some c =>
        exists e, view_as_windows arr_in window_shape step = Raise e /\
                  reported_check e = Some c /\ kind_of e = check_kind c
    | None => returns (view_as_windows arr_in window_shape step)
    end); [|split; [exact Hfirst|split; [|split]]].
  - destruct arr_in as [t|]; [|eexists; repeat split].
    specialize (Hok t eq_refl). pose proof Hok as [Hlen _].
    unfold amended_first_failure.
    destruct (window_rank_mismatchb t window_shape) eqn:Erank.
    { unfold window_rank_mismatchb in Erank. unfold view_as_windows.
      change (match window_shape with
              | Number w => repeat w (length (shape t)) | Tuple l => l end)
        with (broadcast_arg window_shape (length (shape t))).
      rewrite Erank. eexists. repeat split. }
    destruct (match step with Number s => (s <? 1)%Z | Tuple _ => false end
              || step_rank_mismatchb t step) eqn:Estep.
    { unfold window_rank_mismatchb in Erank. unfold view_as_windows.
      change (match window_shape with
              | Number w => repeat w (length (shape t)) | Tuple l => l end)
        with (broadcast_arg window_shape (length (shape t))).
      rewrite Erank. destruct step as [s|l]; cbn [step_rank_mismatchb] in Estep.
      - rewrite orb_false_r in Estep. rewrite Estep. eexists. repeat split.
      - cbn [orb] in Estep. cbn [bind]. rewrite Estep. eexists. repeat split. }
    apply orb_false_iff in Estep as [Enum Erk].
    assert (Hstl : length (broadcast_arg step (length (shape t))) = length (shape t)).
    { destruct step as [s|l]; cbn [broadcast_arg step_rank_mismatchb] in *.
      - apply repeat_length.
      - now apply negb_false_iff, Nat.eqb_eq in Erk. }
    assert (Hcode : view_as_windows (Tensor t) window_shape step
                    = let ws := broadcast_arg window_shape (length (shape t)) in
                      let st := broadcast_arg step (length (shape t)) in
                      if window_too_largeb t window_shape then
                        Raise (ValueError "`window_shape` is too large")
                      else if window_too_smallb t window_shape then
                        Raise (ValueError "`window_shape` is too small")
                      else
                        sliced <- getitem_slices t st ;;
                        as_strided t
                          (zip_with (fun d s => d / s + 1)%Z
                             (zip_with Z.sub (map Z.of_nat (shape t)) ws) st ++ ws)
                          (map Z.of_nat (stride sliced) ++ map Z.of_nat (stride t))).
    { unfold window_rank_mismatchb in Erank. unfold view_as_windows.
      change (match window_shape with
              | Number w => repeat w (length (shape t)) | Tuple l => l end)
        with (broadcast_arg window_shape (length (shape t))).
      rewrite Erank. unfold window_too_largeb, window_too_smallb.
      rewrite <- too_large_tests, <- too_small_tests.
      destruct step as [s|l]; cbn [broadcast_arg] in *.
      - rewrite Enum. cbn [bind]. rewrite Hstl, Nat.eqb_refl. reflexivity.
      - cbn [bind]. rewrite Hstl, Nat.eqb_refl. reflexivity. }
    destruct (window_too_largeb t window_shape) eqn:El.
    { rewrite Hcode. eexists. repeat split. }
    destruct (window_too_smallb t window_shape) eqn:Esm.
    { rewrite Hcode. eexists. repeat split. }
    assert (Hpos : step_not_positiveb step
                   = existsb (fun s => s <? 1)%Z (broadcast_arg step (length (shape t)))).
    { destruct step as [s|l]; cbn [step_not_positiveb broadcast_arg]; [|reflexivity].
      rewrite existsb_repeat. cbn in Enum. rewrite Enum. now rewrite andb_false_r. }
    destruct (step_not_positiveb step) eqn:Est.
    { rewrite Hcode. cbn zeta. unfold getitem_slices.
      rewrite (@slice_steps_refuses (shape t) (stride t) _ Hlen Hstl (eq_sym Hpos)).
      eexists. repeat split. }
    unfold window_rank_mismatchb in Erank.
    apply negb_false_iff, Nat.eqb_eq in Erank.
    unfold window_too_largeb in El. unfold window_too_smallb in Esm.
    rewrite <- too_large_tests in El. rewrite <- too_small_tests in Esm.
    assert (Hst : ~ Exists (fun s => s < 1)%Z (broadcast_arg step (length (shape t)))).
    { apply (@existsb_false_Exists _ (fun s => s <? 1)%Z);
        [intros a; apply Z.ltb_lt | now symmetry]. }
    rewrite (@view_as_windows_valid t window_shape step Hok).
    + now eexists.
    + apply valid_dims_of_checks; try assumption.
      * now apply too_large_check.
      * now apply too_small_check.
    + destruct step as [s|l]; cbn [step_invalid broadcast_arg] in *.
      * apply Z.ltb_ge in Enum. lia.
      * intros [Hbad|Hbad]; [now apply Hst | lia].
  - destruct arr_in as [t|]; [|split; discriminate].
    unfold amended_first_failure, stated_first_failure.
    destruct (window_rank_mismatchb t window_shape); [split; discriminate|].
    destruct step as [s|l]; cbn [step_rank_mismatchb step_not_positiveb].
    + destruct (s <? 1)%Z; cbn [orb]; [split; discriminate|].
      destruct (window_too_largeb t window_shape); [split; discriminate|].
      destruct (window_too_smallb t window_shape); split; auto.
    + cbn [orb].
      destruct (existsb (fun s => s <? 1)%Z l), (negb (length l =? length (shape t)));
        cbn [orb];
        destruct (window_too_largeb t window_shape), (window_too_smallb t window_shape);
        split; auto; discriminate.
  - intros s ->. destruct arr_in as [t|]; [|reflexivity].
    unfold amended_first_failure, stated_first_failure.
    cbn [step_rank_mismatchb step_not_positiveb].
    destruct (window_rank_mismatchb t window_shape); [reflexivity|].
    destruct (s <? 1)%Z; cbn [orb]; [reflexivity|].
    destruct (window_too_largeb t window_shape); [reflexivity|].
    destruct (window_too_smallb t window_shape); reflexivity.
  - intros t ->. specialize (Hok t eq_refl). split; [split|].
    + intros E. rewrite E in Hfirst. destruct Hfirst as (v & Hv).
      destruct (view_as_windows_cases window_shape step Hok) as [(e & He & _)|[Hd Hs]].
      * congruence.
      * now apply valid_not_malformed.
    + intros Hwf. destruct (well_formed_valid Hwf) as [Hv Hs].
      rewrite (@view_as_windows_valid t window_shape step Hok Hv Hs) in Hfirst.
      destruct (amended_first_failure (Tensor t) window_shape step);
        [destruct Hfirst as (e & He & _); discriminate | reflexivity].
    + intros Hbad.
      destruct (view_as_windows_cases window_shape step Hok) as [Hr|[Hd Hs]];
        [exact Hr|].
      destruct (@valid_not_malformed t window_shape step Hd Hs) as (H1 & H2 & H3 & H4).
      destruct Hbad as [Hbad|[Hbad|[Hbad|Hbad]]]; contradiction.
Qed.

Lemma view_as_windows_validation_order_witness :
  returns (view_as_windows (Tensor (arange 5)) (Number 3) (Number 1)) /\
  (exists e, view_as_windows (Tensor (arange 5)) (Number 3) (Tuple [0%Z]) = Raise e /\
             reported_check e = Some StepCheck /\ kind_of e = KValue) /\
  (exists e, view_as_windows (Tensor (arange 5)) (Number 6) (Number 0) = Raise e /\
             reported_check e = Some StepCheck /\ kind_of e = KValue).
Proof.
  assert (Hok : forall t, Tensor (arange 5) = Tensor t -> tensor_ok t).
  { intros t [= <-]. split; reflexivity. }
  split; [|split].
  - exact (proj1 (@view_as_windows_validation_order (Tensor (arange 5)) (Number 3)
                    (Number 1) Hok)).
  - exact (proj1 (@view_as_windows_validation_order (Tensor (arange 5)) (Number 3)
                    (Tuple [0%Z]) Hok)).
  - exact (proj1 (@view_as_windows_validation_order (Tensor (arange 5)) (Number 6)
                    (Number 0) Hok)).
Defined.

(** C2 as stated fails for a step given as a tuple: with a window larger
    than the tensor and a step component of 0, the order of the
    specification names the step, and the code reports the window. *)
Lemma view_as_windows_validation_counterexample :
  stated_first_failure (Tensor (arange 5)) (Number 6) (Tuple [0%Z]) = Some StepCheck /\
  exists e, view_as_windows (Tensor (arange 5)) (Number 6) (Tuple [0%Z]) = Raise e /\
            reported_check e = Some WindowTooLarge.
Proof.
  split; [reflexivity|]. eexists. split; reflexivity.
Qed.

(** ** The window view: contents *)

Lemma dot_le_max_offset idx shp strd :
  in_bounds idx shp = true -> dot idx strd <= max_offset shp strd.
Proof.
  unfold max_offset. revert shp strd.
  induction idx as [|i idx IH]; intros [|n shp] strd H; try discriminate.
  - simpl. lia.
  - cbn [in_bounds] in H. apply andb_prop in H as [Hi H]. apply Nat.ltb_lt in Hi.
    destruct strd as [|s strd]; [simpl; lia|].
    cbn [map dot]. specialize (IH shp strd H).
    assert (i * s <= Nat.pred n * s) by (apply Nat.mul_le_mono_r; lia). lia.
Qed.

Lemma in_bounds_not_empty idx shp :
  in_bounds idx shp = true -> existsb (Nat.eqb 0) shp = false.
Proof.
  revert shp. induction idx as [|i idx IH]; intros [|n shp] H; try discriminate.
  - reflexivity.
  - cbn [in_bounds] in H. apply andb_prop in H as [Hi H]. apply Nat.ltb_lt in Hi.
    cbn [existsb]. rewrite (IH _ H), orb_false_r. apply Nat.eqb_neq. lia.
Qed.

(** Inside the bounds of a well-formed tensor, [get] is the unchecked read. *)
Lemma get_rd t idx :
  tensor_ok t -> in_bounds idx (shape t) = true -> get t idx = Some (rd t idx).
Proof.
  intros [Hlen Hfit] Hin. unfold get, rd. rewrite Hin.
  apply nth_error_nth'. unfold fits in Hfit.
  rewrite (in_bounds_not_empty _ _ Hin) in Hfit. cbn [orb] in Hfit.
  apply Nat.ltb_lt in Hfit.
  pose proof (dot_le_max_offset idx (shape t) (stride t) Hin). lia.
Qed.

Lemma window_view_ok t ws st :
  tensor_ok t -> valid_dims (shape t) ws st -> tensor_ok (window_view t ws st).
Proof.
  intros [Hlen Hfit] Hv. destruct (valid_dims_length Hv) as [Hws Hst].
  split; cbn [window_view shape stride storage offset].
  - rewrite !length_app, length_map, positions_length, stepped_strides_length by (assumption || lia).
    lia.
  - unfold fits in *. rewrite (window_no_empty Hv). cbn [orb].
    rewrite (valid_dims_no_empty Hv) in Hfit. cbn [orb] in Hfit.
    apply Nat.ltb_lt in Hfit. apply Nat.ltb_lt.
    pose proof (window_max_offset (stride t) Hv Hlen). lia.
Qed.

(** Reading the window view at [(i, j)] reads the input at [i * step + j]. *)
Lemma rd_window_view t ws st i j :
  length (stride t) = length (shape t) ->
  valid_dims (shape t) ws st ->
  in_bounds i (positions (shape t) ws st) = true ->
  in_bounds j (map Z.to_nat ws) = true ->
  rd (window_view t ws st) (i ++ j) = rd t (window_index i j st).
Proof.
  intros Hlen Hv Hi Hj. destruct (valid_dims_length Hv) as [Hws Hst].
  apply in_bounds_length in Hi, Hj.
  rewrite positions_length in Hi by assumption. rewrite length_map in Hj.
  unfold rd. cbn [window_view shape stride storage offset].
  rewrite dot_app by (rewrite stepped_strides_length; lia).
  rewrite window_offset by lia. reflexivity.
Qed.

(** C4. For a valid window descriptor the result is a view on the input's
    storage of shape (positions ++ extents), with
    floor((extent - window) / step) + 1 positions per dimension, whose element
    at (i, j) is the input's element at i * step + j; on [0,1,2,3,4] with
    window 3 and step 1 the view is [[0,1,2],[1,2,3],[2,3,4]]. *)
Theorem view_as_windows_is_slicing :
  (forall t window_shape step,
     tensor_ok t -> well_formed t window_shape step ->
     let N := length (shape t) in
     let ws := broadcast_arg window_shape N in
     let st := broadcast_arg step N in
     exists v,
       view_as_windows (Tensor t) window_shape step = Ok v /\
       storage v = storage t /\
       shape v = positions (shape t) ws st ++ map Z.to_nat ws /\
       forall i j,
         in_bounds i (positions (shape t) ws st) = true ->
         in_bounds j (map Z.to_nat ws) = true ->
         exists x, get v (i ++ j) = Some x /\ get t (window_index i j st) = Some x)
  /\
  (exists v, view_as_windows (Tensor (arange 5)) (Number 3) (Number 1) = Ok v /\
             rows v = [[0; 1; 2]; [1; 2; 3]; [2; 3; 4]]%Z).
Proof.
  split.
  - intros t window_shape step Hok Hwf N ws st.
    destruct (well_formed_valid Hwf) as [Hv Hs]. fold N ws st in Hv.
    exists (window_view t ws st). split; [|split; [|split]].
    + apply view_as_windows_valid; assumption.
    + reflexivity.
    + reflexivity.
    + intros i j Hi Hj. exists (rd t (window_index i j st)). split.
      * rewrite <- (rd_window_view t i j (proj1 Hok) Hv Hi Hj).
        apply get_rd; [apply window_view_ok; assumption|].
        cbn [window_view shape]. rewrite in_bounds_app.
        -- now rewrite Hi, Hj.
        -- now apply in_bounds_length.
      * apply get_rd; [assumption|]. eapply window_in_bounds; eassumption.
  - eexists. split; reflexivity.
Qed.

Lemma view_as_windows_is_slicing_witness :
  exists v, view_as_windows (Tensor (arange 5)) (Number 2) (Number 2) = Ok v /\
            shape v = [2; 2] /\
            exists x, get v [1; 1] = Some x /\ get (arange 5) [3] = Some x.
Proof.
  assert (Hok : tensor_ok (arange 5)) by (split; reflexivity).
  assert (Hwf : well_formed (arange 5) (Number 2) (Number 2)).
  { repeat split.
    - intros H. apply H. reflexivity.
    - simpl. lia.
    - apply too_large_check. reflexivity.
    - apply too_small_check. reflexivity. }
  destruct (proj1 view_as_windows_is_slicing (arange 5) (Number 2) (Number 2) Hok Hwf)
    as (v & Hv & _ & Hshape & Hget).
  exists v. split; [exact Hv|]. split; [exact Hshape|].
  exact (Hget [1] [1] eq_refl eq_refl).
Defined.

(** ** Row-major enumeration and contiguous tensors *)

Lemma ravel_cons i idx n shp :
  ravel (i :: idx) (n :: shp) = i * numel shp + ravel idx shp.
Proof. reflexivity. Qed.

Lemma numel_cons n shp : numel (n :: shp) = n * numel shp.
Proof. reflexivity. Qed.

Lemma indices_cons n shp :
  indices (n :: shp) = flat_map (fun i => map (cons i) (indices shp)) (seq 0 n).
Proof. reflexivity. Qed.

Lemma flat_map_length_const {A : Type} (f : nat -> list A) m l :
  (forall i, length (f i) = m) -> length (flat_map f l) = length l * m.
Proof.
  intros Hf. induction l as [|a l IH]; [reflexivity|].
  cbn [flat_map length]. rewrite length_app, Hf, IH. lia.
Qed.

Lemma indices_length shp : length (indices shp) = numel shp.
Proof.
  induction shp as [|n shp IH]; [reflexivity|].
  rewrite indices_cons, numel_cons.
  rewrite flat_map_length_const with (m := numel shp).
  - now rewrite length_seq.
  - intros i. now rewrite length_map.
Qed.

Lemma nth_flat_map_blocks {A : Type} (f : nat -> list A) m n a i k d :
  (forall i, length (f i) = m) -> i < n -> k < m ->
  nth (i * m + k) (flat_map f (seq a n)) d = nth k (f (a + i)) d.
Proof.
  intros Hf. revert a i. induction n as [|n IH]; intros a i Hi Hk; [lia|].
  cbn [seq flat_map]. destruct i as [|i].
  - rewrite app_nth1 by (rewrite Hf; lia). now rewrite Nat.add_0_r.
  - rewrite app_nth2 by (rewrite Hf; lia). rewrite Hf.
    replace (S i * m + k - m) with (i * m + k) by lia.
    rewrite IH by lia. f_equal. f_equal. lia.
Qed.

Lemma ravel_lt idx shp : in_bounds idx shp = true -> ravel idx shp < numel shp.
Proof.
  revert shp. induction idx as [|i idx IH]; intros [|n shp] H; try discriminate.
  - cbv. lia.
  - cbn [in_bounds] in H. apply andb_prop in H as [Hi H]. apply Nat.ltb_lt in Hi.
    rewrite ravel_cons, numel_cons. specialize (IH shp H). nia.
Qed.

Lemma nth_indices idx shp d :
  in_bounds idx shp = true -> nth (ravel idx shp) (indices shp) d = idx.
Proof.
  revert shp. induction idx as [|i idx IH]; intros [|n shp] H; try discriminate.
  - reflexivity.
  - cbn [in_bounds] in H. apply andb_prop in H as [Hi H]. apply Nat.ltb_lt in Hi.
    rewrite ravel_cons, indices_cons.
    rewrite nth_flat_map_blocks with (m := numel shp).
    + cbn [Nat.add].
      rewrite nth_indep with (d' := i :: d)
        by (rewrite length_map, indices_length; now apply ravel_lt).
      rewrite map_nth. f_equal. now apply IH.
    + intros k. now rewrite length_map, indices_length.
    + assumption.
    + now apply ravel_lt.
Qed.

Lemma rd_from_list l shp idx : rd (from_list l shp) idx = nth (ravel idx shp) l 0%Z.
Proof. reflexivity. Qed.

(** A tensor built from a function of the index reads back that function. *)
Lemma rd_from_list_map (f : list nat -> Z) shp idx :
  in_bounds idx shp = true ->
  rd (from_list (map f (indices shp)) shp) idx = f idx.
Proof.
  intros H. rewrite rd_from_list.
  rewrite nth_indep with (d' := f [])
    by (rewrite length_map, indices_length; now apply ravel_lt).
  rewrite map_nth. f_equal. now apply nth_indices.
Qed.

(** Reading a reshaped tensor: the two indices have the same row-major rank. *)
Lemma rd_reshaped t shp' idx' idx :
  in_bounds idx (shape t) = true ->
  ravel idx' shp' = ravel idx (shape t) ->
  rd (from_list (to_list t) shp') idx' = rd t idx.
Proof.
  intros H E. rewrite rd_from_list, E. unfold to_list.
  rewrite nth_indep with (d' := rd t [])
    by (rewrite length_map, indices_length; now apply ravel_lt).
  rewrite map_nth. f_equal. now apply nth_indices.
Qed.

Lemma contiguous_strides_length shp : length (contiguous_strides shp) = length shp.
Proof. induction shp; simpl; congruence. Qed.

Lemma max_index_in_bounds shp :
  existsb (Nat.eqb 0) shp = false -> in_bounds (map Nat.pred shp) shp = true.
Proof.
  induction shp as [|n shp IH]; [reflexivity|].
  cbn [existsb map in_bounds]. intros H. apply orb_false_elim in H as [Hn H].
  apply Nat.eqb_neq in Hn. rewrite IH by assumption.
  replace (Nat.pred n <? n) with true by (symmetry; apply Nat.ltb_lt; lia).
  reflexivity.
Qed.

Lemma from_list_ok l shp : length l = numel shp -> tensor_ok (from_list l shp).
Proof.
  intros H. split; cbn [from_list shape stride storage offset].
  - apply contiguous_strides_length.
  - unfold fits. destruct (existsb (Nat.eqb 0) shp) eqn:E; [reflexivity|].
    cbn [orb]. apply Nat.ltb_lt. rewrite H.
    apply (ravel_lt _ _ (max_index_in_bounds _ E)).
Qed.

Lemma infer_size_of_nat shp n :
  numel shp = n -> infer_size (map Z.of_nat shp) n = Ok shp.
Proof.
  intros H. unfold infer_size.
  assert (E1 : existsb (fun d => d <? -1)%Z (map Z.of_nat shp) = false).
  { induction shp as [|a shp IH] in |- *; [reflexivity|].
    cbn [map existsb]. rewrite IH, orb_false_r. apply Z.ltb_ge. lia. }
  assert (E2 : count_occ Z.eq_dec (map Z.of_nat shp) (-1)%Z = 0).
  { apply count_occ_not_In. intros Hin. apply in_map_iff in Hin as [a [Ha _]]. lia. }
  rewrite E1, E2, to_nat_of_nat, H, Nat.eqb_refl. reflexivity.
Qed.

Lemma reshape_of_nat t shp :
  numel shp = numel (shape t) ->
  reshape t (map Z.of_nat shp) = Ok (from_list (to_list t) shp).
Proof.
  intros H. unfold reshape. now rewrite infer_size_of_nat.
Qed.

(** ** [squeeze] does not change the logical order of the elements *)

Lemma map_flat_map {A B C : Type} (g : B -> C) (f : A -> list B) l :
  map g (flat_map f l) = flat_map (fun a => map g (f a)) l.
Proof.
  induction l as [|a l IH]; [reflexivity|].
  cbn [flat_map]. now rewrite map_app, IH.
Qed.

Lemma flat_map_ext_in {A B : Type} (f g : A -> list B) l :
  (forall a, In a l -> f a = g a) -> flat_map f l = flat_map g l.
Proof.
  induction l as [|a l IH]; intros H; [reflexivity|].
  cbn [flat_map]. rewrite H by (left; reflexivity).
  rewrite IH; [reflexivity|]. intros b Hb. apply H. right. assumption.
Qed.

Lemma offsets_remove_at {A : Type} (g : nat -> A) d shp strd :
  length strd = length shp -> nth_error shp d = Some 1 ->
  map (fun idx => g (dot idx (remove_at d strd))) (indices (remove_at d shp))
  = map (fun idx => g (dot idx strd)) (indices shp).
Proof.
  revert g shp strd. induction d as [|d IH]; intros g [|n shp] [|s strd] Hlen Hd;
    try discriminate.
  - cbn [nth_error] in Hd. injection Hd as ->.
    cbn [remove_at]. rewrite indices_cons. cbn [seq flat_map].
    rewrite app_nil_r, map_map. apply map_ext. intros idx. cbn [dot]. f_equal.
  - cbn [nth_error] in Hd. cbn [remove_at]. rewrite !indices_cons, !map_flat_map.
    apply flat_map_ext_in. intros i _. rewrite !map_map. cbn [dot].
    apply (IH (fun o => g (i * s + o))); [simpl in Hlen; lia | assumption].
Qed.

Lemma numel_remove_at d shp :
  nth_error shp d = Some 1 -> numel (remove_at d shp) = numel shp.
Proof.
  revert shp. induction d as [|d IH]; intros [|n shp] Hd; try discriminate.
  - cbn [nth_error] in Hd. injection Hd as ->. cbn [remove_at]. rewrite numel_cons. lia.
  - cbn [nth_error] in Hd. cbn [remove_at]. rewrite !numel_cons, IH by assumption.
    reflexivity.
Qed.

Lemma remove_at_length {A : Type} d (l : list A) :
  d < length l -> S (length (remove_at d l)) = length l.
Proof.
  revert l. induction d as [|d IH]; intros [|a l] H; simpl in *; try lia.
  rewrite IH by lia. reflexivity.
Qed.

Lemma squeeze_spec t d :
  length (stride t) = length (shape t) -> d < length (shape t) ->
  exists t', squeeze t d = Ok t' /\
             to_list t' = to_list t /\
             numel (shape t') = numel (shape t) /\
             length (stride t') = length (shape t') /\
             length (shape t) <= S (length (shape t')).
Proof.
  intros Hlen Hd. unfold squeeze.
  destruct (nth_error (shape t) d) as [n|] eqn:E.
  2:{ apply nth_error_None in E. lia. }
  destruct (Nat.eqb_spec n 1) as [->|Hn].
  - eexists. split; [reflexivity|].
    cbn [shape stride]. repeat split.
    + unfold to_list, rd. cbn [shape stride storage offset].
      apply (offsets_remove_at (fun o => nth (offset t + o) (storage t) 0%Z));
        assumption.
    + now apply numel_remove_at.
    + pose proof (@remove_at_length _ d (shape t) Hd).
      pose proof (@remove_at_length _ d (stride t) ltac:(lia)). lia.
    + pose proof (@remove_at_length _ d (shape t) Hd). lia.
  - exists t. repeat split; auto.
Qed.

(** ** Sums over index ranges *)

Lemma sumZ_app l1 l2 : sumZ (l1 ++ l2) = (sumZ l1 + sumZ l2)%Z.
Proof.
  induction l1 as [|a l1 IH]; [reflexivity|].
  cbn [app sumZ fold_right] in *. fold (sumZ (l1 ++ l2)) (sumZ l1). rewrite IH. lia.
Qed.

Lemma seq_from a n : seq a n = map (Nat.add a) (seq 0 n).
Proof.
  revert a. induction n as [|n IH]; intros a; [reflexivity|].
  cbn [seq map]. rewrite Nat.add_0_r. f_equal.
  rewrite IH, (IH 1), map_map. apply map_ext. intros k. lia.
Qed.

Lemma sum_seq_ext (f g : nat -> Z) n :
  (forall k, k < n -> f k = g k) ->
  sumZ (map f (seq 0 n)) = sumZ (map g (seq 0 n)).
Proof.
  intros H. f_equal. apply map_ext_in. intros k Hk. apply in_seq in Hk. apply H. lia.
Qed.

(** A sum over [m * n] consecutive indices, as [m] sums of [n] terms. *)
Lemma sum_seq_mul (f : nat -> Z) m n :
  sumZ (map f (seq 0 (m * n)))
  = sumZ (map (fun a => sumZ (map (fun b => f (a * n + b)) (seq 0 n))) (seq 0 m)).
Proof.
  induction m as [|m IH]; [reflexivity|].
  replace (S m * n) with (m * n + n) by lia.
  rewrite seq_app, map_app, sumZ_app, IH.
  replace (S m) with (m + 1) by lia.
  rewrite (seq_app m 1), map_app, sumZ_app. f_equal.
  cbn [seq map sumZ fold_right Nat.add]. rewrite Z.add_0_r.
  rewrite (seq_from (m * n)), map_map. reflexivity.
Qed.

Lemma flat_index_lt a b n m : a < n -> b < m -> a * m + b < n * m.
Proof. intros. nia. Qed.

(** ** The remaining tensor operations *)

Lemma mm_spec a b n k m :
  shape a = [n; k] -> shape b = [k; m] ->
  exists c, mm a b = Ok c /\ shape c = [n; m] /\
    forall i j, i < n -> j < m ->
      rd c [i; j] = sumZ (map (fun l => rd a [i; l] * rd b [l; j])%Z (seq 0 k)).
Proof.
  intros Ha Hb. unfold mm. rewrite Ha, Hb, Nat.eqb_refl.
  eexists. split; [reflexivity|]. split; [reflexivity|].
  intros i j Hi Hj.
  rewrite rd_from_list_map; [reflexivity|].
  cbn [in_bounds]. apply Nat.ltb_lt in Hi, Hj. now rewrite Hi, Hj.
Qed.

Lemma broadcast_bias a b c d :
  broadcast_shapes [a; b; c; d] [1; b; 1; 1] = Ok [a; b; c; d].
Proof.
  unfold broadcast_shapes. cbn [rev app broadcast_rev bind].
  rewrite !Nat.eqb_refl.
  destruct (a =? 1); destruct (c =? 1); destruct (d =? 1); reflexivity.
Qed.

Lemma broadcast_index_self shp idx :
  in_bounds idx shp = true -> broadcast_index shp idx = idx.
Proof.
  intros H. unfold broadcast_index.
  rewrite (in_bounds_length _ _ H), Nat.sub_diag. cbn [skipn].
  revert shp H. induction idx as [|i idx IH]; intros [|n shp] H; try discriminate.
  - reflexivity.
  - cbn [in_bounds] in H. apply andb_prop in H as [Hi H]. apply Nat.ltb_lt in Hi.
    cbn [combine map]. rewrite IH by assumption.
    destruct (Nat.eqb_spec n 1); [f_equal; lia | reflexivity].
Qed.

Lemma broadcast_index_bias O n o h w :
  o < O -> broadcast_index [1; O; 1; 1] [n; o; h; w] = [0; o; 0; 0].
Proof.
  intros Ho. unfold broadcast_index. cbn [length Nat.sub skipn combine map Nat.eqb].
  destruct (Nat.eqb_spec O 1); [f_equal; f_equal; lia | reflexivity].
Qed.

Lemma max_last_spec t shp n :
  shape t = shp ++ [n] -> n <> 0 ->
  exists r, max_last t = Ok r /\ shape r = shp /\ tensor_ok r /\
    forall idx, in_bounds idx shp = true ->
      rd r idx = maxZ (map (fun k => rd t (idx ++ [k])) (seq 0 n)).
Proof.
  intros Hs Hn. unfold max_last. rewrite Hs, rev_app_distr. cbn [rev app].
  apply Nat.eqb_neq in Hn. rewrite Hn, rev_involutive.
  eexists. split; [reflexivity|]. split; [reflexivity|]. split.
  - apply from_list_ok. now rewrite length_map, indices_length.
  - intros idx Hidx. now rewrite rd_from_list_map.
Qed.

Lemma infer_size_rows a k :
  1 <= a -> infer_size [Z.of_nat a; -1]%Z (a * k) = Ok [a; k].
Proof.
  intros Ha. unfold infer_size. cbn [existsb].
  replace (Z.of_nat a <? -1)%Z with false by (symmetry; apply Z.ltb_ge; lia).
  cbn [orb Z.ltb Z.compare]. cbn [count_occ remove].
  destruct (Z.eq_dec (Z.of_nat a) (-1)) as [E|_]; [lia|].
  destruct (Z.eq_dec (-1) (Z.of_nat a)) as [E|_]; [lia|].
  destruct (Z.eq_dec (-1) (-1)) as [_|E]; [|congruence].
  cbn [map numel fold_right]. rewrite Nat2Z.id, Nat.mul_1_r.
  replace (a =? 0) with false by (symmetry; apply Nat.eqb_neq; lia).
  rewrite Nat.mul_comm, Nat.Div0.mod_mul. cbn [Nat.eqb negb orb].
  replace (Z.of_nat a =? -1)%Z with false by (symmetry; apply Z.eqb_neq; lia).
  cbn [Z.eqb]. rewrite Nat.div_mul by lia. reflexivity.
Qed.

(** The two [squeeze(2)] calls of the layers do not change what the reshape
    that follows them returns. *)
Lemma squeeze_squeeze_reshape_then {A : Type} t shp (k : tensor -> result A) :
  length (stride t) = length (shape t) -> 4 <= length (shape t) ->
  (x <- squeeze t 2 ;; x <- squeeze x 2 ;; y <- reshape x shp ;; k y)
  = (y <- reshape t shp ;; k y).
Proof.
  intros Hlen Hrank.
  destruct (@squeeze_spec t 2 Hlen ltac:(lia)) as (t1 & E1 & L1 & N1 & S1 & R1).
  destruct (@squeeze_spec t1 2 S1 ltac:(lia)) as (t2 & E2 & L2 & N2 & S2 & R2).
  rewrite E1. cbn [bind]. rewrite E2. cbn [bind].
  unfold reshape. now rewrite N2, N1, L2, L1.
Qed.

Lemma permute_0213 l a b c d :
  permute (from_list l [a; b; c; d]) [0; 2; 1; 3]
  = Ok (mkTensor l 0 [a; c; b; d] [b * (c * (d * 1)); d * 1; c * (d * 1); 1]).
Proof. reflexivity. Qed.

Lemma permute_0312 l a b c d :
  permute (from_list l [a; b; c; d]) [0; 3; 1; 2]
  = Ok (mkTensor l 0 [a; d; b; c] [b * (c * (d * 1)); 1; c * (d * 1); d * 1]).
Proof. reflexivity. Qed.

Lemma t_from_list l a b :
  t_ (from_list l [a; b]) = Ok (mkTensor l 0 [b; a] [1; b * 1]).
Proof. reflexivity. Qed.

Ltac solve_bounds :=
  cbn [in_bounds];
  repeat (apply andb_true_intro; split); try reflexivity;
  apply Nat.ltb_lt; try assumption; try lia.

(** ** The convolution layer *)

Section ConvForward.

Variable self : nn_convolutional_layer.layer tensor.
Variable x : tensor.
Variables B C H Wd O fh fw : nat.

Hypothesis Hx : shape x = [B; C; H; Wd].
Hypothesis Hxok : tensor_ok x.
Hypothesis HW : shape (nn_convolutional_layer.W self) = [O; C; fh; fw].
Hypothesis Hb : shape (nn_convolutional_layer.b self) = [1; O; 1; 1].
Hypothesis HB : 1 <= B.
Hypothesis HC : 1 <= C.
Hypothesis HO : 1 <= O.
Hypothesis Hfh : 1 <= fh <= H.
Hypothesis Hfw : 1 <= fw <= Wd.

Let oH := H - fh + 1.
Let oW := Wd - fw + 1.
Let ws : list Z := [1; 1; Z.of_nat fh; Z.of_nat fw]%Z.
Let st : list Z := [1; 1; 1; 1]%Z.

Lemma conv_windows_valid : valid_dims (shape x) ws st.
Proof. rewrite Hx. repeat constructor; lia. Qed.

Lemma conv_windows_shape :
  shape (window_view x ws st) = [B; C; oH; oW; 1; 1; fh; fw].
Proof.
  cbn [window_view shape]. rewrite Hx. unfold positions, zip_with, ws, st.
  cbn [map combine fst snd app].
  rewrite !Z.div_1_r, !Nat2Z.id. unfold oH, oW. repeat f_equal; lia.
Qed.

Lemma conv_windows :
  view_as_windows (Tensor x) (Tuple ws) (Number 1) = Ok (window_view x ws st).
Proof.
  rewrite view_as_windows_valid.
  - rewrite Hx. reflexivity.
  - assumption.
  - rewrite Hx. cbn [length broadcast_arg repeat]. rewrite <- Hx.
    apply conv_windows_valid.
  - simpl. lia.
Qed.

(** The unfolded patches: row [(n, h, v)], column [(c, i, j)]. *)
Lemma conv_patches n c h v i j :
  n < B -> c < C -> h < oH -> v < oW -> i < fh -> j < fw ->
  rd (from_list
        (to_list (mkTensor (to_list (window_view x ws st)) 0
                           [B; oH * oW; C; fh * fw]
                           [C * (oH * oW * (fh * fw * 1)); fh * fw * 1;
                            oH * oW * (fh * fw * 1); 1]))
        [B * (oH * oW); C * (fh * fw)])
     [n * (oH * oW) + (h * oW + v); c * (fh * fw) + (i * fw + j)]
  = rd x [n; c; h + i; v + j].
Proof.
  intros Hn Hc Hh Hv Hi Hj.
  assert (Hp : h * oW + v < oH * oW) by (apply flat_index_lt; assumption).
  assert (Hq : i * fw + j < fh * fw) by (apply flat_index_lt; assumption).
  rewrite rd_reshaped with (idx := [n; h * oW + v; c; i * fw + j]).
  2:{ cbn [shape]. solve_bounds. }
  2:{ unfold ravel. cbn [shape contiguous_strides numel fold_right dot]. ring. }
  transitivity (rd (from_list (to_list (window_view x ws st)) [B; C; oH * oW; fh * fw])
                   [n; c; h * oW + v; i * fw + j]).
  { unfold rd. cbn [from_list storage offset stride contiguous_strides numel fold_right dot].
    f_equal. ring. }
  rewrite rd_reshaped with (idx := [n; c; h; v; 0; 0; i; j]).
  2:{ rewrite conv_windows_shape. solve_bounds. }
  2:{ rewrite conv_windows_shape. unfold ravel.
      cbn [contiguous_strides numel fold_right dot]. ring. }
  change [n; c; h; v; 0; 0; i; j] with ([n; c; h; v] ++ [0; 0; i; j]).
  rewrite rd_window_view.
  - f_equal. unfold window_index, zip_with, st. cbn [combine map fst snd Z.to_nat Pos.to_nat Pos.iter_op Nat.add].
    repeat f_equal; lia.
  - apply Hxok.
  - apply conv_windows_valid.
  - rewrite Hx. unfold positions, zip_with, ws, st. cbn [map combine fst snd app].
    rewrite !Z.div_1_r. solve_bounds; unfold oH, oW in *; lia.
  - unfold ws. cbn [map]. rewrite !Nat2Z.id. solve_bounds.
Qed.

(** The flattened filters: row [o], column [(c, i, j)]. *)
Lemma conv_filters o c i j :
  o < O -> c < C -> i < fh -> j < fw ->
  rd (mkTensor (to_list (nn_convolutional_layer.W self)) 0
               [C * (fh * fw); O] [1; C * (fh * fw) * 1])
     [c * (fh * fw) + (i * fw + j); o]
  = rd (nn_convolutional_layer.W self) [o; c; i; j].
Proof.
  intros Ho Hc Hi Hj.
  transitivity (rd (from_list (to_list (nn_convolutional_layer.W self)) [O; C * (fh * fw)])
                   [o; c * (fh * fw) + (i * fw + j)]).
  { unfold rd. cbn [from_list storage offset stride contiguous_strides numel fold_right dot].
    f_equal. ring. }
  apply rd_reshaped.
  - rewrite HW. solve_bounds.
  - rewrite HW. unfold ravel. cbn [contiguous_strides numel fold_right dot]. ring.
Qed.

Lemma conv_out_height : Z.of_nat oH = (Z.of_nat H - Z.of_nat fh + 1)%Z.
Proof. unfold oH. lia. Qed.

Lemma conv_out_width : Z.of_nat oW = (Z.of_nat Wd - Z.of_nat fw + 1)%Z.
Proof. unfold oW. lia. Qed.

Lemma conv_zshape1 :
  [Z.of_nat B; Z.of_nat C;
   (Z.of_nat H - Z.of_nat fh + 1) * (Z.of_nat Wd - Z.of_nat fw + 1);
   Z.of_nat fh * Z.of_nat fw]%Z
  = map Z.of_nat [B; C; oH * oW; fh * fw].
Proof.
  cbn [map]. rewrite ?Nat2Z.inj_mul, conv_out_height, conv_out_width.
  repeat (f_equal; try ring).
Qed.

Lemma conv_zshape2 :
  [Z.of_nat B * (Z.of_nat H - Z.of_nat fh + 1) * (Z.of_nat Wd - Z.of_nat fw + 1);
   Z.of_nat C * Z.of_nat fh * Z.of_nat fw]%Z
  = map Z.of_nat [B * (oH * oW); C * (fh * fw)].
Proof.
  cbn [map]. rewrite ?Nat2Z.inj_mul, conv_out_height, conv_out_width.
  repeat (f_equal; try ring).
Qed.

Lemma conv_zshape3 :
  [Z.of_nat B; (Z.of_nat H - Z.of_nat fh + 1)%Z; (Z.of_nat Wd - Z.of_nat fw + 1)%Z;
   Z.of_nat O]
  = map Z.of_nat [B; oH; oW; O].
Proof.
  cbn [map]. rewrite ?Nat2Z.inj_mul, conv_out_height, conv_out_width.
  repeat (f_equal; try ring).
Qed.

(** C5. On an input of shape (B, C, H, W), with filters of shape
    (O, C, fh, fw) that fit in the input and a bias of shape (1, O, 1, 1), the
    layer's forward pass returns a tensor of shape
    (B, O, H - fh + 1, W - fw + 1) whose entries are those of the reference
    cross-correlation plus bias, exactly. *)
Theorem conv_forward_is_cross_correlation :
  exists out,
    nn_convolutional_layer.forward self x = Ok out /\
    shape out = [B; O; H - fh + 1; Wd - fw + 1] /\
    forall n o h v, n < B -> o < O -> h < H - fh + 1 -> v < Wd - fw + 1 ->
      get out [n; o; h; v]
      = Some (cross_correlation x (nn_convolutional_layer.W self)
                                (nn_convolutional_layer.b self) n o h v).
Proof.
  unfold nn_convolutional_layer.forward. rewrite Hx, HW. cbv beta iota zeta.
  fold ws. rewrite conv_windows. cbn [bind].
  rewrite squeeze_squeeze_reshape_then.
  2:{ apply window_view_ok; [assumption | apply conv_windows_valid]. }
  2:{ rewrite conv_windows_shape. simpl. lia. }
  rewrite conv_zshape1, reshape_of_nat.
  2:{ rewrite conv_windows_shape. cbn [numel fold_right]. lia. }
  cbn [bind]. rewrite permute_0213. cbn [bind].
  rewrite conv_zshape2, reshape_of_nat.
  2:{ cbn [shape numel fold_right]. lia. }
  cbn [bind].
  unfold reshape at 1. rewrite HW.
  replace (numel [O; C; fh; fw]) with (O * (C * (fh * fw)))
    by (cbn [numel fold_right]; lia).
  rewrite infer_size_rows by assumption. cbn [bind].
  rewrite t_from_list. cbn [bind].
  match goal with
  | |- context [mm ?a ?b] =>
      destruct (@mm_spec a b (B * (oH * oW)) (C * (fh * fw)) O eq_refl eq_refl)
        as (prod & Emm & Sprod & Hprod)
  end.
  rewrite Emm. cbn [bind].
  rewrite conv_zshape3, reshape_of_nat.
  2:{ rewrite Sprod. cbn [numel fold_right]. lia. }
  cbn [bind]. rewrite permute_0312. cbn [bind].
  unfold Torch.add. cbn [shape]. rewrite Hb, broadcast_bias. cbn [bind].
  eexists. split; [reflexivity|]. split; [reflexivity|].
  intros n o h v Hn Ho Hh Hv. fold oH in Hh. fold oW in Hv.
  assert (Hidx : in_bounds [n; o; h; v] [B; O; oH; oW] = true) by solve_bounds.
  rewrite get_rd.
  2:{ apply from_list_ok. now rewrite length_map, indices_length. }
  2:{ exact Hidx. }
  rewrite rd_from_list_map by exact Hidx.
  rewrite broadcast_index_self by exact Hidx.
  rewrite broadcast_index_bias by assumption.
  unfold cross_correlation. rewrite HW. f_equal. f_equal.
  assert (Hp : h * oW + v < oH * oW) by (apply flat_index_lt; assumption).
  transitivity (rd (from_list (to_list prod) [B; oH; oW; O]) [n; h; v; o]).
  { unfold rd. cbn [from_list storage offset stride contiguous_strides numel fold_right dot].
    f_equal. ring. }
  rewrite rd_reshaped with (idx := [n * (oH * oW) + (h * oW + v); o]).
  2:{ rewrite Sprod. solve_bounds. apply flat_index_lt; assumption. }
  2:{ rewrite Sprod. unfold ravel. cbn [contiguous_strides numel fold_right dot]. ring. }
  rewrite Hprod by (try apply flat_index_lt; assumption).
  rewrite sum_seq_mul. apply sum_seq_ext. intros c Hc.
  rewrite sum_seq_mul. apply sum_seq_ext. intros i Hi.
  apply sum_seq_ext. intros j Hj.
  rewrite conv_patches, conv_filters by assumption. reflexivity.
Qed.

End ConvForward.

Lemma conv_forward_is_cross_correlation_witness :
  exists out,
    nn_convolutional_layer.forward conv_example_layer conv_example_x = Ok out /\
    shape out = [1; 1; 3; 3] /\
    get out [0; 0; 1; 2] = Some 128%Z.
Proof.
  destruct (@conv_forward_is_cross_correlation conv_example_layer conv_example_x
              1 1 4 4 1 2 2 eq_refl (conj eq_refl eq_refl) eq_refl eq_refl
              ltac:(lia) ltac:(lia) ltac:(lia) ltac:(lia) ltac:(lia))
    as (out & E & S & G).
  exists out. split; [exact E|]. split; [exact S|].
  exact (G 0 0 1 2 ltac:(lia) ltac:(lia) ltac:(lia) ltac:(lia)).
Defined.

(** ** The max-pooling layer *)

Lemma map_seq_mul {A : Type} (f : nat -> A) m n :
  map f (seq 0 (m * n))
  = flat_map (fun a => map (fun b => f (a * n + b)) (seq 0 n)) (seq 0 m).
Proof.
  induction m as [|m IH]; [reflexivity|].
  replace (S m * n) with (m * n + n) by lia.
  rewrite seq_app, map_app, IH.
  replace (S m) with (m + 1) by lia.
  rewrite (seq_app m 1), flat_map_app. f_equal.
  cbn [seq flat_map Nat.add]. rewrite app_nil_r.
  rewrite (seq_from (m * n)), map_map. reflexivity.
Qed.

Section PoolForward.

Variable x : tensor.
Variables B C H Wd p s : nat.

Hypothesis Hx : shape x = [B; C; H; Wd].
Hypothesis Hxok : tensor_ok x.
Hypothesis HB : 1 <= B.
Hypothesis HC : 1 <= C.
Hypothesis Hp : 1 <= p.
Hypothesis HpH : p <= H.
Hypothesis HpW : p <= Wd.
Hypothesis Hs : 1 <= s.

Let self := nn_max_pooling_layer.mkLayer (Z.of_nat p) (Z.of_nat s).
Let oH := (H - p) / s + 1.
Let oW := (Wd - p) / s + 1.
Let ws : list Z := [1; 1; Z.of_nat p; Z.of_nat p]%Z.
Let st : list Z := [1; 1; Z.of_nat s; Z.of_nat s]%Z.

Lemma pool_windows_valid : valid_dims (shape x) ws st.
Proof. rewrite Hx. repeat constructor; lia. Qed.

Lemma pool_positions : positions [B; C; H; Wd] ws st = [B; C; oH; oW].
Proof.
  unfold ws, st. rewrite !positions_cons.
  rewrite !floor_positions by lia.
  change (positions [] [] []) with (@nil nat).
  rewrite !Nat2Z.id. change (Z.to_nat 1) with 1.
  rewrite !Nat.div_1_r. unfold oH, oW. repeat f_equal; lia.
Qed.

Lemma pool_windows_shape :
  shape (window_view x ws st) = [B; C; oH; oW; 1; 1; p; p].
Proof.
  cbn [window_view shape]. rewrite Hx, pool_positions.
  unfold ws. cbn [map app]. rewrite !Nat2Z.id. reflexivity.
Qed.

Lemma pool_windows :
  view_as_windows (Tensor x) (Tuple ws) (Tuple st) = Ok (window_view x ws st).
Proof.
  rewrite view_as_windows_valid.
  - reflexivity.
  - assumption.
  - apply pool_windows_valid.
  - simpl. rewrite Hx. intros [Hbad|Hbad]; [|simpl in Hbad; lia].
    unfold st in Hbad.
    repeat (apply Exists_cons in Hbad as [Hbad|Hbad]; [lia|]).
    inversion Hbad.
Qed.

Lemma pool_out_height : ((Z.of_nat H - Z.of_nat p) / Z.of_nat s + 1)%Z = Z.of_nat oH.
Proof.
  unfold oH. rewrite Nat2Z.inj_add, Nat2Z.inj_div, Nat2Z.inj_sub by lia. reflexivity.
Qed.

Lemma pool_out_width : ((Z.of_nat Wd - Z.of_nat p) / Z.of_nat s + 1)%Z = Z.of_nat oW.
Proof.
  unfold oW. rewrite Nat2Z.inj_add, Nat2Z.inj_div, Nat2Z.inj_sub by lia. reflexivity.
Qed.

Lemma pool_window_element n c h v i j :
  n < B -> c < C -> h < oH -> v < oW -> i < p -> j < p ->
  rd (from_list (to_list (window_view x ws st)) [B; C; oH; oW; p * p])
     ([n; c; h; v] ++ [i * p + j])
  = rd x [n; c; h * s + i; v * s + j].
Proof.
  intros Hn Hc Hh Hv Hi Hj.
  assert (Hq : i * p + j < p * p) by (apply flat_index_lt; assumption).
  rewrite rd_reshaped with (idx := [n; c; h; v; 0; 0; i; j]).
  2:{ rewrite pool_windows_shape. solve_bounds. }
  2:{ rewrite pool_windows_shape. unfold ravel.
      cbn [app contiguous_strides numel fold_right dot]. ring. }
  change [n; c; h; v; 0; 0; i; j] with ([n; c; h; v] ++ [0; 0; i; j]).
  rewrite rd_window_view.
  - f_equal. unfold window_index, zip_with, st.
    cbn [combine map fst snd]. rewrite !Nat2Z.id. change (Z.to_nat 1) with 1.
    repeat f_equal; lia.
  - apply Hxok.
  - apply pool_windows_valid.
  - rewrite Hx, pool_positions. solve_bounds.
  - unfold ws. cbn [map]. rewrite !Nat2Z.id. solve_bounds.
Qed.

Lemma pool_forward_is_max :
  exists out,
    nn_max_pooling_layer.forward self x = Ok out /\
    shape out = [B; C; (H - p) / s + 1; (Wd - p) / s + 1] /\
    forall n c h v, n < B -> c < C -> h < (H - p) / s + 1 -> v < (Wd - p) / s + 1 ->
      get out [n; c; h; v] = Some (max_pool_reference x p s n c h v).
Proof.
  unfold nn_max_pooling_layer.forward. rewrite Hx. cbv beta iota zeta.
  unfold self. cbn [nn_max_pooling_layer.pool_size nn_max_pooling_layer.stride].
  unfold nn_max_pooling_layer.floordiv.
  replace (Z.of_nat s =? 0)%Z with false by (symmetry; apply Z.eqb_neq; lia).
  cbn [bind]. fold ws st. rewrite pool_windows. cbn [bind].
  rewrite squeeze_squeeze_reshape_then.
  2:{ apply window_view_ok; [assumption | apply pool_windows_valid]. }
  2:{ rewrite pool_windows_shape. simpl. lia. }
  rewrite pool_out_height, pool_out_width, <- Nat2Z.inj_mul.
  change [Z.of_nat B; Z.of_nat C; Z.of_nat oH; Z.of_nat oW; Z.of_nat (p * p)]
    with (map Z.of_nat [B; C; oH; oW; p * p]).
  rewrite reshape_of_nat.
  2:{ rewrite pool_windows_shape. cbn [numel fold_right]. lia. }
  cbn [bind].
  match goal with
  | |- context [max_last ?t] =>
      destruct (@max_last_spec t [B; C; oH; oW] (p * p) eq_refl ltac:(nia))
        as (out & E & S & Hout & Hrd)
  end.
  exists out. split; [exact E|]. split; [exact S|].
  intros n c h v Hn Hc Hh Hv. fold oH in Hh. fold oW in Hv.
  assert (Hidx : in_bounds [n; c; h; v] [B; C; oH; oW] = true) by solve_bounds.
  rewrite get_rd; [|exact Hout|rewrite S; exact Hidx].
  rewrite Hrd by exact Hidx. unfold max_pool_reference. do 2 f_equal.
  rewrite map_seq_mul. apply flat_map_ext_in. intros i Hi. apply in_seq in Hi.
  apply map_ext_in. intros j Hj. apply in_seq in Hj.
  apply pool_window_element; lia.
Qed.

End PoolForward.

Lemma fold_max_ge l : forall a,
  (a <= fold_left Z.max l a)%Z /\ forall x, In x l -> (x <= fold_left Z.max l a)%Z.
Proof.
  induction l as [|y l IH]; intros a; cbn [fold_left].
  - split; [lia|]. intros x [].
  - destruct (IH (Z.max a y)) as [H1 H2]. split; [lia|].
    intros x [<-|Hin]; [lia|]. now apply H2.
Qed.

Lemma fold_max_in l : forall a,
  fold_left Z.max l a = a \/ In (fold_left Z.max l a) l.
Proof.
  induction l as [|y l IH]; intros a; cbn [fold_left]; [now left|].
  destruct (IH (Z.max a y)) as [E|Hin].
  - rewrite E. destruct (Z.max_spec a y) as [[_ ->]|[_ ->]]; [right; now left | now left].
  - right. now right.
Qed.

Lemma maxZ_upper l x : In x l -> (x <= maxZ l)%Z.
Proof.
  destruct l as [|a l]; [intros []|]. cbn [maxZ].
  destruct (fold_max_ge l a) as [H1 H2]. intros [<-|Hin]; [exact H1 | now apply H2].
Qed.

Lemma maxZ_in l : l <> [] -> In (maxZ l) l.
Proof.
  destruct l as [|a l]; [congruence|]. intros _. cbn [maxZ].
  destruct (fold_max_in l a) as [->|Hin]; [now left | now right].
Qed.

Lemma pool_window_in_range H p s h i :
  1 <= s -> p <= H -> h < (H - p) / s + 1 -> i < p -> h * s + i < H.
Proof.
  intros Hs Hp Hh Hi.
  assert (Hd : s * ((H - p) / s) <= H - p) by (apply Nat.Div0.mul_div_le).
  nia.
Qed.

Lemma pool_reference_is_maximum x B C H Wd p s n c h v :
  shape x = [B; C; H; Wd] -> tensor_ok x ->
  1 <= p -> p <= H -> p <= Wd -> 1 <= s ->
  n < B -> c < C -> h < (H - p) / s + 1 -> v < (Wd - p) / s + 1 ->
  (forall i j, i < p -> j < p ->
     exists e, get x [n; c; h * s + i; v * s + j] = Some e /\
               (e <= max_pool_reference x p s n c h v)%Z) /\
  (exists i j, i < p /\ j < p /\
     get x [n; c; h * s + i; v * s + j] = Some (max_pool_reference x p s n c h v)).
Proof.
  intros Hx Hok Hp HpH HpW Hs Hn Hc Hh Hv.
  assert (Hget : forall i j, i < p -> j < p ->
            get x [n; c; h * s + i; v * s + j]
            = Some (rd x [n; c; h * s + i; v * s + j])).
  { intros i j Hi Hj. apply get_rd; [exact Hok|]. rewrite Hx.
    pose proof (@pool_window_in_range H p s h i Hs HpH Hh Hi).
    pose proof (@pool_window_in_range Wd p s v j Hs HpW Hv Hj).
    solve_bounds. }
  split.
  - intros i j Hi Hj. eexists. split; [now apply Hget|].
    apply maxZ_upper. apply in_flat_map. exists i. split; [apply in_seq; lia|].
    apply in_map_iff. exists j. split; [reflexivity | apply in_seq; lia].
  - assert (Hne : flat_map (fun i => map (fun j => rd x [n; c; h * s + i; v * s + j])
                                         (seq 0 p)) (seq 0 p) <> []).
    { destruct p as [|p']; [lia|]. cbn. discriminate. }
    apply maxZ_in in Hne. fold (max_pool_reference x p s n c h v) in Hne.
    apply in_flat_map in Hne as (i & Hi & Hin).
    apply in_map_iff in Hin as (j & Hj & Hjn).
    apply in_seq in Hi. apply in_seq in Hjn.
    exists i, j. split; [lia|]. split; [lia|].
    rewrite Hget by lia. now f_equal.
Qed.

(** C6. With 1 <= pool_size <= H, W and stride >= 1, max pooling returns a
    tensor with (H - pool_size) // stride + 1 positions per spatial dimension,
    whether or not the stride divides the extent evenly.  Each entry is the
    maximum of the window it covers: no entry of the window is above it and
    it is one of them, wherever in the window the largest entry stands.
    Pooling [[1,2],[3,4]] with pool_size 2 and stride 2 gives [[4]], and so
    does pooling [[4,3],[2,1]]. *)
Theorem max_pool_forward_is_reference :
  (forall x B C H Wd p s,
     shape x = [B; C; H; Wd] -> tensor_ok x ->
     1 <= B -> 1 <= C -> 1 <= p -> p <= H -> p <= Wd -> 1 <= s ->
     exists out,
       nn_max_pooling_layer.forward
         (nn_max_pooling_layer.mkLayer (Z.of_nat p) (Z.of_nat s)) x = Ok out /\
       shape out = [B; C; (H - p) / s + 1; (Wd - p) / s + 1] /\
       forall n c h v,
         n < B -> c < C -> h < (H - p) / s + 1 -> v < (Wd - p) / s + 1 ->
         exists m,
           get out [n; c; h; v] = Some m /\
           m = max_pool_reference x p s n c h v /\
           (forall i j, i < p -> j < p ->
              exists e, get x [n; c; h * s + i; v * s + j] = Some e /\ (e <= m)%Z) /\
           (exists i j, i < p /\ j < p /\
              get x [n; c; h * s + i; v * s + j] = Some m))
  /\
  nn_max_pooling_layer.forward (nn_max_pooling_layer.mkLayer 2 2)
                               (from_list [1; 2; 3; 4]%Z [1; 1; 2; 2])
  = Ok (from_list [4]%Z [1; 1; 1; 1])
  /\
  nn_max_pooling_layer.forward (nn_max_pooling_layer.mkLayer 2 2)
                               (from_list [4; 3; 2; 1]%Z [1; 1; 2; 2])
  = Ok (from_list [4]%Z [1; 1; 1; 1]).
Proof.
  split; [|split; reflexivity].
  intros x B C H Wd p s Hx Hok HB HC Hp HpH HpW Hs.
  destruct (@pool_forward_is_max x B C H Wd p s Hx Hok HB HC Hp HpH HpW Hs)
    as (out & E & S & G).
  exists out. split; [exact E|]. split; [exact S|].
  intros n c h v Hn Hc Hh Hv.
  exists (max_pool_reference x p s n c h v).
  split; [now apply G|]. split; [reflexivity|].
  now apply (@pool_reference_is_maximum x B C H Wd p s n c h v).
Qed.

Lemma max_pool_forward_is_reference_witness :
  exists out,
    nn_max_pooling_layer.forward (nn_max_pooling_layer.mkLayer 2 2) pool_example_x
    = Ok out /\
    shape out = [1; 1; 1; 1] /\
    get out [0; 0; 0; 0] = Some 9%Z.
Proof.
  destruct (proj1 max_pool_forward_is_reference pool_example_x 1 1 2 2 2 2
              eq_refl (conj eq_refl eq_refl)
              ltac:(lia) ltac:(lia) ltac:(lia) ltac:(lia) ltac:(lia) ltac:(lia))
    as (out & E & S & G).
  exists out. split; [exact E|]. split; [exact S|].
  destruct (G 0 0 0 0 ltac:(lia) ltac:(lia) ltac:(simpl; lia) ltac:(simpl; lia))
    as (m & Hm & _ & Hub & (i & j & Hi & Hj & Hin)).
  rewrite Hm. f_equal.
  destruct (Hub 0 1 ltac:(lia) ltac:(lia)) as (e & He & Hle).
  cbn in He. injection He as <-.
  assert (Hi' : i = 0 \/ i = 1) by lia. assert (Hj' : j = 0 \/ j = 1) by lia.
  destruct Hi' as [-> | ->], Hj' as [-> | ->]; cbn in Hin; injection Hin as <-;
    first [reflexivity | lia].
Defined.

(** ** Parameters and caller-held tensors do not alias *)

Lemma poke_length h id sto : length (poke h id sto) = length h.
Proof.
  revert id. induction h as [|s h IH]; intros [|id]; simpl; auto.
Qed.

Lemma nth_poke_other h id id' sto :
  id' <> id -> nth id' (poke h id sto) [] = nth id' h [].
Proof.
  revert id id'. induction h as [|s h IH]; intros [|id] [|id'] Hne; simpl;
    try reflexivity; try congruence.
  apply IH. congruence.
Qed.

Lemma deref_poke_other h id sto r :
  sid r <> id -> deref (poke h id sto) r = deref h r.
Proof.
  intros Hne. unfold deref. now rewrite nth_poke_other.
Qed.

Lemma deref_extend h e r : valid_ref h r -> deref (h ++ e) r = deref h r.
Proof.
  intros Hv. unfold deref. now rewrite app_nth1.
Qed.

Lemma iadd_frame g a c h h' r :
  iadd g a c h = Ok h' -> sid r <> sid a ->
  length h' = length h /\ deref h' r = deref h r.
Proof.
  unfold iadd. intros E Hne.
  destruct (g && requires_grad a && is_leaf a); [discriminate|].
  destruct (broadcast_shapes (ref_shape a) (ref_shape c)) as [shp|e]; [|discriminate].
  cbn [bind] in E. destruct (shape_eqb shp (ref_shape a)); [|discriminate].
  injection E as <-. split; [apply poke_length | now apply deref_poke_other].
Qed.

Lemma update_weights_frame g self dW db h h' r :
  nn_convolutional_layer.update_weights g self dW db h = Ok h' ->
  sid r <> sid (nn_convolutional_layer.W self) ->
  sid r <> sid (nn_convolutional_layer.b self) ->
  deref h' r = deref h r.
Proof.
  unfold nn_convolutional_layer.update_weights. intros E HW Hb.
  destruct (iadd g (nn_convolutional_layer.W self) dW h) as [h1|e] eqn:E1;
    [|discriminate].
  cbn [bind] in E.
  destruct (@iadd_frame _ _ _ _ _ r E Hb) as [_ ->].
  now destruct (@iadd_frame _ _ _ _ _ r E1 HW) as [_ ->].
Qed.

Lemma clone_spec r h :
  valid_ref h r ->
  same_contents (deref (fst (clone r h)) (detach (snd (clone r h)))) (deref h r)
  /\ sid (detach (snd (clone r h))) = length h
  /\ fst (clone r h) = h ++ [to_list (deref h r)].
Proof.
  intros Hv. cbn [clone fst snd detach sid]. repeat split.
  intros idx Hidx. unfold deref, detach in *.
  cbn [shape ref_shape sid ref_offset ref_stride] in *.
  rewrite nth_middle.
  change (mkTensor (to_list (deref h r)) 0 (ref_shape r) (contiguous_strides (ref_shape r)))
    with (from_list (to_list (deref h r)) (ref_shape r)).
  now apply rd_reshaped.
Qed.

(** What [get_weights] and [set_weights] guarantee about two fresh copies
    [w] of [rw] and [c] of [rc], made in this order. *)
Lemma two_clones h rw rc :
  valid_ref h rw -> valid_ref h rc ->
  let h1 := fst (clone rw h) in
  let w := detach (snd (clone rw h)) in
  let h2 := fst (clone rc h1) in
  let c := detach (snd (clone rc h1)) in
  same_contents (deref h2 w) (deref h rw) /\
  same_contents (deref h2 c) (deref h rc) /\
  sid w = length h /\ sid c = S (length h) /\
  (forall r, valid_ref h r -> deref h2 r = deref h r).
Proof.
  intros Hw Hc h1 w h2 c.
  destruct (@clone_spec rw h Hw) as (Sw & Iw & Ew). fold h1 w in Sw, Iw, Ew.
  assert (Hc1 : valid_ref h1 rc).
  { unfold valid_ref in *. rewrite Ew, length_app. simpl. lia. }
  destruct (@clone_spec rc h1 Hc1) as (Sc & Ic & Ec). fold h2 c in Sc, Ic, Ec.
  assert (Hext : forall r, valid_ref h r -> deref h1 r = deref h r).
  { intros r Hr. rewrite Ew. now apply deref_extend. }
  assert (Hext2 : forall r, valid_ref h1 r -> deref h2 r = deref h1 r).
  { intros r Hr. rewrite Ec. now apply deref_extend. }
  split; [|split; [|split; [|split]]].
  - rewrite Hext2; [exact Sw|]. unfold valid_ref. rewrite Iw, Ew, length_app. simpl. lia.
  - rewrite <- (Hext rc Hc). exact Sc.
  - exact Iw.
  - rewrite Ic, Ew, length_app. simpl. lia.
  - intros r Hr. rewrite Hext2, Hext; auto.
    unfold valid_ref in *. rewrite Ew, length_app. simpl. lia.
Qed.

(** C9. [get_weights] returns, and [set_weights] stores, fresh detached
    copies: the copies have the contents of their sources and do not require
    grad, overwriting the caller's
    tensors in place leaves the layer's parameters as they were, and
    [update_weights] leaves the caller's tensors as they were. *)
Theorem weights_are_copies (self : nn_convolutional_layer.layer tref) (h : heap) :
  valid_ref h (nn_convolutional_layer.W self) ->
  valid_ref h (nn_convolutional_layer.b self) ->
  (forall h1 w c,
     nn_convolutional_layer.get_weights self h = (h1, (w, c)) ->
     same_contents (deref h1 w) (deref h (nn_convolutional_layer.W self)) /\
     same_contents (deref h1 c) (deref h (nn_convolutional_layer.b self)) /\
     requires_grad w = false /\ requires_grad c = false /\
     nn_convolutional_layer.state h1 self = nn_convolutional_layer.state h self /\
     (forall sto,
        nn_convolutional_layer.state (poke h1 (sid w) sto) self
        = nn_convolutional_layer.state h1 self) /\
     (forall sto,
        nn_convolutional_layer.state (poke h1 (sid c) sto) self
        = nn_convolutional_layer.state h1 self) /\
     (forall g dW db h2,
        nn_convolutional_layer.update_weights g self dW db h1 = Ok h2 ->
        deref h2 w = deref h1 w /\ deref h2 c = deref h1 c))
  /\
  (forall Wc bc h1 self',
     valid_ref h Wc -> valid_ref h bc ->
     nn_convolutional_layer.set_weights self Wc bc h = (h1, self') ->
     same_contents (deref h1 (nn_convolutional_layer.W self')) (deref h Wc) /\
     same_contents (deref h1 (nn_convolutional_layer.b self')) (deref h bc) /\
     requires_grad (nn_convolutional_layer.W self') = false /\
     requires_grad (nn_convolutional_layer.b self') = false /\
     (forall sto,
        nn_convolutional_layer.state (poke h1 (sid Wc) sto) self'
        = nn_convolutional_layer.state h1 self') /\
     (forall sto,
        nn_convolutional_layer.state (poke h1 (sid bc) sto) self'
        = nn_convolutional_layer.state h1 self') /\
     (forall g dW db h2,
        nn_convolutional_layer.update_weights g self' dW db h1 = Ok h2 ->
        deref h2 Wc = deref h1 Wc /\ deref h2 bc = deref h1 bc)).
Proof.
  intros HW Hb. unfold valid_ref in HW, Hb. split.
  - intros h1 w c E.
    destruct (@two_clones h (nn_convolutional_layer.W self) (nn_convolutional_layer.b self)
                HW Hb) as (Sw & Sc & Iw & Ic & Hext).
    unfold nn_convolutional_layer.get_weights in E. cbv zeta in Sw, Sc, Iw, Ic, Hext.
    destruct (clone (nn_convolutional_layer.W self) h) as [h' w'] eqn:E1.
    cbn [fst snd] in *.
    destruct (clone (nn_convolutional_layer.b self) h') as [h'' c'] eqn:E2.
    cbn [fst snd] in *. injection E as <- <- <-.
    split; [exact Sw|]. split; [exact Sc|].
    split; [reflexivity|]. split; [reflexivity|].
    split; [|split; [|split; [|split]]].
    + unfold nn_convolutional_layer.state. now rewrite !Hext.
    + intros sto. unfold nn_convolutional_layer.state.
      rewrite !deref_poke_other by lia. reflexivity.
    + intros sto. unfold nn_convolutional_layer.state.
      rewrite !deref_poke_other by lia. reflexivity.
    + eapply update_weights_frame; [eassumption | lia | lia].
    + eapply update_weights_frame; [eassumption | lia | lia].
  - intros Wc bc h1 self' HWc Hbc E.
    destruct (@two_clones h Wc bc HWc Hbc) as (Sw & Sc & Iw & Ic & Hext).
    unfold valid_ref in HWc, Hbc.
    unfold nn_convolutional_layer.set_weights in E. cbv zeta in Sw, Sc, Iw, Ic, Hext.
    destruct (clone Wc h) as [h' w'] eqn:E1. cbn [fst snd] in *.
    destruct (clone bc h') as [h'' c'] eqn:E2. cbn [fst snd] in *.
    injection E as <- <-. cbn [nn_convolutional_layer.W nn_convolutional_layer.b].
    split; [exact Sw|]. split; [exact Sc|].
    split; [reflexivity|]. split; [reflexivity|].
    split; [|split; [|split]].
    + intros sto. unfold nn_convolutional_layer.state.
      cbn [nn_convolutional_layer.W nn_convolutional_layer.b].
      rewrite !deref_poke_other by lia. reflexivity.
    + intros sto. unfold nn_convolutional_layer.state.
      cbn [nn_convolutional_layer.W nn_convolutional_layer.b].
      rewrite !deref_poke_other by lia. reflexivity.
    + eapply update_weights_frame; [eassumption | |];
        cbn [nn_convolutional_layer.W nn_convolutional_layer.b]; lia.
    + eapply update_weights_frame; [eassumption | |];
        cbn [nn_convolutional_layer.W nn_convolutional_layer.b]; lia.
Qed.

Lemma weights_are_copies_witness :
  nn_convolutional_layer.state
    (poke (fst (nn_convolutional_layer.get_weights example_instance example_heap))
          (sid (fst (snd (nn_convolutional_layer.get_weights example_instance
                                                             example_heap))))
          [0; 0; 0; 0]%Z)
    example_instance
  = nn_convolutional_layer.state
      (fst (nn_convolutional_layer.get_weights example_instance example_heap))
      example_instance.
Proof.
  assert (HW : valid_ref example_heap (nn_convolutional_layer.W example_instance))
    by (unfold valid_ref; simpl; lia).
  assert (Hb : valid_ref example_heap (nn_convolutional_layer.b example_instance))
    by (unfold valid_ref; simpl; lia).
  destruct (proj1 (@weights_are_copies example_instance example_heap HW Hb)
                  _ _ _ eq_refl) as (_ & _ & _ & _ & _ & Hpoke & _).
  exact (Hpoke [0; 0; 0; 0]%Z).
Defined.

(** ** Positional encoding *)

Lemma Rpower_10000 (y : R) : Rpower 10000 y = Rpower 10 (4 * y).
Proof.
  replace 10000%R with (Rpower 10 (INR 4)).
  - rewrite Rpower_mult. f_equal. simpl. lra.
  - rewrite Rpower_pow by lra. cbn [pow]. lra.
Qed.

Lemma mod2_even i : Nat.even i = true -> i mod 2 = 0.
Proof.
  intros H. apply Nat.even_spec in H as [m ->].
  rewrite Nat.mul_comm. apply Nat.Div0.mod_mul.
Qed.

Lemma mod2_odd i : Nat.even i = false -> i mod 2 = 1.
Proof.
  intros H. assert (Ho : Nat.odd i = true) by (unfold Nat.odd; now rewrite H).
  apply Nat.odd_spec in Ho as [m ->].
  rewrite Nat.add_comm, Nat.mul_comm, Nat.Div0.mod_add. reflexivity.
Qed.

(** A table with at least one row and one column is returned. *)
Lemma PosEncoding_ok (t_len d_model : nat) :
  1 <= t_len -> 1 <= d_model ->
  PosEncoding t_len d_model
  = Ok (mkR [t_len; d_model]
          (fun idx =>
             match idx with
             | [pos; i] => Fin (PosEncoding_value d_model pos i)
             | _ => NaN
             end)).
Proof.
  intros Ht Hd. unfold PosEncoding.
  replace (t_len =? 0) with false by (symmetry; apply Nat.eqb_neq; lia).
  replace (d_model =? 0) with false by (symmetry; apply Nat.eqb_neq; lia).
  reflexivity.
Qed.

(** C7. The table is returned, and inside it entry (pos, i) is
    sin(pos / 10000^(i/d_model)) for even i and cos(pos / 10000^((i-1)/d_model))
    for odd i, over the reals; the row of position 0 is 0 at even and 1 at odd
    indices. *)
Theorem PosEncoding_is_sinusoid (t_len d_model pos i : nat) :
  pos < t_len -> i < d_model ->
  exists pe,
    PosEncoding t_len d_model = Ok pe /\
    rshape pe = [t_len; d_model] /\
    elem pe [pos; i] = Fin (sinusoid d_model pos i) /\
    elem pe [0; i] = Fin (if Nat.even i then 0 else 1).
Proof.
  intros Hpos Hi. rewrite PosEncoding_ok by lia.
  eexists. split; [reflexivity|]. split; [reflexivity|].
  assert (H : forall q, PosEncoding_value d_model q i = sinusoid d_model q i).
  { intros q. unfold PosEncoding_value, sinusoid. rewrite !Rpower_10000.
    destruct (Nat.even i) eqn:E.
    - rewrite (mod2_even i E). simpl INR.
      replace (4 * (INR i / INR d_model))%R with (4 * INR i / INR d_model)%R
        by (unfold Rdiv; ring).
      ring.
    - rewrite (mod2_odd i E). simpl INR.
      replace (4 * ((INR i - 1) / INR d_model))%R with (4 * (INR i - 1) / INR d_model)%R
        by (unfold Rdiv; ring).
      ring. }
  split.
  - cbn [elem]. now rewrite H.
  - cbn [elem]. rewrite H. unfold sinusoid. simpl INR.
    unfold Rdiv. rewrite !Rmult_0_l.
    destruct (Nat.even i); [now rewrite sin_0 | now rewrite cos_0].
Qed.

Lemma PosEncoding_is_sinusoid_witness :
  exists pe,
    PosEncoding 2 4 = Ok pe /\
    elem pe [1; 3] = Fin (sinusoid 4 1 3) /\
    elem pe [0; 3] = Fin 1.
Proof.
  destruct (@PosEncoding_is_sinusoid 2 4 1 3 ltac:(lia) ltac:(lia))
    as (pe & E & _ & H1 & H2).
  exists pe. split; [exact E|]. split; [exact H1 | exact H2].
Defined.

(** ** Softmax rows *)

Lemma fold_xadd_nan l : fold_left xadd l NaN = NaN.
Proof. induction l as [|a l IH]; [reflexivity|]. simpl. exact IH. Qed.

Lemma xadd_nan_r a : xadd a NaN = NaN.
Proof. destruct a; reflexivity. Qed.

Lemma xmul_nan_l a : xmul NaN a = NaN.
Proof. reflexivity. Qed.

Lemma xmul_nan_r a : xmul a NaN = NaN.
Proof. destruct a; reflexivity. Qed.

(** A sum with a NaN term is NaN. *)
Lemma xsum_nan l : In NaN l -> xsum l = NaN.
Proof.
  unfold xsum. generalize (Fin 0). induction l as [|a l IH]; intros acc H.
  - contradiction.
  - destruct H as [->|H]; simpl.
    + rewrite xadd_nan_r. apply fold_xadd_nan.
    + now apply IH.
Qed.

Lemma fold_xmax_neginf l :
  Forall (fun v => v = NegInf) l -> fold_left xmax l NegInf = NegInf.
Proof.
  induction 1 as [|a l -> _ IH]; [reflexivity|]. simpl. exact IH.
Qed.

(** The softmax of a row of negative infinities: nothing but NaN. *)
Lemma softmax_row_all_masked row k :
  Forall (fun v => v = NegInf) row -> k < length row ->
  nth k (softmax_row row) NaN = NaN.
Proof.
  intros Hall Hk. destruct row as [|x row]; [simpl in Hk; lia|].
  unfold softmax_row.
  assert (Hx : x = NegInf) by now inversion Hall.
  assert (Hrow : Forall (fun v => v = NegInf) row) by now inversion Hall.
  subst x. rewrite (@fold_xmax_neginf row Hrow).
  set (e := map (fun v => xexp (xsub v NegInf)) (NegInf :: row)).
  assert (He : xsum e = NaN) by (apply xsum_nan; left; reflexivity).
  rewrite He.
  assert (Hn : forall v, xdiv v NaN = NaN) by (intros []; reflexivity).
  rewrite (map_ext _ (fun _ => NaN) Hn).
  destruct (nth_in_or_default k (map (fun _ : xfloat => NaN) e) NaN) as [Hin | ->];
    [|reflexivity].
  apply in_map_iff in Hin as [v [Hv _]]. congruence.
Qed.

Lemma fold_xmax_finite l r :
  Forall finite_or_masked l -> finite (fold_left xmax l (Fin r)).
Proof.
  revert r. induction l as [|a l IH]; intros r H.
  - now exists r.
  - inversion H as [|? ? Ha Hl]; subst. simpl.
    destruct Ha as [->|[s ->]]; simpl; now apply IH.
Qed.

Lemma fold_xmax_row l acc :
  Forall finite_or_masked l -> finite_or_masked acc ->
  (finite acc \/ Exists finite l) ->
  finite (fold_left xmax l acc).
Proof.
  revert acc. induction l as [|a l IH]; intros acc Hl Hacc Hex.
  - destruct Hex as [H|H]; [exact H | inversion H].
  - inversion Hl as [|? ? Ha Hl']; subst. simpl.
    destruct Hacc as [->|[r ->]].
    + destruct Ha as [->|[s ->]]; simpl.
      * apply IH; [assumption | now left |].
        destruct Hex as [[r Hr]|Hex]; [discriminate|].
        inversion Hex as [? ? [s Hs]|]; subst; [discriminate | now right].
      * now apply fold_xmax_finite.
    + destruct Ha as [->|[s ->]]; simpl; now apply fold_xmax_finite.
Qed.

(** The shifted exponentials of such a row, and their sum. *)
Lemma fold_xadd_nonneg l a :
  (0 <= a)%R ->
  Forall (fun v => exists r, v = Fin r /\ (0 <= r)%R) l ->
  exists s, fold_left xadd l (Fin a) = Fin s /\ (a <= s)%R /\
            (Exists (fun v => exists r, v = Fin r /\ (0 < r)%R) l -> (0 < s)%R).
Proof.
  revert a. induction l as [|v l IH]; intros a Ha Hl.
  - exists a. repeat split; [lra | intros H; inversion H].
  - inversion Hl as [|? ? [r [-> Hr]] Hl']; subst. simpl.
    destruct (IH (a + r)%R ltac:(lra) Hl') as (s & Es & Hs & Hpos).
    exists s. repeat split; [exact Es | lra |].
    intros Hex. inversion Hex as [? ? [r' [Hr' Hp]]|? ? Hex']; subst.
    + injection Hr' as <-. lra.
    + now apply Hpos.
Qed.

Lemma sign_pos r : (0 < r)%R -> sign r = Gt.
Proof.
  intros H. unfold sign. destruct (total_order_T r 0) as [[Hlt|Heq]|Hgt];
    [lra | lra | reflexivity].
Qed.

(** In the softmax of a row that has a finite entry, the entries that were
    negative infinity get the weight zero. *)
Lemma softmax_row_masked row k :
  Forall finite_or_masked row -> Exists finite row ->
  nth k row NaN = NegInf ->
  nth k (softmax_row row) NaN = Fin 0.
Proof.
  intros Hall Hex Hk. destruct row as [|x row]; [inversion Hex|].
  unfold softmax_row.
  assert (Hm : finite (fold_left xmax row x)).
  { inversion Hall; subst. apply fold_xmax_row; try assumption.
    inversion Hex; subst; [now left | now right]. }
  destruct Hm as [m Hm]. rewrite Hm.
  set (f := fun v => xexp (xsub v (Fin m))).
  assert (Hf : forall v, finite_or_masked v ->
                 exists r, f v = Fin r /\ (0 <= r)%R /\ (finite v -> (0 < r)%R)).
  { intros v [->|[r ->]].
    - exists 0%R. repeat split; [lra|]. intros [s Hs]. discriminate.
    - exists (exp (r + - m)). repeat split.
      + left. apply exp_pos.
      + intros _. apply exp_pos. }
  assert (He : Forall (fun v => exists r, v = Fin r /\ (0 <= r)%R) (map f (x :: row))).
  { apply Forall_map. eapply Forall_impl; [|exact Hall].
    intros v Hv. destruct (Hf v Hv) as (r & E & H0 & _). now exists r. }
  assert (Hp : Exists (fun v => exists r, v = Fin r /\ (0 < r)%R) (map f (x :: row))).
  { apply Exists_exists in Hex as [v [Hin Hv]].
    apply Exists_exists. exists (f v). split; [now apply in_map|].
    assert (Hv' : finite_or_masked v) by now right.
    destruct (Hf v Hv') as (r & E & _ & Hr). exists r. split; [exact E | now apply Hr]. }
  destruct (@fold_xadd_nonneg _ 0%R (Rle_refl 0) He) as (s & Es & _ & Hs).
  unfold xsum. rewrite Es. specialize (Hs Hp).
  assert (Hlt : k < length (x :: row)).
  { destruct (Nat.lt_ge_cases k (length (x :: row))) as [H|H]; [exact H|].
    rewrite nth_overflow in Hk by exact H. discriminate. }
  rewrite nth_indep with (d' := xdiv (f NaN) (Fin s)) by (now rewrite !length_map).
  rewrite (map_nth (fun v => xdiv v (Fin s))).
  rewrite (map_nth f). rewrite Hk.
  unfold f. cbn [xsub xopp xadd xexp xdiv]. rewrite (@sign_pos s Hs).
  f_equal. unfold Rdiv. ring.
Qed.

(** ** Shapes and elements of the tensor operations of [hw7.py] *)

Lemma broadcast_rev_same l : broadcast_rev l l = Ok l.
Proof.
  induction l as [|a l IH]; [reflexivity|].
  cbn [broadcast_rev]. rewrite IH. cbn [bind]. now rewrite Nat.eqb_refl.
Qed.

Lemma broadcast_shapes_same s : broadcast_shapes s s = Ok s.
Proof.
  unfold broadcast_shapes. rewrite broadcast_rev_same. cbn [bind].
  now rewrite rev_involutive.
Qed.

Lemma Linear_forward_spec (L : Linear) (x : rtensor) B S :
  rshape x = [B; S; in_features L] ->
  exists r, Linear_forward L x = Ok r /\
            rshape r = [B; S; out_features L] /\
            forall b s o,
              elem r [b; s; o]
              = xadd (xsum (map (fun j => xmul (elem x [b; s; j]) (weight L o j))
                                (seq 0 (in_features L))))
                     (bias L o).
Proof.
  intros Hx. unfold Linear_forward. rewrite Hx. cbn [rev app].
  rewrite Nat.eqb_refl. eexists. split; [reflexivity|]. split; reflexivity.
Qed.

Lemma view_spec (x : rtensor) (shp : list nat) :
  numel shp = numel (rshape x) ->
  exists r, view x (map Z.of_nat shp) = Ok r /\
            rshape r = shp /\
            forall idx, elem r idx = elem x (unravel (ravel idx shp) (rshape x)).
Proof.
  intros H. unfold view. rewrite infer_size_of_nat by exact H. cbn [bind].
  eexists. split; [reflexivity|]. split; reflexivity.
Qed.

Lemma infer_size_merge B S n :
  1 <= B -> 1 <= S ->
  infer_size [Z.of_nat B; Z.of_nat S; -1]%Z (B * (S * n)) = Ok [B; S; n].
Proof.
  intros HB HS. unfold infer_size. cbn [existsb].
  replace (Z.of_nat B <? -1)%Z with false by (symmetry; apply Z.ltb_ge; lia).
  replace (Z.of_nat S <? -1)%Z with false by (symmetry; apply Z.ltb_ge; lia).
  cbn [orb Z.ltb Z.compare]. cbn [count_occ remove].
  destruct (Z.eq_dec (Z.of_nat B) (-1)) as [E|_]; [lia|].
  destruct (Z.eq_dec (Z.of_nat S) (-1)) as [E|_]; [lia|].
  destruct (Z.eq_dec (-1) (Z.of_nat B)) as [E|_]; [lia|].
  destruct (Z.eq_dec (-1) (Z.of_nat S)) as [E|_]; [lia|].
  destruct (Z.eq_dec (-1) (-1)) as [_|E]; [|congruence].
  cbn [map numel fold_right]. rewrite !Nat2Z.id, Nat.mul_1_r.
  replace (B * S =? 0) with false by (symmetry; apply Nat.eqb_neq; nia).
  replace (B * (S * n)) with (n * (B * S)) by ring.
  rewrite Nat.Div0.mod_mul. cbn [Nat.eqb negb orb].
  replace (Z.of_nat B =? -1)%Z with false by (symmetry; apply Z.eqb_neq; lia).
  replace (Z.of_nat S =? -1)%Z with false by (symmetry; apply Z.eqb_neq; lia).
  cbn [Z.eqb]. rewrite Nat.div_mul by nia. reflexivity.
Qed.

Lemma transpose_1_2 (x : rtensor) a b c d :
  rshape x = [a; b; c; d] ->
  exists r, transpose x 1 2 = Ok r /\
            rshape r = [a; c; b; d] /\
            forall i j k l, elem r [i; j; k; l] = elem x [i; k; j; l].
Proof.
  intros Hx. unfold transpose. rewrite Hx.
  eexists. split; [reflexivity|]. split; reflexivity.
Qed.

Lemma transpose_last_two (x : rtensor) a b c d :
  rshape x = [a; b; c; d] ->
  exists r, transpose x (-2) (-1) = Ok r /\
            rshape r = [a; b; d; c] /\
            forall i j k l, elem r [i; j; k; l] = elem x [i; j; l; k].
Proof.
  intros Hx. unfold transpose. rewrite Hx.
  eexists. split; [reflexivity|]. split; reflexivity.
Qed.

Lemma broadcast_index_2 B H b h :
  b < B -> h < H -> broadcast_index [B; H] [b; h] = [b; h].
Proof.
  intros Hb Hh. apply broadcast_index_self. cbn [in_bounds].
  apply Nat.ltb_lt in Hb, Hh. now rewrite Hb, Hh.
Qed.

Lemma matmul_spec4 (a c : rtensor) B H n k m :
  rshape a = [B; H; n; k] -> rshape c = [B; H; k; m] ->
  exists r, matmul a c = Ok r /\
            rshape r = [B; H; n; m] /\
            forall b h i j, b < B -> h < H ->
              elem r [b; h; i; j]
              = xsum (map (fun l => xmul (elem a [b; h; i; l]) (elem c [b; h; l; j]))
                          (seq 0 k)).
Proof.
  intros Ha Hc. unfold matmul, matmul2. rewrite Ha, Hc. cbn [rev app].
  rewrite Nat.eqb_refl, broadcast_shapes_same. cbn [bind].
  eexists. split; [reflexivity|]. split; [reflexivity|].
  intros b h i j Hb Hh. cbn [elem length Nat.sub firstn nth].
  rewrite broadcast_index_2 by assumption. reflexivity.
Qed.

Lemma rshape_softmax x : rshape (softmax x) = rshape x.
Proof. unfold softmax. destruct (rshape x) eqn:E; reflexivity. Qed.

Lemma elem_softmax4 x B H S K b h q k :
  rshape x = [B; H; S; K] ->
  elem (softmax x) [b; h; q; k]
  = nth k (softmax_row (map (fun j => elem x [b; h; q; j]) (seq 0 K))) NaN.
Proof.
  intros Hx. unfold softmax, row_of. rewrite Hx. reflexivity.
Qed.

Lemma rshape_dropout d keep x : rshape (Dropout_forward d keep x) = rshape x.
Proof.
  unfold Dropout_forward. destruct (training d); [|reflexivity].
  destruct (Req_EM_T (p d) 0); [reflexivity|].
  destruct (Req_EM_T (p d) 1); reflexivity.
Qed.

Lemma dropout_nan d keep x idx :
  elem x idx = NaN -> elem (Dropout_forward d keep x) idx = NaN.
Proof.
  intros H. unfold Dropout_forward. destruct (training d); [|exact H].
  destruct (Req_EM_T (p d) 0); [exact H|].
  destruct (Req_EM_T (p d) 1); cbn [map_elems elem]; rewrite H;
    [reflexivity | destruct (keep idx); reflexivity].
Qed.

Lemma add_same (a c : rtensor) s :
  rshape a = s -> rshape c = s ->
  exists r, add a c = Ok r /\ rshape r = s.
Proof.
  intros Ha Hc. unfold add. rewrite Ha, Hc, broadcast_shapes_same. cbn [bind].
  eexists. split; reflexivity.
Qed.

Lemma LayerNorm_forward_shape (L : LayerNorm) x B S :
  rshape x = [B; S; normalized_shape L] ->
  exists r, LayerNorm_forward L x = Ok r /\ rshape r = [B; S; normalized_shape L].
Proof.
  intros Hx. unfold LayerNorm_forward. rewrite Hx. cbn [rev app].
  rewrite Nat.eqb_refl. eexists. split; reflexivity.
Qed.

(** The mask the loop over the lengths builds. *)
Lemma mask_loop_spec lens : forall mask i B H Q K rest,
  mshape mask = B :: H :: Q :: K :: rest ->
  i + length lens <= B ->
  exists mask',
    MultiHeadAttention.mask_loop mask i lens = Ok mask' /\
    mshape mask' = mshape mask /\
    forall b h q k tl,
      mval mask' (b :: h :: q :: k :: tl)
      = ((i <=? b) && (b <? i + length lens)
         && (slice_start (nth (b - i) lens 0%Z) K <=? k))
        || mval mask (b :: h :: q :: k :: tl).
Proof.
  induction lens as [|len lens IH]; intros mask i B H Q K rest Hm Hi.
  - exists mask. split; [reflexivity|]. split; [reflexivity|].
    intros b h q k tl. cbn [length]. rewrite Nat.add_0_r.
    destruct (Nat.leb_spec i b), (Nat.ltb_spec b i); try lia; reflexivity.
  - cbn [MultiHeadAttention.mask_loop]. unfold mask_setitem. rewrite Hm.
    cbn [length] in Hi.
    replace (i <? B) with true by (symmetry; apply Nat.ltb_lt; lia).
    cbn [bind].
    match goal with
    | |- context [MultiHeadAttention.mask_loop ?m _ _] =>
        destruct (IH m (S i) B H Q K rest eq_refl ltac:(lia)) as (m' & E & Hs & Hv)
    end.
    exists m'. split; [exact E|]. split; [exact Hs|].
    intros b h q k tl. rewrite Hv. cbn [mval length].
    destruct (Nat.eqb_spec b i) as [->|Hne].
    + rewrite Nat.sub_diag. cbn [nth].
      replace (S i <=? i) with false by (symmetry; apply Nat.leb_gt; lia).
      rewrite Nat.leb_refl.
      replace (i <? i + S (length lens)) with true by (symmetry; apply Nat.ltb_lt; lia).
      reflexivity.
    + cbn [andb orb].
      destruct (Nat.leb_spec (S i) b) as [Hle|Hgt].
      * replace (i <=? b) with true by (symmetry; apply Nat.leb_le; lia).
        replace (b - i) with (S (b - S i)) by lia. cbn [nth].
        replace (i + S (length lens)) with (S i + length lens) by lia. reflexivity.
      * replace (i <=? b) with false by (symmetry; apply Nat.leb_gt; lia).
        reflexivity.
Qed.

(** ** Multi-head attention *)

Lemma divmod_block a b n : b < n -> (a * n + b) / n = a /\ (a * n + b) mod n = b.
Proof.
  intros H. split.
  - rewrite Nat.div_add_l by lia. rewrite Nat.div_small by exact H. lia.
  - rewrite Nat.add_comm, Nat.Div0.mod_add. now apply Nat.mod_small.
Qed.

(** Where the merged head dimension comes from. *)
Lemma unravel_merge B S H d i q j :
  q < S -> j < H * d ->
  unravel (ravel [i; q; j] [B; S; H * d]) [B; S; H; d] = [i; q; j / d; j mod d].
Proof.
  intros Hq Hj. unfold ravel.
  cbn [contiguous_strides numel fold_right dot unravel].
  rewrite !Nat.mul_1_r, Nat.add_0_r, Nat.div_1_r.
  assert (Hr : q * (H * d) + j < S * (H * d)) by (apply flat_index_lt; assumption).
  destruct (@divmod_block i (q * (H * d) + j) (S * (H * d)) Hr) as [E1 E2].
  rewrite E1, E2.
  destruct (@divmod_block q j (H * d) Hj) as [E3 E4].
  rewrite E3, E4. reflexivity.
Qed.

Section AttentionForward.

Variable self : MultiHeadAttention.t.
Variable keep : list nat -> bool.
Variables B S D : nat.

Let h := MultiHeadAttention.numhead self.
Let dq := MultiHeadAttention.d_Q self.
Let dk := MultiHeadAttention.d_K self.
Let dv := MultiHeadAttention.d_V self.

Hypothesis HWQ : in_features (MultiHeadAttention.W_Q self) = D
                 /\ out_features (MultiHeadAttention.W_Q self) = dq * h.
Hypothesis HWK : in_features (MultiHeadAttention.W_K self) = D
                 /\ out_features (MultiHeadAttention.W_K self) = dk * h.
Hypothesis HWV : in_features (MultiHeadAttention.W_V self) = D
                 /\ out_features (MultiHeadAttention.W_V self) = dv * h.
Hypothesis HWO : in_features (MultiHeadAttention.W_O self) = dv * h
                 /\ out_features (MultiHeadAttention.W_O self) = D.
Hypothesis Hqk : dq = dk.
Hypothesis HB : 1 <= B.
Hypothesis HS : 1 <= S.

(** One projection, split into heads. *)
Lemma project_heads (L : Linear) (x : rtensor) (d : nat) :
  in_features L = D -> out_features L = d * h -> rshape x = [B; S; D] ->
  exists P,
    (y <- Linear_forward L x ;;
     y <- view y [Z.of_nat B; Z.of_nat S; Z.of_nat h; Z.of_nat d] ;;
     transpose y 1 2) = Ok P /\
    rshape P = [B; h; S; d].
Proof.
  intros Hin Hout Hx.
  destruct (@Linear_forward_spec L x B S ltac:(rewrite Hin; exact Hx)) as (y & E & Sy & _).
  rewrite E. cbn [bind].
  change [Z.of_nat B; Z.of_nat S; Z.of_nat h; Z.of_nat d]
    with (map Z.of_nat [B; S; h; d]).
  destruct (@view_spec y [B; S; h; d]) as (y2 & E2 & Sy2 & _).
  { rewrite Sy, Hout. cbn [numel fold_right]. ring. }
  rewrite E2. cbn [bind].
  destruct (@transpose_1_2 y2 B S h d Sy2) as (P & E3 & SP & _).
  exists P. split; assumption.
Qed.

Variables x_Q x_K x_V : rtensor.
Hypothesis HxQ : rshape x_Q = [B; S; D].
Hypothesis HxK : rshape x_K = [B; S; D].
Hypothesis HxV : rshape x_V = [B; S; D].

Lemma scores_and_values_spec :
  exists scores V,
    MultiHeadAttention.scores_and_values self x_Q x_K x_V
    = Ok (scores, V, Z.of_nat B, Z.of_nat S) /\
    rshape scores = [B; h; S; S] /\
    rshape V = [B; h; S; dv].
Proof.
  unfold MultiHeadAttention.scores_and_values, unpack3. rewrite HxQ. cbn [bind].
  fold h dq dk dv.
  destruct (@project_heads (MultiHeadAttention.W_Q self) x_Q dq
              (proj1 HWQ) (proj2 HWQ) HxQ) as (Q & EQ & SQ).
  destruct (@project_heads (MultiHeadAttention.W_K self) x_K dk
              (proj1 HWK) (proj2 HWK) HxK) as (K & EK & SK).
  destruct (@project_heads (MultiHeadAttention.W_V self) x_V dv
              (proj1 HWV) (proj2 HWV) HxV) as (V & EV & SV).
  destruct (Linear_forward (MultiHeadAttention.W_Q self) x_Q) as [q1|]; [|discriminate].
  cbn [bind] in EQ |- *.
  destruct (view q1 _) as [q2|]; [|discriminate]. cbn [bind] in EQ |- *.
  rewrite EQ. cbn [bind].
  destruct (Linear_forward (MultiHeadAttention.W_K self) x_K) as [k1|]; [|discriminate].
  cbn [bind] in EK |- *.
  destruct (view k1 _) as [k2|]; [|discriminate]. cbn [bind] in EK |- *.
  rewrite EK. cbn [bind].
  destruct (Linear_forward (MultiHeadAttention.W_V self) x_V) as [v1|]; [|discriminate].
  cbn [bind] in EV |- *.
  destruct (view v1 _) as [v2|]; [|discriminate]. cbn [bind] in EV |- *.
  rewrite EV. cbn [bind].
  destruct (@transpose_last_two K B h S dk SK) as (Kt & EKt & SKt & _).
  rewrite EKt. cbn [bind].
  rewrite Hqk in SQ.
  destruct (@matmul_spec4 Q Kt B h S dk S SQ SKt) as (sc & Esc & Ssc & _).
  rewrite Esc. cbn [bind].
  eexists. exists V. split; [reflexivity|]. split; [exact Ssc | exact SV].
Qed.

Lemma attend_spec (scores V : rtensor) (lens : option (list Z)) :
  rshape scores = [B; h; S; S] -> rshape V = [B; h; S; dv] ->
  match lens with Some l => length l <= B | None => True end ->
  exists attention out,
    MultiHeadAttention.attend self keep scores V (Z.of_nat B) (Z.of_nat S) lens
    = Ok (attention, out) /\
    rshape attention = [B; h; S; S] /\
    rshape out = [B; S; D] /\
    (forall b hh q k,
       elem attention [b; hh; q; k]
       = nth k (softmax_row (map (masked_score S scores lens b hh q) (seq 0 S))) NaN) /\
    (forall i, i < B -> 1 <= dv * h ->
       (forall hh q k, hh < h -> k < S -> elem attention [i; hh; q; k] = NaN) ->
       forall q m, q < S -> elem out [i; q; m] = NaN).
Proof.
  intros Hsc HV Hlens. unfold MultiHeadAttention.attend.
  assert (Hm : exists masked,
             match lens with
             | None => Ok scores
             | Some lens =>
                 mask <- MultiHeadAttention.mask_loop (zeros_like_bool scores) 0 lens ;;
                 Ok (masked_fill scores mask NegInf)
             end = Ok masked /\
             rshape masked = [B; h; S; S] /\
             forall b hh q j,
               elem masked [b; hh; q; j] = masked_score S scores lens b hh q j).
  { destruct lens as [l|].
    - destruct (@mask_loop_spec l (zeros_like_bool scores) 0 B h S S []
                  ltac:(cbn [zeros_like_bool mshape]; exact Hsc) ltac:(simpl; lia))
        as (mask & E & _ & Hv).
      rewrite E. cbn [bind]. eexists. split; [reflexivity|]. split; [exact Hsc|].
      intros b hh q j. cbn [masked_fill elem masked_score]. rewrite Hv.
      cbn [zeros_like_bool mval Nat.leb Nat.add andb]. rewrite orb_false_r, Nat.sub_0_r.
      reflexivity.
    - exists scores. split; [reflexivity|]. split; [exact Hsc|]. reflexivity. }
  destruct Hm as (masked & Em & Sm & Hmasked). rewrite Em. cbn [bind].
  set (attention := softmax masked).
  assert (Sa : rshape attention = [B; h; S; S]) by (unfold attention; now rewrite rshape_softmax).
  set (dropped := Dropout_forward (MultiHeadAttention.dropout self) keep attention).
  assert (Sd : rshape dropped = [B; h; S; S]) by (unfold dropped; now rewrite rshape_dropout).
  destruct (@matmul_spec4 dropped V B h S S dv Sd HV) as (o1 & E1 & S1 & H1).
  rewrite E1. cbn [bind].
  destruct (@transpose_1_2 o1 B h S dv S1) as (o2 & E2 & S2 & H2).
  rewrite E2. cbn [bind]. unfold contiguous, view. rewrite S2.
  replace (numel [B; S; h; dv]) with (B * (S * (h * dv)))
    by (cbn [numel fold_right]; ring).
  rewrite infer_size_merge by assumption. cbn [bind].
  match goal with
  | |- context [Linear_forward _ ?y] =>
      destruct (@Linear_forward_spec (MultiHeadAttention.W_O self) y B S) as (o & E4 & S4 & H4)
  end.
  { cbn [rshape]. rewrite (proj1 HWO). f_equal. f_equal. f_equal. fold h dv. ring. }
  rewrite E4. cbn [bind].
  exists attention, o. split; [reflexivity|]. split; [exact Sa|].
  split; [rewrite S4; now rewrite (proj2 HWO)|]. split.
  - intros b hh q k. unfold attention. rewrite (@elem_softmax4 masked B h S S b hh q k Sm).
    f_equal. f_equal. apply map_ext. intros j. apply Hmasked.
  - intros i Hi Hdv Hnan q m Hq.
    rewrite H4, (proj1 HWO). cbn [elem].
    assert (Hx : forall j, j < dv * h ->
              elem o2 (unravel (ravel [i; q; j] [B; S; h * dv]) [B; S; h; dv]) = NaN).
    { intros j Hj. rewrite unravel_merge by (try assumption; lia).
      rewrite H2.
      assert (Hh : j / dv < h).
      { apply Nat.Div0.div_lt_upper_bound. lia. }
      rewrite H1 by assumption.
      apply xsum_nan. apply in_map_iff. exists 0. split.
      - unfold dropped. rewrite dropout_nan; [reflexivity|]. apply Hnan; [exact Hh | lia].
      - apply in_seq. lia. }
    rewrite xsum_nan; [reflexivity|].
    apply in_map_iff. exists 0. split.
    + rewrite Hx by lia. reflexivity.
    + apply in_seq. lia.
Qed.

End AttentionForward.

Lemma init_built D dq dk dv h p tr w self :
  MultiHeadAttention.init D dq dk dv h p tr w = Ok self ->
  built self D /\
  MultiHeadAttention.d_Q self = dq /\ MultiHeadAttention.d_K self = dk /\
  MultiHeadAttention.d_V self = dv /\ MultiHeadAttention.numhead self = h.
Proof.
  unfold MultiHeadAttention.init. intros E.
  destruct (Dropout_init p tr) as [d|]; [|discriminate].
  cbn [bind] in E. injection E as <-. unfold built. cbn. repeat split; reflexivity.
Qed.

(** The whole of [forward] on three inputs of one shape. *)
Lemma forward_with_attention_spec self keep D B S x_Q x_K x_V lens :
  built self D ->
  MultiHeadAttention.d_Q self = MultiHeadAttention.d_K self ->
  1 <= B -> 1 <= S ->
  rshape x_Q = [B; S; D] -> rshape x_K = [B; S; D] -> rshape x_V = [B; S; D] ->
  match lens with Some l => length l <= B | None => True end ->
  exists scores V attention out,
    MultiHeadAttention.scores_and_values self x_Q x_K x_V
    = Ok (scores, V, Z.of_nat B, Z.of_nat S) /\
    MultiHeadAttention.forward_with_attention self keep x_Q x_K x_V lens
    = Ok (attention, out) /\
    rshape out = [B; S; D] /\
    (forall b hh q k,
       elem attention [b; hh; q; k]
       = nth k (softmax_row (map (masked_score S scores lens b hh q) (seq 0 S))) NaN) /\
    (forall i, i < B ->
       1 <= MultiHeadAttention.d_V self * MultiHeadAttention.numhead self ->
       (forall hh q k, hh < MultiHeadAttention.numhead self -> k < S ->
                       elem attention [i; hh; q; k] = NaN) ->
       forall q m, q < S -> elem out [i; q; m] = NaN).
Proof.
  intros (HWQ & HWK & HWV & HWO) Hqk HB HS HxQ HxK HxV Hlens.
  destruct (@scores_and_values_spec self B S D HWQ HWK HWV Hqk x_Q x_K x_V HxQ HxK HxV)
    as (scores & V & E & Ssc & SV).
  destruct (@attend_spec self keep B S D HWQ HWK HWV HWO Hqk HB HS scores V lens Ssc SV Hlens)
    as (attention & out & E2 & _ & So & Ha & Hn).
  exists scores, V, attention, out.
  split; [exact E|]. split.
  - unfold MultiHeadAttention.forward_with_attention. rewrite E. cbn [bind]. exact E2.
  - split; [exact So|]. split; [exact Ha | exact Hn].
Qed.

Lemma nth_map_seq {A : Type} (f : nat -> A) n k d :
  k < n -> nth k (map f (seq 0 n)) d = f k.
Proof.
  intros H. rewrite nth_indep with (d' := f 0) by (now rewrite length_map, length_seq).
  rewrite map_nth, seq_nth by exact H. reflexivity.
Qed.

(** A batch element of length 0: every weight and every output is NaN. *)
Lemma all_padding_is_nan self keep D B S x_Q x_K x_V lens i :
  built self D ->
  MultiHeadAttention.d_Q self = MultiHeadAttention.d_K self ->
  1 <= B -> 1 <= S ->
  rshape x_Q = [B; S; D] -> rshape x_K = [B; S; D] -> rshape x_V = [B; S; D] ->
  length lens = B -> i < B -> nth i lens 0%Z = 0%Z ->
  exists attention out,
    MultiHeadAttention.forward_with_attention self keep x_Q x_K x_V (Some lens)
    = Ok (attention, out) /\
    (forall hh q k, hh < MultiHeadAttention.numhead self -> q < S -> k < S ->
                    elem attention [i; hh; q; k] = NaN) /\
    (1 <= MultiHeadAttention.d_V self * MultiHeadAttention.numhead self ->
     forall q m, q < S -> m < D -> elem out [i; q; m] = NaN).
Proof.
  intros Hb Hqk HB HS HxQ HxK HxV Hlen Hi Hzero.
  destruct (@forward_with_attention_spec self keep D B S x_Q x_K x_V (Some lens)
              Hb Hqk HB HS HxQ HxK HxV ltac:(simpl; lia))
    as (scores & V & attention & out & _ & E & _ & Ha & Hn).
  assert (Hnan : forall hh q k, k < S -> elem attention [i; hh; q; k] = NaN).
  { intros hh q k Hk. rewrite Ha. apply softmax_row_all_masked.
    - apply Forall_map. apply Forall_forall. intros j _.
      unfold masked_score. rewrite Hzero.
      replace (i <? length lens) with true by (symmetry; apply Nat.ltb_lt; lia).
      unfold slice_start. cbn [Z.ltb Z.compare].
      replace (Z.to_nat (Z.min 0 (Z.of_nat S))) with 0 by lia.
      reflexivity.
    - now rewrite length_map, length_seq. }
  exists attention, out. split; [exact E|]. split.
  - intros hh q k _ _ Hk. now apply Hnan.
  - intros Hdv q m Hq _. apply (Hn i Hi Hdv); [|exact Hq].
    intros hh q' k _ Hk. now apply Hnan.
Qed.

(** C10. When the length of batch element [i] is 0, the forward pass still
    returns, and every attention weight and every output value of that
    batch element is NaN. *)
Theorem attention_zero_length_is_nan D dq dk dv h p tr w self keep B S x_Q x_K x_V lens i :
  MultiHeadAttention.init D dq dk dv h p tr w = Ok self ->
  dq = dk -> 1 <= dv * h ->
  1 <= B -> 1 <= S ->
  rshape x_Q = [B; S; D] -> rshape x_K = [B; S; D] -> rshape x_V = [B; S; D] ->
  length lens = B -> i < B -> nth i lens 0%Z = 0%Z ->
  exists attention out,
    MultiHeadAttention.forward_with_attention self keep x_Q x_K x_V (Some lens)
    = Ok (attention, out) /\
    MultiHeadAttention.forward self keep x_Q x_K x_V (Some lens) = Ok out /\
    (forall hh q k, hh < h -> q < S -> k < S -> elem attention [i; hh; q; k] = NaN) /\
    (forall q m, q < S -> m < D -> elem out [i; q; m] = NaN).
Proof.
  intros Hinit Hqk Hdv HB HS HxQ HxK HxV Hlen Hi Hzero.
  destruct (init_built _ _ _ _ _ _ _ _ Hinit) as (Hb & Eq & Ek & Ev & Eh).
  destruct (@all_padding_is_nan self keep D B S x_Q x_K x_V lens i Hb
              ltac:(congruence) HB HS HxQ HxK HxV Hlen Hi Hzero)
    as (attention & out & E & Ha & Ho).
  exists attention, out. split; [exact E|]. split.
  - unfold MultiHeadAttention.forward. rewrite E. reflexivity.
  - split.
    + intros hh q k Hh. apply Ha. now rewrite Eh.
    + apply Ho. now rewrite Ev, Eh.
Qed.

(** C3, as amended. For a batch element whose length is at least 1 and
    whose scores at the unmasked key positions are finite, every key position
    at or beyond the length gets the attention weight zero, for every head and
    every query position. *)
Theorem attention_masks_padding D dq dk dv h p tr w self keep B S x_Q x_K x_V lens :
  MultiHeadAttention.init D dq dk dv h p tr w = Ok self ->
  dq = dk ->
  1 <= B -> 1 <= S ->
  rshape x_Q = [B; S; D] -> rshape x_K = [B; S; D] -> rshape x_V = [B; S; D] ->
  length lens = B ->
  exists scores V attention out,
    MultiHeadAttention.scores_and_values self x_Q x_K x_V
    = Ok (scores, V, Z.of_nat B, Z.of_nat S) /\
    MultiHeadAttention.forward_with_attention self keep x_Q x_K x_V (Some lens)
    = Ok (attention, out) /\
    forall i hh q,
      i < B -> hh < h -> q < S ->
      (1 <= nth i lens 0)%Z ->
      (forall k, (Z.of_nat k < nth i lens 0)%Z -> k < S ->
                 finite (elem scores [i; hh; q; k])) ->
      forall k, (nth i lens 0 <= Z.of_nat k)%Z -> k < S ->
                elem attention [i; hh; q; k] = Fin 0.
Proof.
  intros Hinit Hqk HB HS HxQ HxK HxV Hlen.
  destruct (init_built _ _ _ _ _ _ _ _ Hinit) as (Hb & Eq & Ek & Ev & Eh).
  destruct (@forward_with_attention_spec self keep D B S x_Q x_K x_V (Some lens)
              Hb ltac:(congruence) HB HS HxQ HxK HxV ltac:(simpl; lia))
    as (scores & V & attention & out & Esc & E & _ & Ha & _).
  exists scores, V, attention, out. split; [exact Esc|]. split; [exact E|].
  intros i hh q Hi Hh Hq HL Hfin k Hk HkS.
  rewrite Ha.
  assert (Hcond : forall j, masked_score S scores (Some lens) i hh q j
                    = if slice_start (nth i lens 0%Z) S <=? j then NegInf
                      else elem scores [i; hh; q; j]).
  { intros j. unfold masked_score.
    replace (i <? length lens) with true by (symmetry; apply Nat.ltb_lt; lia).
    reflexivity. }
  assert (Hstart : slice_start (nth i lens 0%Z) S
                   = Z.to_nat (Z.min (nth i lens 0%Z) (Z.of_nat S))).
  { unfold slice_start.
    replace (nth i lens 0 <? 0)%Z with false by (symmetry; apply Z.ltb_ge; lia).
    reflexivity. }
  apply softmax_row_masked.
  - apply Forall_map. apply Forall_forall. intros j Hj. apply in_seq in Hj.
    rewrite Hcond. destruct (Nat.leb_spec (slice_start (nth i lens 0%Z) S) j) as [Hle|Hgt].
    + now left.
    + right. apply Hfin; lia.
  - apply Exists_exists. exists (masked_score S scores (Some lens) i hh q 0). split.
    + apply in_map. apply in_seq. lia.
    + rewrite Hcond.
      replace (slice_start (nth i lens 0%Z) S <=? 0) with false
        by (symmetry; apply Nat.leb_gt; lia).
      apply Hfin; lia.
  - rewrite nth_map_seq by exact HkS. rewrite Hcond.
    replace (slice_start (nth i lens 0%Z) S <=? k) with true
      by (symmetry; apply Nat.leb_le; lia).
    reflexivity.
Qed.

Lemma tiny_attention_init :
  MultiHeadAttention.init 1 1 1 1 1 0 false zero_params = Ok tiny_attention.
Proof.
  unfold MultiHeadAttention.init, Dropout_init.
  destruct (Rlt_dec 0 0) as [H|_]; [lra|].
  destruct (Rlt_dec 1 0) as [H|_]; [lra|].
  reflexivity.
Qed.

(** C3 as stated fails where the length is 0: the weight at key position 0,
    which is at or beyond the length, is NaN, not zero. *)
Lemma attention_masks_padding_counterexample :
  exists attention out,
    MultiHeadAttention.forward_with_attention tiny_attention (fun _ => true)
      tiny_input tiny_input tiny_input (Some [0%Z])
    = Ok (attention, out) /\
    elem attention [0; 0; 0; 0] <> Fin 0.
Proof.
  destruct (init_built _ _ _ _ _ _ _ _ tiny_attention_init) as (Hb & _).
  destruct (@all_padding_is_nan tiny_attention (fun _ => true) 1 1 1
              tiny_input tiny_input tiny_input [0%Z] 0 Hb eq_refl
              ltac:(lia) ltac:(lia) eq_refl eq_refl eq_refl eq_refl ltac:(lia) eq_refl)
    as (attention & out & E & Ha & _).
  exists attention, out. split; [exact E|].
  rewrite (Ha 0 0 0) by (simpl; lia). discriminate.
Qed.

Lemma attention_zero_length_is_nan_witness :
  exists attention out,
    MultiHeadAttention.forward tiny_attention (fun _ => true)
      tiny_input tiny_input tiny_input (Some [0%Z]) = Ok out /\
    elem attention [0; 0; 0; 0] = NaN /\ elem out [0; 0; 0] = NaN.
Proof.
  destruct (@attention_zero_length_is_nan 1 1 1 1 1 0%R false zero_params tiny_attention
              (fun _ => true) 1 1 tiny_input tiny_input tiny_input [0%Z] 0
              tiny_attention_init eq_refl ltac:(lia) ltac:(lia) ltac:(lia)
              eq_refl eq_refl eq_refl eq_refl ltac:(lia) eq_refl)
    as (attention & out & _ & E & Ha & Ho).
  exists attention, out. split; [exact E|]. split.
  - apply Ha; lia.
  - apply Ho; lia.
Defined.

Lemma attention_masks_padding_witness :
  exists attention out,
    MultiHeadAttention.forward_with_attention tiny_attention (fun _ => true)
      one_input one_input one_input (Some [1%Z])
    = Ok (attention, out) /\
    elem attention [0; 0; 0; 1] = Fin 0.
Proof.
  destruct (@attention_masks_padding 1 1 1 1 1 0%R false zero_params tiny_attention
              (fun _ => true) 1 2 one_input one_input one_input [1%Z]
              tiny_attention_init eq_refl ltac:(lia) ltac:(lia)
              eq_refl eq_refl eq_refl eq_refl)
    as (scores & V & attention & out & Esc & E & H).
  exists attention, out. split; [exact E|].
  apply (H 0 0 0); try lia; try (simpl; lia).
  intros k Hk _. simpl in Hk. assert (k = 0) by lia. subst k.
  unfold MultiHeadAttention.scores_and_values in Esc.
  cbn in Esc. injection Esc as <- _.
  cbn. unfold xsum. cbn.
  rewrite sqrt_1, (@sign_pos 1%R ltac:(lra)). eexists. reflexivity.
Defined.

(** ** Encoder block and encoder stack *)

Lemma attention_forward_shape self keep D B S x_Q x_K x_V lens :
  built self D ->
  MultiHeadAttention.d_Q self = MultiHeadAttention.d_K self ->
  1 <= B -> 1 <= S ->
  rshape x_Q = [B; S; D] -> rshape x_K = [B; S; D] -> rshape x_V = [B; S; D] ->
  lens_ok lens B ->
  exists out, MultiHeadAttention.forward self keep x_Q x_K x_V lens = Ok out /\
              rshape out = [B; S; D].
Proof.
  intros Hb Hqk HB HS HxQ HxK HxV Hl.
  destruct (@forward_with_attention_spec self keep D B S x_Q x_K x_V lens
              Hb Hqk HB HS HxQ HxK HxV Hl)
    as (scores & V & attention & out & _ & E & So & _).
  exists out. split; [|exact So].
  unfold MultiHeadAttention.forward. rewrite E. reflexivity.
Qed.

Lemma block_init_built D d_ff h p tr w blk :
  TF_Encoder_Block.init D d_ff h p tr w = Ok blk -> built_block blk D.
Proof.
  unfold TF_Encoder_Block.init, TF_Encoder_Block.floordiv. intros E.
  destruct (h =? 0); [discriminate|]. cbn [bind] in E.
  destruct (MultiHeadAttention.init D (D / h) (D / h) (D / h) h p tr
              (TF_Encoder_Block.attention_params w)) as [att|] eqn:Ea; [|discriminate].
  cbn [bind] in E.
  destruct (Dropout_init p tr) as [d|]; [|discriminate]. cbn [bind] in E.
  injection E as <-.
  destruct (init_built _ _ _ _ _ _ _ _ Ea) as (Hb & Eq & Ek & _).
  unfold built_block. cbn. repeat split; try reflexivity; try apply Hb.
  congruence.
Qed.

Lemma block_forward_shape blk rng D B S x lens :
  built_block blk D -> 1 <= B -> 1 <= S ->
  rshape x = [B; S; D] -> lens_ok lens B ->
  exists out, TF_Encoder_Block.forward blk rng x lens = Ok out /\
              rshape out = [B; S; D].
Proof.
  intros (Hb & Hqk & Hin & Hmid & Hout & Hn1 & Hn2) HB HS Hx Hl.
  unfold TF_Encoder_Block.forward.
  destruct (@attention_forward_shape (TF_Encoder_Block.attention blk) (rng 0)
              D B S x x x lens Hb Hqk HB HS Hx Hx Hx Hl) as (att & Ea & Sa).
  rewrite Ea. cbn [bind].
  destruct (@add_same x (Dropout_forward (TF_Encoder_Block.dropout blk) (rng 1) att)
              [B; S; D] Hx ltac:(now rewrite rshape_dropout)) as (x1 & E1 & S1).
  rewrite E1. cbn [bind].
  destruct (@LayerNorm_forward_shape (TF_Encoder_Block.norm1 blk) x1 B S
              ltac:(now rewrite Hn1)) as (x2 & E2 & S2).
  rewrite E2. cbn [bind]. rewrite Hn1 in S2.
  unfold TF_Encoder_Block.ff_forward.
  destruct (@Linear_forward_spec (TF_Encoder_Block.ff_in (TF_Encoder_Block.ff_network blk))
              x2 B S ltac:(now rewrite Hin)) as (y1 & E3 & S3 & _).
  rewrite E3. cbn [bind].
  match goal with
  | |- context [Linear_forward ?L ?y] =>
      destruct (@Linear_forward_spec L y B S) as (y2 & E4 & S4 & _)
  end.
  { rewrite rshape_dropout. cbn [relu map_elems rshape]. now rewrite S3, Hmid. }
  rewrite E4. cbn [bind]. rewrite Hout in S4.
  destruct (@add_same x2 (Dropout_forward (TF_Encoder_Block.dropout blk) (rng 3) y2)
              [B; S; D] S2 ltac:(now rewrite rshape_dropout)) as (x3 & E5 & S5).
  rewrite E5. cbn [bind].
  destruct (@LayerNorm_forward_shape (TF_Encoder_Block.norm2 blk) x3 B S
              ltac:(now rewrite Hn2)) as (out & E6 & S6).
  exists out. split; [exact E6 | now rewrite <- Hn2].
Qed.

Lemma make_layers_built D d_ff h p tr w n : forall k layers,
  TF_Encoder.make_layers D d_ff h p tr w k n = Ok layers ->
  length layers = n /\ Forall (fun blk => built_block blk D) layers.
Proof.
  induction n as [|n IH]; intros k layers E.
  - injection E as <-. split; [reflexivity | constructor].
  - cbn [TF_Encoder.make_layers] in E.
    destruct (TF_Encoder_Block.init D d_ff h p tr (w k)) as [blk|] eqn:Eb; [|discriminate].
    cbn [bind] in E.
    destruct (TF_Encoder.make_layers D d_ff h p tr w (S k) n) as [rest|] eqn:Er;
      [|discriminate].
    cbn [bind] in E. injection E as <-.
    destruct (IH _ _ Er) as [Hlen Hall]. split; [simpl; now rewrite Hlen|].
    constructor; [eapply block_init_built; eassumption | exact Hall].
Qed.

(** The loop over the blocks: every block reads the same [x], and the
    result is what the last block makes of it. *)
Lemma layers_loop_spec D B T x lens rng :
  1 <= B -> 1 <= T -> rshape x = [B; T; D] -> lens_ok lens B ->
  forall layers k out0,
    Forall (fun blk => built_block blk D) layers ->
    exists r,
      TF_Encoder.layers_loop layers rng k x lens out0 = Ok r /\
      match rev layers with
      | [] => r = out0
      | last :: _ =>
          exists out,
            TF_Encoder_Block.forward last
              (TF_Encoder.block_noise rng (k + length layers - 1)) x lens = Ok out /\
            rshape out = [B; T; D] /\ r = Some out
      end.
Proof.
  intros HB HS Hx Hl. induction layers as [|blk layers IH]; intros k out0 Hall.
  - exists out0. split; reflexivity.
  - inversion Hall as [|? ? Hblk Hrest]; subst.
    cbn [TF_Encoder.layers_loop].
    destruct (@block_forward_shape blk (TF_Encoder.block_noise rng k) D B T x lens
                Hblk HB HS Hx Hl) as (o & Eo & So).
    rewrite Eo. cbn [bind].
    destruct (IH (S k) (Some o) Hrest) as (r & Er & Hr).
    exists r. split; [exact Er|].
    cbn [rev length]. destruct (rev layers) as [|last pre] eqn:Erev.
    + cbn [app]. apply (f_equal (@rev _)) in Erev. rewrite rev_involutive in Erev.
      cbn [rev] in Erev. subst layers. cbn [length]. exists o.
      replace (k + 1 - 1) with k by lia. split; [exact Eo|]. split; [exact So|].
      exact Hr.
    + cbn [app]. replace (k + S (length layers) - 1) with (S k + length layers - 1) by lia.
      exact Hr.
Qed.

Lemma embed_shape enc rng x B S :
  1 <= S -> 1 <= embedding_dim (TF_Encoder.src_embed enc) ->
  ishape x = [B; S] ->
  tokens_in_vocab x (num_embeddings (TF_Encoder.src_embed enc)) ->
  exists x0, TF_Encoder.embed enc rng x = Ok x0 /\
             rshape x0 = [B; S; embedding_dim (TF_Encoder.src_embed enc)].
Proof.
  intros HS HD Hx Htok. unfold TF_Encoder.embed, Embedding_forward.
  replace (forallb _ (indices (ishape x))) with true.
  2:{ symmetry. apply forallb_forall. intros idx Hin.
      specialize (Htok idx Hin). apply andb_true_intro. split.
      - apply Z.leb_le. lia.
      - apply Z.ltb_lt. lia. }
  cbn [bind]. unfold shape_at. rewrite !rshape_dropout. cbn [rshape]. rewrite Hx.
  cbn [app nth_error bind]. rewrite PosEncoding_ok by assumption. cbn [bind].
  unfold add. rewrite rshape_dropout. cbn [rshape].
  unfold broadcast_shapes. cbn [app rev broadcast_rev bind].
  rewrite !Nat.eqb_refl. cbn [bind rev app].
  eexists. split; reflexivity.
Qed.

Lemma encoder_init_built vocab D d_ff n h p tr emb w enc :
  TF_Encoder.init vocab D d_ff n h p tr emb w = Ok enc ->
  num_embeddings (TF_Encoder.src_embed enc) = vocab /\
  embedding_dim (TF_Encoder.src_embed enc) = D /\
  length (TF_Encoder.encoder_layers enc) = n /\
  Forall (fun blk => built_block blk D) (TF_Encoder.encoder_layers enc).
Proof.
  unfold TF_Encoder.init. intros E.
  destruct (Dropout_init p tr) as [d|]; [|discriminate]. cbn [bind] in E.
  destruct (TF_Encoder.make_layers D d_ff h p tr w 0 n) as [layers|] eqn:El;
    [|discriminate].
  cbn [bind] in E. injection E as <-.
  destruct (make_layers_built _ _ _ _ _ _ _ _ El) as [Hlen Hall].
  cbn. repeat split; assumption.
Qed.

Lemma encoder_forward_shape enc rng x lens D B S :
  embedding_dim (TF_Encoder.src_embed enc) = D ->
  Forall (fun blk => built_block blk D) (TF_Encoder.encoder_layers enc) ->
  1 <= length (TF_Encoder.encoder_layers enc) ->
  1 <= D -> 1 <= B -> 1 <= S -> ishape x = [B; S] ->
  tokens_in_vocab x (num_embeddings (TF_Encoder.src_embed enc)) ->
  lens_ok lens B ->
  exists out, TF_Encoder.forward enc rng x lens = Ok out /\ rshape out = [B; S; D].
Proof.
  intros HD Hall Hn HD1 HB HS Hx Htok Hl. unfold TF_Encoder.forward.
  destruct (@embed_shape enc rng x B S HS ltac:(now rewrite HD) Hx Htok)
    as (x0 & E0 & S0).
  rewrite E0. cbn [bind]. rewrite HD in S0.
  destruct (@layers_loop_spec D B S x0 lens rng HB HS S0 Hl
              (TF_Encoder.encoder_layers enc) 0 None Hall) as (r & Er & Hr).
  rewrite Er. cbn [bind].
  destruct (rev (TF_Encoder.encoder_layers enc)) as [|last pre] eqn:Erev.
  - apply (f_equal (@length _)) in Erev. rewrite length_rev in Erev. simpl in Erev. lia.
  - destruct Hr as (out & _ & So & ->). exists out. split; [reflexivity | exact So].
Qed.

(** C8. An attention module, an encoder block and an encoder stack of at
    least one block and a model dimension of at least 1, each built by its
    constructor, return on a non-empty batch of shape
    (batch, seq_len, d_model) a tensor of the same shape. *)
Theorem encoder_preserves_shape :
  (forall D dq dk dv h p tr w self keep B S x_Q x_K x_V lens,
     MultiHeadAttention.init D dq dk dv h p tr w = Ok self -> dq = dk ->
     1 <= B -> 1 <= S ->
     rshape x_Q = [B; S; D] -> rshape x_K = [B; S; D] -> rshape x_V = [B; S; D] ->
     lens_ok lens B ->
     exists out, MultiHeadAttention.forward self keep x_Q x_K x_V lens = Ok out /\
                 rshape out = rshape x_Q)
  /\
  (forall D d_ff h p tr w blk rng B S x lens,
     TF_Encoder_Block.init D d_ff h p tr w = Ok blk ->
     1 <= B -> 1 <= S -> rshape x = [B; S; D] -> lens_ok lens B ->
     exists out, TF_Encoder_Block.forward blk rng x lens = Ok out /\
                 rshape out = [B; S; D])
  /\
  (forall vocab D d_ff numlayer h p tr emb w enc rng B S x lens,
     TF_Encoder.init vocab D d_ff numlayer h p tr emb w = Ok enc ->
     1 <= numlayer -> 1 <= D ->
     1 <= B -> 1 <= S -> ishape x = [B; S] -> tokens_in_vocab x vocab ->
     lens_ok lens B ->
     exists out, TF_Encoder.forward enc rng x lens = Ok out /\
                 rshape out = [B; S; D]).
Proof.
  split; [|split].
  - intros D dq dk dv h p tr w self keep B S x_Q x_K x_V lens Hinit Hqk HB HS HxQ HxK HxV Hl.
    destruct (init_built _ _ _ _ _ _ _ _ Hinit) as (Hb & Eq & Ek & _).
    rewrite HxQ. apply attention_forward_shape; try assumption. congruence.
  - intros D d_ff h p tr w blk rng B S x lens Hinit HB HS Hx Hl.
    apply block_forward_shape; try assumption.
    eapply block_init_built; eassumption.
  - intros vocab D d_ff numlayer h p tr emb w enc rng B S x lens
           Hinit Hn HD1 HB HS Hx Htok Hl.
    destruct (encoder_init_built _ _ _ _ _ _ _ _ _ Hinit) as (Hv & HD & Hlen & Hall).
    apply encoder_forward_shape; try assumption.
    + lia.
    + now rewrite Hv.
Qed.

Lemma Dropout_init_zero tr : Dropout_init 0 tr = Ok (mkDropout 0 tr).
Proof.
  unfold Dropout_init.
  destruct (Rlt_dec 0 0) as [H|_]; [lra|].
  destruct (Rlt_dec 1 0) as [H|_]; [lra|].
  reflexivity.
Qed.

(** An encoder with a vocabulary of one token, one block and one head. *)
Lemma tiny_encoder :
  { enc | TF_Encoder.init 1 1 1 1 1 0 false (fun _ _ => Fin 0)
                          (fun _ => zero_block_params) = Ok enc }.
Proof.
  unfold TF_Encoder.init, TF_Encoder.make_layers, TF_Encoder_Block.init,
    MultiHeadAttention.init.
  rewrite !Dropout_init_zero. cbn. eexists. reflexivity.
Qed.

Lemma encoder_preserves_shape_witness :
  exists out,
    TF_Encoder.forward (proj1_sig tiny_encoder) (fun _ _ => true) one_token (Some [1%Z])
    = Ok out /\
    rshape out = [1; 1; 1].
Proof.
  apply (proj2 (proj2 encoder_preserves_shape)
           1 1 1 1 1 0%R false (fun _ _ => Fin 0) (fun _ => zero_block_params)
           (proj1_sig tiny_encoder) (fun _ _ => true) 1 1 one_token (Some [1%Z])
           (proj2_sig tiny_encoder)); try lia.
  - reflexivity.
  - intros idx _. simpl. lia.
  - simpl. lia.
Defined.

(** C1. The loop of the stack passes the embedded input to every block: on
    a stack of two blocks the result is what the second block makes of the
    embedded input, the output of the first block being dropped, whereas the
    chained composition feeds the second block with the output of the
    first. *)
Theorem encoder_blocks_read_the_embedding n emb drop l1 l2 rng x lens :
  TF_Encoder.forward (TF_Encoder.mk n emb drop [l1; l2]) rng x lens
  = (x0 <- TF_Encoder.embed (TF_Encoder.mk n emb drop [l1; l2]) rng x ;;
     _ <- TF_Encoder_Block.forward l1 (TF_Encoder.block_noise rng 0) x0 lens ;;
     TF_Encoder_Block.forward l2 (TF_Encoder.block_noise rng 1) x0 lens)
  /\
  TF_Encoder.forward_chained (TF_Encoder.mk n emb drop [l1; l2]) rng x lens
  = (x0 <- TF_Encoder.embed (TF_Encoder.mk n emb drop [l1; l2]) rng x ;;
     x1 <- TF_Encoder_Block.forward l1 (TF_Encoder.block_noise rng 0) x0 lens ;;
     TF_Encoder_Block.forward l2 (TF_Encoder.block_noise rng 1) x1 lens).
Proof.
  split.
  - unfold TF_Encoder.forward. cbn [TF_Encoder.encoder_layers].
    destruct (TF_Encoder.embed _ rng x) as [x0|e]; [|reflexivity].
    cbn [bind TF_Encoder.layers_loop].
    destruct (TF_Encoder_Block.forward l1 _ x0 lens) as [o1|e]; [|reflexivity].
    cbn [bind].
    destruct (TF_Encoder_Block.forward l2 _ x0 lens) as [o2|e]; reflexivity.
  - unfold TF_Encoder.forward_chained. cbn [TF_Encoder.encoder_layers].
    destruct (TF_Encoder.embed _ rng x) as [x0|e]; [|reflexivity].
    cbn [bind TF_Encoder.chained_loop].
    destruct (TF_Encoder_Block.forward l1 _ x0 lens) as [o1|e]; [|reflexivity].
    cbn [bind].
    destruct (TF_Encoder_Block.forward l2 _ o1 lens) as [o2|e]; reflexivity.
Qed.

(** The same for any number of blocks: once the blocks before the last
    have returned, the result is the last block applied to the input of the
    stack. *)
Lemma layers_loop_last layers rng x lens : forall k out0 last,
  Forall (fun p => returns (TF_Encoder_Block.forward (snd p)
                              (TF_Encoder.block_noise rng (fst p)) x lens))
         (combine (seq k (length layers)) layers) ->
  TF_Encoder.layers_loop (layers ++ [last]) rng k x lens out0
  = (out <- TF_Encoder_Block.forward last
              (TF_Encoder.block_noise rng (k + length layers)) x lens ;;
     Ok (Some out)).
Proof.
  induction layers as [|blk layers IH]; intros k out0 last Hall.
  - cbn [app TF_Encoder.layers_loop length]. rewrite Nat.add_0_r.
    destruct (TF_Encoder_Block.forward last _ x lens); reflexivity.
  - cbn [app TF_Encoder.layers_loop length seq combine] in *.
    inversion Hall as [|? ? [o Ho] Hrest]; subst. cbn [fst snd] in Ho.
    rewrite Ho. cbn [bind]. rewrite IH by exact Hrest.
    replace (k + Datatypes.S (length layers)) with (Datatypes.S k + length layers) by lia.
    reflexivity.
Qed.

(* ================================================================= *)
(** * Part IV: further properties of the code *)
(* ================================================================= *)

(** ** Malformed calls of the two layers *)

Lemma valid_dims_4 n1 n2 n3 n4 w1 w2 w3 w4 s1 s2 s3 s4 :
  valid_dims [n1; n2; n3; n4] [w1; w2; w3; w4] [s1; s2; s3; s4] ->
  ((1 <= w3 <= Z.of_nat n3) /\ (1 <= w4 <= Z.of_nat n4) /\ 1 <= s3 /\ 1 <= s4)%Z.
Proof.
  intros Hv.
  inversion Hv as [|? ? ? ? ? ? _ _ Hv1]; subst.
  inversion Hv1 as [|? ? ? ? ? ? _ _ Hv2]; subst.
  inversion Hv2 as [|? ? ? ? ? ? Hw3 Hs3 Hv3]; subst.
  inversion Hv3 as [|? ? ? ? ? ? Hw4 Hs4 _]; subst.
  auto.
Qed.

(** X1. The convolution refuses, with ValueError, an input or a filter bank that
    is not 4-D, and a filter that is taller or wider than the input or has an
    empty side. *)
Theorem conv_forward_rejects_bad_shapes (self : nn_convolutional_layer.layer tensor)
        (x : tensor) :
  (length (shape x) <> 4 -> raises (nn_convolutional_layer.forward self x) KValue) /\
  (length (shape (nn_convolutional_layer.W self)) <> 4 ->
   raises (nn_convolutional_layer.forward self x) KValue) /\
  (forall B C H Wd O C' fh fw,
     shape x = [B; C; H; Wd] -> tensor_ok x ->
     shape (nn_convolutional_layer.W self) = [O; C'; fh; fw] ->
     H < fh \/ Wd < fw \/ fh = 0 \/ fw = 0 ->
     raises (nn_convolutional_layer.forward self x) KValue).
Proof.
  split; [|split].
  - intros Hlen. unfold nn_convolutional_layer.forward.
    destruct (shape x) as [|a [|b [|c [|d [|e l]]]]]; try (eexists; split; reflexivity).
    + simpl in Hlen. congruence.
  - intros Hlen. unfold nn_convolutional_layer.forward.
    destruct (shape x) as [|a [|b [|c [|d [|e l]]]]]; try (eexists; split; reflexivity).
    destruct (shape (nn_convolutional_layer.W self)) as [|a' [|b' [|c' [|d' [|e' l']]]]];
      try (eexists; split; reflexivity).
    simpl in Hlen. congruence.
  - intros B C H Wd O C' fh fw Hx Hok HW Hbad.
    unfold nn_convolutional_layer.forward. rewrite Hx, HW. cbv beta iota zeta.
    apply raises_bind_l.
    destruct (@view_as_windows_cases x (Tuple [1; 1; Z.of_nat fh; Z.of_nat fw]%Z)
                (Number 1) Hok) as [Hr | [Hv _]]; [exact Hr|].
    exfalso. rewrite Hx in Hv. cbn in Hv.
    apply valid_dims_4 in Hv. lia.
Qed.

Lemma conv_forward_rejects_bad_shapes_witness :
  raises (nn_convolutional_layer.forward conv_example_layer (arange 5)) KValue /\
  raises (nn_convolutional_layer.forward oversized_filter_layer conv_example_x) KValue.
Proof.
  split.
  - apply (proj1 (conv_forward_rejects_bad_shapes conv_example_layer (arange 5))).
    simpl. lia.
  - refine (proj2 (proj2 (conv_forward_rejects_bad_shapes oversized_filter_layer conv_example_x))
              1 1 4 4 1 1 5 5 eq_refl (conj eq_refl eq_refl) eq_refl _).
    left. lia.
Defined.

(** X2. The layer does not compare the channel counts itself: when the filters
    expect another number of input channels than the input has, the forward
    pass ends in the RuntimeError of the matrix product. *)
Theorem conv_forward_channel_mismatch (self : nn_convolutional_layer.layer tensor)
        (x : tensor) B C H Wd O C' fh fw :
  shape x = [B; C; H; Wd] -> tensor_ok x ->
  shape (nn_convolutional_layer.W self) = [O; C'; fh; fw] ->
  1 <= B -> 1 <= C -> 1 <= O -> 1 <= fh <= H -> 1 <= fw <= Wd ->
  C <> C' ->
  raises (nn_convolutional_layer.forward self x) KRuntime.
Proof.
  intros Hx Hxok HW HB HC HO Hfh Hfw Hne.
  unfold nn_convolutional_layer.forward. rewrite Hx, HW. cbv beta iota zeta.
  rewrite (@conv_windows x B C H Wd O fh fw) by assumption. cbn [bind].
  rewrite squeeze_squeeze_reshape_then.
  2:{ apply window_view_ok; [assumption|].
      apply (@conv_windows_valid x B C H Wd O fh fw); assumption. }
  2:{ rewrite (@conv_windows_shape x B C H Wd O fh fw) by assumption. simpl. lia. }
  rewrite (@conv_zshape1 B C H Wd O fh fw) by assumption.
  rewrite reshape_of_nat.
  2:{ rewrite (@conv_windows_shape x B C H Wd O fh fw) by assumption.
      cbn [numel fold_right]. lia. }
  cbn [bind]. rewrite permute_0213. cbn [bind].
  rewrite (@conv_zshape2 B C H Wd O fh fw) by assumption.
  rewrite reshape_of_nat.
  2:{ cbn [shape numel fold_right]. lia. }
  cbn [bind].
  unfold reshape at 1. rewrite HW.
  replace (numel [O; C'; fh; fw]) with (O * (C' * (fh * fw)))
    by (cbn [numel fold_right]; lia).
  rewrite infer_size_rows by assumption. cbn [bind].
  rewrite t_from_list. cbn [bind].
  apply raises_bind_l.
  unfold mm. cbn [shape from_list].
  replace (C * (fh * fw) =? C' * (fh * fw)) with false.
  - eexists. split; reflexivity.
  - symmetry. apply Nat.eqb_neq. nia.
Qed.

Lemma conv_forward_channel_mismatch_witness :
  raises (nn_convolutional_layer.forward two_channel_layer conv_example_x) KRuntime.
Proof.
  apply (@conv_forward_channel_mismatch two_channel_layer conv_example_x 1 1 4 4 1 2 2 2
           eq_refl (conj eq_refl eq_refl) eq_refl);
    lia.
Defined.

(** X3. Max pooling refuses an input that is not 4-D with ValueError; on a 4-D
    input a stride of 0 raises ZeroDivisionError, before any window is looked
    at, and a negative stride or a pool size below 1 or above the height or
    width raises ValueError. *)
Theorem pool_forward_rejects (self : nn_max_pooling_layer.layer) (x : tensor) :
  (length (shape x) <> 4 -> raises (nn_max_pooling_layer.forward self x) KValue) /\
  (length (shape x) = 4 -> nn_max_pooling_layer.stride self = 0%Z ->
   raises (nn_max_pooling_layer.forward self x) KZeroDivision) /\
  (forall B C H Wd,
     shape x = [B; C; H; Wd] -> tensor_ok x ->
     nn_max_pooling_layer.stride self <> 0%Z ->
     (nn_max_pooling_layer.stride self < 0 \/
      nn_max_pooling_layer.pool_size self < 1 \/
      Z.of_nat H < nn_max_pooling_layer.pool_size self \/
      Z.of_nat Wd < nn_max_pooling_layer.pool_size self)%Z ->
     raises (nn_max_pooling_layer.forward self x) KValue).
Proof.
  split; [|split].
  - intros Hlen. unfold nn_max_pooling_layer.forward.
    destruct (shape x) as [|a [|b [|c [|d [|e l]]]]]; try (eexists; split; reflexivity).
    simpl in Hlen. congruence.
  - intros Hlen Hs. unfold nn_max_pooling_layer.forward.
    destruct (shape x) as [|a [|b [|c [|d [|e l]]]]]; try discriminate Hlen.
    cbv beta iota zeta. unfold nn_max_pooling_layer.floordiv. rewrite Hs.
    eexists. split; reflexivity.
  - intros B C H Wd Hx Hok Hs Hbad.
    unfold nn_max_pooling_layer.forward. rewrite Hx. cbv beta iota zeta.
    unfold nn_max_pooling_layer.floordiv.
    replace (nn_max_pooling_layer.stride self =? 0)%Z with false
      by (symmetry; apply Z.eqb_neq; exact Hs).
    cbn [bind]. apply raises_bind_l.
    match goal with
    | |- raises (view_as_windows _ ?ws ?st) _ =>
        destruct (@view_as_windows_cases x ws st Hok) as [Hr | [Hv _]]; [exact Hr|]
    end.
    exfalso. rewrite Hx in Hv. cbn in Hv. apply valid_dims_4 in Hv. lia.
Qed.

Lemma pool_forward_rejects_witness :
  raises (nn_max_pooling_layer.forward (nn_max_pooling_layer.mkLayer 2 0)
                                       conv_example_x) KZeroDivision /\
  raises (nn_max_pooling_layer.forward (nn_max_pooling_layer.mkLayer 5 1)
                                       conv_example_x) KValue /\
  raises (nn_max_pooling_layer.forward (nn_max_pooling_layer.mkLayer 2 1)
                                       (arange 5)) KValue.
Proof.
  split; [|split].
  - apply (proj1 (proj2 (pool_forward_rejects (nn_max_pooling_layer.mkLayer 2 0)
                                              conv_example_x)));
      reflexivity.
  - refine (proj2 (proj2 (pool_forward_rejects (nn_max_pooling_layer.mkLayer 5 1)
                                               conv_example_x))
              1 1 4 4 eq_refl (conj eq_refl eq_refl) _ _).
    + simpl. lia.
    + simpl. lia.
  - apply (proj1 (pool_forward_rejects (nn_max_pooling_layer.mkLayer 2 1) (arange 5))).
    simpl. lia.
Defined.

(** ** What max pooling returns *)

(** X4. Every entry of the pooled output is an upper bound of the entries of its
    window of the input, and is one of them. *)
Theorem pool_output_is_window_maximum x B C H Wd p s :
  shape x = [B; C; H; Wd] -> tensor_ok x ->
  1 <= B -> 1 <= C -> 1 <= p -> p <= H -> p <= Wd -> 1 <= s ->
  exists out,
    nn_max_pooling_layer.forward
      (nn_max_pooling_layer.mkLayer (Z.of_nat p) (Z.of_nat s)) x = Ok out /\
    forall n c h v,
      n < B -> c < C -> h < (H - p) / s + 1 -> v < (Wd - p) / s + 1 ->
      exists m,
        get out [n; c; h; v] = Some m /\
        (forall i j, i < p -> j < p ->
           exists e, get x [n; c; h * s + i; v * s + j] = Some e /\ (e <= m)%Z) /\
        (exists i j, i < p /\ j < p /\ get x [n; c; h * s + i; v * s + j] = Some m).
Proof.
  intros Hx Hok HB HC Hp HpH HpW Hs.
  destruct (@pool_forward_is_max x B C H Wd p s Hx Hok HB HC Hp HpH HpW Hs)
    as (out & E & _ & G).
  exists out. split; [exact E|].
  intros n c h v Hn Hc Hh Hv.
  exists (max_pool_reference x p s n c h v). split; [now apply G|].
  assert (Hget : forall i j, i < p -> j < p ->
            get x [n; c; h * s + i; v * s + j]
            = Some (rd x [n; c; h * s + i; v * s + j])).
  { intros i j Hi Hj. apply get_rd; [exact Hok|]. rewrite Hx.
    pose proof (@pool_window_in_range H p s h i Hs HpH Hh Hi).
    pose proof (@pool_window_in_range Wd p s v j Hs HpW Hv Hj).
    solve_bounds. }
  split.
  - intros i j Hi Hj. eexists. split; [now apply Hget|].
    apply maxZ_upper. apply in_flat_map. exists i. split; [apply in_seq; lia|].
    apply in_map_iff. exists j. split; [reflexivity | apply in_seq; lia].
  - assert (Hne : flat_map (fun i => map (fun j => rd x [n; c; h * s + i; v * s + j])
                                         (seq 0 p)) (seq 0 p) <> []).
    { destruct p as [|p']; [lia|]. cbn. discriminate. }
    apply maxZ_in in Hne. fold (max_pool_reference x p s n c h v) in Hne.
    apply in_flat_map in Hne as (i & Hi & Hin).
    apply in_map_iff in Hin as (j & Hj & Hjn).
    apply in_seq in Hi. apply in_seq in Hjn.
    exists i, j. split; [lia|]. split; [lia|].
    rewrite Hget by lia. now f_equal.
Qed.

Lemma pool_output_is_window_maximum_witness :
  exists out,
    nn_max_pooling_layer.forward (nn_max_pooling_layer.mkLayer 3 2) conv_example_x = Ok out /\
    exists m, get out [0; 0; 0; 0] = Some m /\
              get conv_example_x [0; 0; 2; 2] = Some m.
Proof.
  destruct (@pool_output_is_window_maximum conv_example_x 1 1 4 4 3 2
              eq_refl (conj eq_refl eq_refl)
              ltac:(lia) ltac:(lia) ltac:(lia) ltac:(lia) ltac:(lia) ltac:(lia))
    as (out & E & G).
  exists out. split; [exact E|].
  destruct (G 0 0 0 0 ltac:(lia) ltac:(lia) ltac:(simpl; lia) ltac:(simpl; lia))
    as (m & Hm & Hub & _).
  exists m. split; [exact Hm|].
  destruct (Hub 2 2 ltac:(lia) ltac:(lia)) as (e & He & Hle).
  cbn in He. injection He as <-.
  destruct out as [sto off shp strd]. cbn in E. injection E as <- <- <- <-.
  cbn in Hm. injection Hm as <-. reflexivity.
Defined.

(** X5. Pooling with pool size 1 and stride 1 returns a tensor with the shape and
    the entries of the input. *)
Theorem pool_one_by_one_is_identity x B C H Wd :
  shape x = [B; C; H; Wd] -> tensor_ok x ->
  1 <= B -> 1 <= C -> 1 <= H -> 1 <= Wd ->
  exists out,
    nn_max_pooling_layer.forward (nn_max_pooling_layer.mkLayer 1 1) x = Ok out /\
    shape out = shape x /\
    forall n c h v, n < B -> c < C -> h < H -> v < Wd ->
                    get out [n; c; h; v] = get x [n; c; h; v].
Proof.
  intros Hx Hok HB HC HH HW.
  destruct (@pool_forward_is_max x B C H Wd 1 1 Hx Hok HB HC ltac:(lia) HH HW ltac:(lia))
    as (out & E & S & G).
  rewrite !Nat.div_1_r in S, G.
  replace (H - 1 + 1) with H in S, G by lia.
  replace (Wd - 1 + 1) with Wd in S, G by lia.
  exists out. split; [exact E|]. split; [now rewrite Hx|].
  intros n c h v Hn Hc Hh Hv. rewrite G by assumption.
  unfold max_pool_reference. cbn [seq flat_map map app maxZ fold_left].
  rewrite !Nat.mul_1_r, !Nat.add_0_r.
  symmetry. apply get_rd; [exact Hok|]. rewrite Hx. solve_bounds.
Qed.

Lemma pool_one_by_one_is_identity_witness :
  exists out,
    nn_max_pooling_layer.forward (nn_max_pooling_layer.mkLayer 1 1) conv_example_x = Ok out /\
    get out [0; 0; 3; 1] = Some 13%Z.
Proof.
  destruct (@pool_one_by_one_is_identity conv_example_x 1 1 4 4
              eq_refl (conj eq_refl eq_refl)
              ltac:(lia) ltac:(lia) ltac:(lia) ltac:(lia))
    as (out & E & _ & G).
  exists out. split; [exact E|].
  rewrite (G 0 0 3 1) by lia. reflexivity.
Defined.

(** ** In-place update of the parameters *)





Lemma list_set_length l : forall k v, length (list_set l k v) = length l.
Proof.
  induction l as [|a l IH]; intros [|k] v; simpl; auto.
Qed.

Lemma nth_list_set_same l : forall k v d,
  k < length l -> nth k (list_set l k v) d = v.
Proof.
  induction l as [|a l IH]; intros [|k] v d Hk; simpl in *; try lia; auto.
  apply IH. lia.
Qed.

Lemma nth_list_set_other l : forall k k' v d,
  k <> k' -> nth k (list_set l k' v) d = nth k l d.
Proof.
  induction l as [|a l IH]; intros [|k] [|k'] v d Hne; simpl; try reflexivity;
    try congruence.
  apply IH. congruence.
Qed.

(** Writing [v j] at position [pos j] for every [j] of a list, in order. *)
Lemma fold_set_length {A : Type} (pos : A -> nat) (v : A -> Z) l : forall sto,
  length (fold_left (fun sto j => list_set sto (pos j) (v j)) l sto) = length sto.
Proof.
  induction l as [|a l IH]; intros sto; cbn [fold_left]; [reflexivity|].
  now rewrite IH, list_set_length.
Qed.

Lemma fold_set_stable {A : Type} (pos : A -> nat) (v : A -> Z) k c l : forall sto,
  (forall j, In j l -> pos j = k -> v j = c) ->
  k < length sto -> nth k sto 0%Z = c ->
  nth k (fold_left (fun sto j => list_set sto (pos j) (v j)) l sto) 0%Z = c.
Proof.
  induction l as [|a l IH]; intros sto Hall Hk Hc; cbn [fold_left]; [exact Hc|].
  apply IH.
  - intros j Hj. apply Hall. now right.
  - now rewrite list_set_length.
  - destruct (Nat.eq_dec (pos a) k) as [E|E].
    + rewrite E, nth_list_set_same by exact Hk. apply Hall; [now left | exact E].
    + rewrite nth_list_set_other by congruence. exact Hc.
Qed.

Lemma fold_set_written {A : Type} (pos : A -> nat) (v : A -> Z) i l : forall sto,
  In i l ->
  (forall j, In j l -> pos j = pos i -> v j = v i) ->
  pos i < length sto ->
  nth (pos i) (fold_left (fun sto j => list_set sto (pos j) (v j)) l sto) 0%Z = v i.
Proof.
  induction l as [|a l IH]; intros sto Hin Hall Hk; [destruct Hin|].
  cbn [fold_left].
  destruct (Nat.eq_dec (pos a) (pos i)) as [E|E].
  - apply fold_set_stable.
    + intros j Hj. apply Hall. now right.
    + now rewrite list_set_length.
    + rewrite E, nth_list_set_same by exact Hk. apply Hall; [now left | exact E].
  - destruct Hin as [->|Hin]; [congruence|].
    apply IH; [exact Hin | | now rewrite list_set_length].
    intros j Hj. apply Hall. now right.
Qed.

Lemma indices_in_bounds shp : forall idx, In idx (indices shp) -> in_bounds idx shp = true.
Proof.
  induction shp as [|n shp IH]; intros idx Hin.
  - destruct Hin as [<-|[]]. reflexivity.
  - rewrite indices_cons in Hin. apply in_flat_map in Hin as (i & Hi & Hin).
    apply in_map_iff in Hin as (idx' & <- & Hin'). apply in_seq in Hi.
    cbn [in_bounds]. rewrite (IH _ Hin'), andb_true_r. apply Nat.ltb_lt. lia.
Qed.

Lemma in_bounds_indices shp idx : in_bounds idx shp = true -> In idx (indices shp).
Proof.
  intros Hb. rewrite <- (@nth_indices idx shp [] Hb).
  apply nth_In. rewrite indices_length. now apply ravel_lt.
Qed.

Lemma ravel_injective shp i j :
  in_bounds i shp = true -> in_bounds j shp = true ->
  ravel i shp = ravel j shp -> i = j.
Proof.
  intros Hi Hj E.
  rewrite <- (@nth_indices i shp [] Hi), <- (@nth_indices j shp [] Hj). now rewrite E.
Qed.

Lemma shape_eqb_refl s : shape_eqb s s = true.
Proof.
  unfold shape_eqb. rewrite Nat.eqb_refl. cbn [andb].
  induction s as [|a s IH]; [reflexivity|].
  cbn [combine forallb fst snd]. now rewrite Nat.eqb_refl, IH.
Qed.

Lemma to_list_length t : length (to_list t) = numel (shape t).
Proof. unfold to_list. now rewrite length_map, indices_length. Qed.

Lemma nth_poke_same h : forall id sto, id < length h -> nth id (poke h id sto) [] = sto.
Proof.
  induction h as [|s0 h0 IH]; intros [|n] sto Hn; simpl in *; try lia; auto.
  apply IH. lia.
Qed.

Lemma deref_poke_same h a sto :
  valid_ref h a ->
  deref (poke h (sid a) sto) a = mkTensor sto (ref_offset a) (ref_shape a) (ref_stride a).
Proof.
  intros Hv. unfold deref. now rewrite nth_poke_same.
Qed.

(** [a += c] on a tensor that owns a contiguous storage, [c] of the same
    shape living elsewhere. *)
Lemma iadd_contiguous g a c h :
  requires_grad a = false ->
  ref_offset a = 0 -> ref_stride a = contiguous_strides (ref_shape a) ->
  length (nth (sid a) h []) = numel (ref_shape a) ->
  valid_ref h a -> ref_shape c = ref_shape a -> sid c <> sid a ->
  exists h',
    iadd g a c h = Ok h' /\
    forall idx, in_bounds idx (ref_shape a) = true ->
      rd (deref h' a) idx = (rd (deref h a) idx + rd (deref h c) idx)%Z.
Proof.
  intros Hg Hoff Hstr Hlen Hv Hshp Hne.
  unfold iadd. rewrite Hg, andb_false_r, Hshp, broadcast_shapes_same. cbn [bind].
  rewrite shape_eqb_refl. eexists. split; [reflexivity|].
  intros idx Hidx.
  rewrite deref_poke_same by exact Hv.
  unfold rd at 1. cbn [storage offset stride].
  set (v := fun j => (rd (deref h a) j + rd (deref h c) (broadcast_index (ref_shape a) j))%Z).
  set (pos := fun j => ref_offset a + dot j (ref_stride a)).
  change (nth (pos idx)
            (fold_left (fun sto j => list_set sto (pos j) (v j))
                       (indices (ref_shape a)) (storage (deref h a))) 0%Z
          = (rd (deref h a) idx + rd (deref h c) idx)%Z).
  assert (Hpos : forall j, pos j = ravel j (ref_shape a)).
  { intros j. unfold pos, ravel. now rewrite Hoff, Hstr. }
  rewrite fold_set_written.
  - unfold v. now rewrite broadcast_index_self.
  - now apply in_bounds_indices.
  - intros j Hj Epos. rewrite !Hpos in Epos.
    apply indices_in_bounds in Hj.
    now rewrite (@ravel_injective (ref_shape a) j idx Hj Hidx Epos).
  - rewrite Hpos. cbn [deref storage]. rewrite Hlen. now apply ravel_lt.
Qed.

(** X7. After [set_weights(W, b)], [update_weights(dW, db)] with increments of the
    shapes of [W] and [b] returns, whether or not autograd records; the
    layer's parameters then hold [W + dW] and [b + db] entry by entry, and
    every tensor the caller held is as it was. *)
Theorem update_weights_adds_in_place
        (self : nn_convolutional_layer.layer tref) (h : heap)
        (Wc bc dW db : tref) (g : bool) h1 self' :
  valid_ref h Wc -> valid_ref h bc -> valid_ref h dW -> valid_ref h db ->
  ref_shape dW = ref_shape Wc -> ref_shape db = ref_shape bc ->
  nn_convolutional_layer.set_weights self Wc bc h = (h1, self') ->
  exists h2,
    nn_convolutional_layer.update_weights g self' dW db h1 = Ok h2 /\
    (forall idx, in_bounds idx (ref_shape Wc) = true ->
       rd (deref h2 (nn_convolutional_layer.W self')) idx
       = (rd (deref h Wc) idx + rd (deref h dW) idx)%Z) /\
    (forall idx, in_bounds idx (ref_shape bc) = true ->
       rd (deref h2 (nn_convolutional_layer.b self')) idx
       = (rd (deref h bc) idx + rd (deref h db) idx)%Z) /\
    (forall r, valid_ref h r -> deref h2 r = deref h r).
Proof.
  intros HWc Hbc HdW Hdb SW Sb E.
  destruct (@two_clones h Wc bc HWc Hbc) as (Sw & Sc & Iw & Ic & Hext).
  unfold nn_convolutional_layer.set_weights in E. cbv zeta in Sw, Sc, Iw, Ic, Hext.
  pose proof (@clone_spec Wc h HWc) as (_ & _ & Eh1).
  destruct (clone Wc h) as [h' w'] eqn:E1. cbn [fst snd] in *.
  assert (Hbc' : valid_ref h' bc).
  { unfold valid_ref in *. rewrite Eh1, length_app. simpl. lia. }
  pose proof (@clone_spec bc h' Hbc') as (_ & _ & Eh2).
  destruct (clone bc h') as [h'' c'] eqn:E2. cbn [fst snd] in *.
  injection E as <- <-. cbn [nn_convolutional_layer.W nn_convolutional_layer.b].
  unfold clone in E1, E2. injection E1 as _ <-. injection E2 as _ <-.
  cbn [detach sid ref_offset ref_shape ref_stride requires_grad] in *.
  unfold valid_ref in HWc, Hbc, HdW, Hdb.
  assert (Hlen1 : length h' = S (length h)).
  { rewrite Eh1, length_app. simpl. lia. }
  assert (Hlen2 : length h'' = S (S (length h))).
  { rewrite Eh2, length_app. simpl. lia. }
  set (w := mkRef (length h) 0 (ref_shape Wc) (contiguous_strides (ref_shape Wc))
                  false true) in *.
  set (c := mkRef (length h') 0 (ref_shape bc) (contiguous_strides (ref_shape bc))
                  false true) in *.
  destruct (@iadd_contiguous g w dW h'') as (k1 & Ek1 & Hk1).
  - reflexivity.
  - reflexivity.
  - reflexivity.
  - cbn [w sid ref_shape]. rewrite Eh2, app_nth1 by lia.
    rewrite Eh1, nth_middle. apply to_list_length.
  - unfold valid_ref. cbn [w sid]. lia.
  - exact SW.
  - cbn [w sid]. lia.
  - destruct (@iadd_frame g w dW h'' k1 c Ek1 ltac:(cbn [w c sid]; lia)) as [Lk1 Dc].
    destruct (@iadd_contiguous g c db k1) as (k2 & Ek2 & Hk2).
    + reflexivity.
    + reflexivity.
    + reflexivity.
    + change (nth (sid c) k1 []) with (storage (deref k1 c)). rewrite Dc.
      cbn [deref storage c sid ref_shape]. rewrite Eh2, Hlen1.
      replace (S (length h)) with (length h') by lia. rewrite nth_middle.
      apply to_list_length.
    + unfold valid_ref. cbn [c sid]. lia.
    + exact Sb.
    + cbn [c sid]. lia.
    + exists k2. unfold nn_convolutional_layer.update_weights.
      cbn [nn_convolutional_layer.W nn_convolutional_layer.b].
      unfold detach. cbn [sid ref_offset ref_shape ref_stride]. fold w c.
      rewrite Ek1. cbn [bind]. split; [exact Ek2|].
      assert (Hold : forall r, valid_ref h r -> deref k2 r = deref h r).
      { intros r Hr. unfold valid_ref in Hr.
        destruct (@iadd_frame g c db k1 k2 r Ek2 ltac:(cbn [c sid]; lia)) as [_ ->].
        destruct (@iadd_frame g w dW h'' k1 r Ek1 ltac:(cbn [w sid]; lia)) as [_ ->].
        now apply Hext. }
      split; [|split; [|exact Hold]].
      * intros idx Hidx.
        destruct (@iadd_frame g c db k1 k2 w Ek2 ltac:(cbn [w c sid]; lia)) as [_ ->].
        rewrite Hk1 by exact Hidx.
        destruct Sw as [_ Sw]. rewrite Sw by exact Hidx.
        now rewrite (Hext dW HdW).
      * intros idx Hidx. rewrite Hk2 by exact Hidx.
        rewrite Dc. destruct Sc as [_ Sc]. rewrite Sc by exact Hidx.
        destruct (@iadd_frame g w dW h'' k1 db Ek1 ltac:(cbn [w sid]; lia)) as [_ ->].
        now rewrite (Hext db Hdb).
Qed.

Lemma update_weights_adds_in_place_witness :
  exists h2,
    nn_convolutional_layer.update_weights true
      (snd example_reset)
      (nn_convolutional_layer.W example_instance)
      (nn_convolutional_layer.b example_instance)
      (fst example_reset)
    = Ok h2 /\
    rd (deref h2 (nn_convolutional_layer.W
                    (snd example_reset)))
       [0; 0; 1; 1] = 8%Z.
Proof.
  destruct (@update_weights_adds_in_place example_instance example_heap
              (nn_convolutional_layer.W example_instance)
              (nn_convolutional_layer.b example_instance)
              (nn_convolutional_layer.W example_instance)
              (nn_convolutional_layer.b example_instance)
              true (fst example_reset) (snd example_reset)
              ltac:(unfold valid_ref; simpl; lia) ltac:(unfold valid_ref; simpl; lia)
              ltac:(unfold valid_ref; simpl; lia) ltac:(unfold valid_ref; simpl; lia)
              eq_refl eq_refl eq_refl)
    as (h2 & E & HW & _).
  exists h2. split; [exact E|].
  rewrite (HW [0; 0; 1; 1] eq_refl). reflexivity.
Defined.

Lemma same_contents_trans t1 t2 t3 :
  same_contents t1 t2 -> same_contents t2 t3 -> same_contents t1 t3.
Proof.
  intros [S12 H12] [S23 H23]. split; [congruence|].
  intros idx Hidx. rewrite H12 by exact Hidx. apply H23. now rewrite <- S12.
Qed.

(** X8. [get_weights] after [set_weights(W, b)] returns tensors with the contents
    of [W] and [b], in storages that are neither the layer's nor the
    caller's. *)
Theorem set_then_get_returns_the_weights
        (self : nn_convolutional_layer.layer tref) (h : heap) (Wc bc : tref)
        h1 self' h2 w c :
  valid_ref h Wc -> valid_ref h bc ->
  nn_convolutional_layer.set_weights self Wc bc h = (h1, self') ->
  nn_convolutional_layer.get_weights self' h1 = (h2, (w, c)) ->
  same_contents (deref h2 w) (deref h Wc) /\
  same_contents (deref h2 c) (deref h bc) /\
  sid w <> sid (nn_convolutional_layer.W self') /\
  sid c <> sid (nn_convolutional_layer.b self') /\
  sid w <> sid Wc /\ sid c <> sid bc.
Proof.
  intros HWc Hbc Eset Eget.
  destruct (@two_clones h Wc bc HWc Hbc) as (Sw & Sc & Iw & Ic & Hext).
  unfold nn_convolutional_layer.set_weights in Eset. cbv zeta in Sw, Sc, Iw, Ic, Hext.
  pose proof (@clone_spec Wc h HWc) as (_ & _ & Eh1).
  destruct (clone Wc h) as [h' w'] eqn:E1. cbn [fst snd] in *.
  assert (Hbc' : valid_ref h' bc).
  { unfold valid_ref in *. rewrite Eh1, length_app. simpl. lia. }
  pose proof (@clone_spec bc h' Hbc') as (_ & _ & Eh2).
  destruct (clone bc h') as [h'' c'] eqn:E2. cbn [fst snd] in *.
  injection Eset as <- <-.
  cbn [nn_convolutional_layer.W nn_convolutional_layer.b] in *.
  assert (Hlen : length h'' = S (S (length h))).
  { rewrite Eh2, length_app, Eh1, length_app. simpl. lia. }
  assert (Vw : valid_ref h'' (detach w')) by (unfold valid_ref; lia).
  assert (Vc : valid_ref h'' (detach c')) by (unfold valid_ref; lia).
  destruct (@two_clones h'' (detach w') (detach c') Vw Vc) as (Tw & Tc & Jw & Jc & _).
  unfold nn_convolutional_layer.get_weights in Eget.
  cbn [nn_convolutional_layer.W nn_convolutional_layer.b] in Eget.
  cbv zeta in Tw, Tc, Jw, Jc.
  destruct (clone (detach w') h'') as [k1 w1] eqn:E3. cbn [fst snd] in *.
  destruct (clone (detach c') k1) as [k2 c1] eqn:E4. cbn [fst snd] in *.
  injection Eget as <- <- <-.
  unfold valid_ref in HWc, Hbc.
  split; [eapply same_contents_trans; eassumption|].
  split; [eapply same_contents_trans; eassumption|].
  repeat split; lia.
Qed.

Lemma set_then_get_returns_the_weights_witness :
  same_contents
    (deref (fst example_copies)
           (fst (snd example_copies)))
    (deref example_heap (nn_convolutional_layer.W example_instance)).
Proof.
  refine (proj1 (@set_then_get_returns_the_weights example_instance example_heap
                   (nn_convolutional_layer.W example_instance)
                   (nn_convolutional_layer.b example_instance)
                   (fst example_reset) (snd example_reset)
                   (fst example_copies) (fst (snd example_copies)) (snd (snd example_copies))
                   _ _ eq_refl eq_refl));
    unfold valid_ref; simpl; lia.
Defined.

(** ** The window view holds no copy *)

(** X9. The window view is no copy: element [j] of window [i] is the storage
    cell of the input element at [i * step + j], so overlapping windows share
    their cells. *)
Theorem window_view_shares_cells t window_shape step :
  tensor_ok t -> well_formed t window_shape step ->
  let N := length (shape t) in
  let ws := broadcast_arg window_shape N in
  let st := broadcast_arg step N in
  exists v,
    view_as_windows (Tensor t) window_shape step = Ok v /\
    storage v = storage t /\
    forall i j,
      in_bounds i (positions (shape t) ws st) = true ->
      in_bounds j (map Z.to_nat ws) = true ->
      offset v + dot (i ++ j) (stride v)
      = offset t + dot (window_index i j st) (stride t).
Proof.
  intros Hok Hwf N ws st.
  destruct (well_formed_valid Hwf) as [Hv Hstep]. fold N ws st in Hv.
  exists (window_view t ws st). split; [now apply view_as_windows_valid|].
  split; [reflexivity|].
  intros i j Hi Hj. cbn [window_view offset stride]. f_equal.
  destruct (valid_dims_length Hv) as [Hlw Hls]. destruct Hok as [Hlen _].
  apply in_bounds_length in Hi, Hj.
  rewrite (@positions_length _ _ _ Hv) in Hi. rewrite length_map in Hj.
  rewrite dot_app by (rewrite stepped_strides_length; lia).
  apply window_offset; lia.
Qed.

Lemma window_view_shares_cells_witness :
  exists v,
    view_as_windows (Tensor (arange 5)) (Number 3) (Number 1) = Ok v /\
    offset v + dot [0; 1] (stride v) = offset v + dot [1; 0] (stride v).
Proof.
  assert (Hok : tensor_ok (arange 5)) by (split; reflexivity).
  assert (Hwf : well_formed (arange 5) (Number 3) (Number 1)).
  { repeat split.
    - intros H. apply H. reflexivity.
    - simpl. lia.
    - apply too_large_check. reflexivity.
    - apply too_small_check. reflexivity. }
  destruct (@window_view_shares_cells (arange 5) (Number 3) (Number 1) Hok Hwf)
    as (v & E & _ & H).
  exists v. split; [exact E|].
  pose proof (H [0] [1] eq_refl eq_refl) as H1.
  pose proof (H [1] [0] eq_refl eq_refl) as H2.
  cbn [app] in H1, H2. rewrite H1, H2. reflexivity.
Defined.

(** ** Further properties of the positional encoding and the encoder *)

Lemma INR_mod2 i : INR (i mod 2) = 0%R \/ INR (i mod 2) = 1%R.
Proof.
  assert (H : i mod 2 = 0 \/ i mod 2 = 1)
    by (pose proof (Nat.mod_upper_bound i 2 ltac:(lia)); lia).
  destruct H as [-> | ->]; [left | right]; reflexivity.
Qed.

(** X10. A positional encoding with at least one position and one dimension
    is returned, and every entry of a table that is returned is a finite
    number between -1 and 1. *)
Theorem PosEncoding_is_bounded (t_len d_model : nat) :
  (1 <= t_len -> 1 <= d_model -> returns (PosEncoding t_len d_model)) /\
  (forall pe, PosEncoding t_len d_model = Ok pe ->
     forall pos i, exists r, elem pe [pos; i] = Fin r /\ (-1 <= r <= 1)%R).
Proof.
  split.
  - intros Ht Hd. rewrite PosEncoding_ok by assumption. now eexists.
  - unfold PosEncoding. intros pe E pos i.
    destruct (xorb (t_len =? 0) (d_model =? 0)); [discriminate|].
    injection E as <-. cbn [elem]. eexists. split; [reflexivity|].
    unfold PosEncoding_value.
    destruct (INR_mod2 i) as [-> | ->].
    + match goal with |- context [sin ?a] => pose proof (SIN_bound a) end. lra.
    + match goal with |- context [cos ?a] => pose proof (COS_bound a) end. lra.
Qed.

Lemma PosEncoding_is_bounded_witness :
  exists pe,
    PosEncoding 2 4 = Ok pe /\
    exists r, elem pe [1; 3] = Fin r /\ (-1 <= r <= 1)%R.
Proof.
  destruct (@PosEncoding_is_bounded 2 4) as [Hret Hb].
  destruct (Hret ltac:(lia) ltac:(lia)) as (pe & E).
  exists pe. split; [exact E | exact (Hb pe E 1 3)].
Defined.

Lemma Dropout_init_ok p tr :
  (0 <= p <= 1)%R -> Dropout_init p tr = Ok (mkDropout p tr).
Proof.
  intros Hp. unfold Dropout_init.
  destruct (Rlt_dec p 0); [lra|]. destruct (Rlt_dec 1 p); [lra|]. reflexivity.
Qed.

Lemma Dropout_init_bad p tr :
  (p < 0 \/ 1 < p)%R -> raises (Dropout_init p tr) KValue.
Proof.
  intros Hp. unfold Dropout_init.
  destruct (Rlt_dec p 0); [eexists; split; reflexivity|].
  destruct (Rlt_dec 1 p); [eexists; split; reflexivity|]. lra.
Qed.

Lemma block_init_returns D d_ff h p tr w :
  (0 <= p <= 1)%R -> 1 <= h -> returns (TF_Encoder_Block.init D d_ff h p tr w).
Proof.
  intros Hp Hh. unfold TF_Encoder_Block.init, TF_Encoder_Block.floordiv.
  replace (h =? 0) with false by (symmetry; apply Nat.eqb_neq; lia).
  cbn [bind]. unfold MultiHeadAttention.init.
  rewrite !Dropout_init_ok by exact Hp. cbn [bind]. eexists. reflexivity.
Qed.

Lemma make_layers_returns D d_ff h p tr w n : forall k,
  (0 <= p <= 1)%R -> 1 <= h -> returns (TF_Encoder.make_layers D d_ff h p tr w k n).
Proof.
  induction n as [|n IH]; intros k Hp Hh; cbn [TF_Encoder.make_layers].
  - eexists. reflexivity.
  - destruct (@block_init_returns D d_ff h p tr (w k) Hp Hh) as [blk ->].
    cbn [bind]. destruct (IH (S k) Hp Hh) as [rest ->]. cbn [bind].
    eexists. reflexivity.
Qed.

(** X11. The constructor of the encoder raises ValueError for a dropout
    probability outside [0, 1]; with a valid probability and at least one
    layer it raises ZeroDivisionError for zero heads, as the constructor of a
    block always does; otherwise it returns. *)
Theorem encoder_init_errors vocab D d_ff n h (p : R) tr emb w :
  ((p < 0 \/ 1 < p)%R ->
   raises (TF_Encoder.init vocab D d_ff n h p tr emb w) KValue) /\
  ((0 <= p <= 1)%R -> 1 <= n -> h = 0 ->
   raises (TF_Encoder.init vocab D d_ff n h p tr emb w) KZeroDivision) /\
  (h = 0 -> raises (TF_Encoder_Block.init D d_ff h p tr (w 0)) KZeroDivision) /\
  ((0 <= p <= 1)%R -> 1 <= h \/ n = 0 ->
   returns (TF_Encoder.init vocab D d_ff n h p tr emb w)).
Proof.
  split; [|split; [|split]].
  - intros Hp. unfold TF_Encoder.init. apply raises_bind_l. now apply Dropout_init_bad.
  - intros Hp Hn ->. unfold TF_Encoder.init. rewrite Dropout_init_ok by exact Hp.
    cbn [bind]. apply raises_bind_l.
    destruct n as [|n]; [lia|]. cbn [TF_Encoder.make_layers].
    apply raises_bind_l. unfold TF_Encoder_Block.init. apply raises_bind_l.
    eexists. split; reflexivity.
  - intros ->. unfold TF_Encoder_Block.init. apply raises_bind_l.
    eexists. split; reflexivity.
  - intros Hp Hh. unfold TF_Encoder.init. rewrite Dropout_init_ok by exact Hp.
    cbn [bind]. destruct Hh as [Hh | ->].
    + destruct (@make_layers_returns D d_ff h p tr w n 0 Hp Hh) as [layers ->].
      cbn [bind]. eexists. reflexivity.
    + cbn [TF_Encoder.make_layers bind]. eexists. reflexivity.
Qed.

Lemma encoder_init_errors_witness :
  raises (TF_Encoder.init 1 1 1 1 1 2 false (fun _ _ => Fin 0)
                          (fun _ => zero_block_params)) KValue /\
  raises (TF_Encoder.init 1 1 1 1 0 0 false (fun _ _ => Fin 0)
                          (fun _ => zero_block_params)) KZeroDivision /\
  returns (TF_Encoder.init 1 1 1 0 0 0 false (fun _ _ => Fin 0)
                           (fun _ => zero_block_params)).
Proof.
  split; [|split].
  - apply (proj1 (encoder_init_errors 1 1 1 1 1 2 false (fun _ _ => Fin 0)
                    (fun _ => zero_block_params))).
    right. lra.
  - apply (proj1 (proj2 (encoder_init_errors 1 1 1 1 0 0 false (fun _ _ => Fin 0)
                           (fun _ => zero_block_params)))).
    + lra.
    + lia.
    + reflexivity.
  - apply (proj2 (proj2 (proj2 (encoder_init_errors 1 1 1 0 0 0 false (fun _ _ => Fin 0)
                                  (fun _ => zero_block_params))))).
    + lra.
    + right. reflexivity.
Defined.

(** X12. An encoder without blocks raises UnboundLocalError on a batch it can
    embed (reviews of at least one token of the vocabulary, a model dimension
    of at least 1): the loop never binds the result. *)
Theorem encoder_without_layers_raises enc rng x lens B S :
  TF_Encoder.encoder_layers enc = [] ->
  1 <= S -> 1 <= embedding_dim (TF_Encoder.src_embed enc) ->
  ishape x = [B; S] ->
  tokens_in_vocab x (num_embeddings (TF_Encoder.src_embed enc)) ->
  raises (TF_Encoder.forward enc rng x lens) KUnbound.
Proof.
  intros Hl HS HD Hx Htok. unfold TF_Encoder.forward.
  destruct (@embed_shape enc rng x B S HS HD Hx Htok) as (x0 & -> & _).
  cbn [bind]. rewrite Hl. cbn [TF_Encoder.layers_loop bind].
  eexists. split; reflexivity.
Qed.

(** X13. A token id that is negative or not below the vocabulary size makes the
    forward pass of the encoder raise IndexError. *)
Theorem encoder_rejects_unknown_token enc rng x lens idx :
  In idx (indices (ishape x)) ->
  (ielem x idx < 0 \/ Z.of_nat (num_embeddings (TF_Encoder.src_embed enc)) <= ielem x idx)%Z ->
  raises (TF_Encoder.forward enc rng x lens) KIndex.
Proof.
  intros Hin Hbad. unfold TF_Encoder.forward, TF_Encoder.embed.
  do 2 apply raises_bind_l. unfold Embedding_forward.
  match goal with |- context [forallb ?f ?l] => destruct (forallb f l) eqn:E end.
  - rewrite forallb_forall in E. specialize (E idx Hin).
    apply andb_prop in E as [E1 E2].
    apply Z.leb_le in E1. apply Z.ltb_lt in E2. lia.
  - eexists. split; reflexivity.
Qed.



Lemma encoder_without_layers_raises_witness :
  raises (TF_Encoder.forward empty_encoder (fun _ _ => true) one_token (Some [1%Z]))
         KUnbound.
Proof.
  apply (@encoder_without_layers_raises empty_encoder (fun _ _ => true) one_token
           (Some [1%Z]) 1 1 eq_refl ltac:(lia) ltac:(simpl; lia) eq_refl).
  intros idx _. simpl. lia.
Defined.

Lemma encoder_rejects_unknown_token_witness :
  raises (TF_Encoder.forward empty_encoder (fun _ _ => true) unknown_token None) KIndex.
Proof.
  apply (@encoder_rejects_unknown_token empty_encoder (fun _ _ => true) unknown_token
           None [0; 0]).
  - simpl. auto.
  - right. simpl. lia.
Defined.


(** ** Further properties of the attention *)

Lemma mask_loop_too_long lens : forall mask i B H Q K rest,
  mshape mask = B :: H :: Q :: K :: rest ->
  i <= B -> B < i + length lens ->
  raises (MultiHeadAttention.mask_loop mask i lens) KIndex.
Proof.
  induction lens as [|len lens IH]; intros mask i B H Q K rest Hm Hi Hlen.
  - simpl in Hlen. lia.
  - cbn [MultiHeadAttention.mask_loop]. unfold mask_setitem. rewrite Hm.
    destruct (i <? B) eqn:E.
    + cbn [bind]. apply Nat.ltb_lt in E.
      eapply IH; [cbn [mshape]; reflexivity | lia | simpl in Hlen; lia].
    + eexists. split; reflexivity.
Qed.

(** X15. A length vector with more entries than the batch has elements makes the
    attention raise IndexError. *)
Theorem attention_rejects_extra_lengths D dq dk dv h p tr w self keep B S x_Q x_K x_V lens :
  MultiHeadAttention.init D dq dk dv h p tr w = Ok self ->
  dq = dk ->
  rshape x_Q = [B; S; D] -> rshape x_K = [B; S; D] -> rshape x_V = [B; S; D] ->
  B < length lens ->
  raises (MultiHeadAttention.forward self keep x_Q x_K x_V (Some lens)) KIndex.
Proof.
  intros Einit Hqk HQ HK HV Hlen.
  destruct (init_built _ _ _ _ _ _ _ _ Einit) as (Hb & Eq & Ek & Ev & Eh).
  destruct Hb as (HWQ & HWK & HWV & HWO).
  destruct (@scores_and_values_spec self B S D HWQ HWK HWV
              ltac:(congruence) x_Q x_K x_V HQ HK HV)
    as (scores & V & Es & Ss & _).
  unfold MultiHeadAttention.forward, MultiHeadAttention.forward_with_attention.
  apply raises_bind_l. rewrite Es. cbn [bind].
  unfold MultiHeadAttention.attend. do 2 apply raises_bind_l.
  eapply mask_loop_too_long.
  - cbn [zeros_like_bool mshape]. exact Ss.
  - lia.
  - lia.
Qed.

Lemma attention_rejects_extra_lengths_witness :
  raises (MultiHeadAttention.forward tiny_attention (fun _ => true)
            tiny_input tiny_input tiny_input (Some [1%Z; 1%Z])) KIndex.
Proof.
  apply (@attention_rejects_extra_lengths 1 1 1 1 1 0%R false zero_params tiny_attention
           (fun _ => true) 1 1 tiny_input tiny_input tiny_input [1%Z; 1%Z]
           tiny_attention_init eq_refl);
    try reflexivity; simpl; lia.
Defined.

(** ** Shapes the attention does not accept *)

Lemma infer_size_of_nat_mismatch shp n :
  numel shp <> n -> raises (infer_size (map Z.of_nat shp) n) KRuntime.
Proof.
  intros H. unfold infer_size.
  assert (E1 : existsb (fun d => d <? -1)%Z (map Z.of_nat shp) = false).
  { induction shp as [|a shp IH] in |- *; [reflexivity|].
    cbn [map existsb]. rewrite IH, orb_false_r. apply Z.ltb_ge. lia. }
  assert (E2 : count_occ Z.eq_dec (map Z.of_nat shp) (-1)%Z = 0).
  { apply count_occ_not_In. intros Hin. apply in_map_iff in Hin as [a [Ha _]]. lia. }
  rewrite E1, E2, to_nat_of_nat.
  replace (numel shp =? n) with false by (symmetry; now apply Nat.eqb_neq).
  eexists. split; reflexivity.
Qed.

(** X16. The constructor accepts a query width different from the key width;
    the forward pass of such a module raises RuntimeError. *)
Theorem attention_needs_equal_query_and_key_widths
        D dq dk dv h p tr w self keep B S x_Q x_K x_V lens :
  MultiHeadAttention.init D dq dk dv h p tr w = Ok self ->
  dq <> dk ->
  rshape x_Q = [B; S; D] -> rshape x_K = [B; S; D] -> rshape x_V = [B; S; D] ->
  raises (MultiHeadAttention.forward self keep x_Q x_K x_V lens) KRuntime.
Proof.
  intros Einit Hne HxQ HxK HxV.
  destruct (init_built _ _ _ _ _ _ _ _ Einit) as (Hb & Eq & Ek & Ev & Eh).
  destruct Hb as (HWQ & HWK & HWV & _).
  unfold MultiHeadAttention.forward, MultiHeadAttention.forward_with_attention.
  do 2 apply raises_bind_l.
  unfold MultiHeadAttention.scores_and_values, unpack3. rewrite HxQ. cbn [bind].
  destruct (@project_heads self B S D (MultiHeadAttention.W_Q self) x_Q
              (MultiHeadAttention.d_Q self) (proj1 HWQ) (proj2 HWQ) HxQ)
    as (Q & EQ & SQ).
  destruct (@project_heads self B S D (MultiHeadAttention.W_K self) x_K
              (MultiHeadAttention.d_K self) (proj1 HWK) (proj2 HWK) HxK)
    as (K & EK & SK).
  destruct (@project_heads self B S D (MultiHeadAttention.W_V self) x_V
              (MultiHeadAttention.d_V self) (proj1 HWV) (proj2 HWV) HxV)
    as (V & EV & SV).
  destruct (Linear_forward (MultiHeadAttention.W_Q self) x_Q) as [q1|]; [|discriminate].
  cbn [bind] in EQ |- *.
  destruct (view q1 _) as [q2|]; [|discriminate]. cbn [bind] in EQ |- *.
  rewrite EQ. cbn [bind].
  destruct (Linear_forward (MultiHeadAttention.W_K self) x_K) as [k1|]; [|discriminate].
  cbn [bind] in EK |- *.
  destruct (view k1 _) as [k2|]; [|discriminate]. cbn [bind] in EK |- *.
  rewrite EK. cbn [bind].
  destruct (Linear_forward (MultiHeadAttention.W_V self) x_V) as [v1|]; [|discriminate].
  cbn [bind] in EV |- *.
  destruct (view v1 _) as [v2|]; [|discriminate]. cbn [bind] in EV |- *.
  rewrite EV. cbn [bind].
  destruct (@transpose_last_two K B (MultiHeadAttention.numhead self) S
              (MultiHeadAttention.d_K self) SK) as (Kt & EKt & SKt & _).
  rewrite EKt. cbn [bind]. apply raises_bind_l.
  unfold matmul, matmul2. rewrite SQ, SKt. cbn [rev app].
  replace (MultiHeadAttention.d_Q self =? MultiHeadAttention.d_K self) with false
    by (symmetry; apply Nat.eqb_neq; congruence).
  eexists. split; reflexivity.
Qed.

Lemma lopsided_attention_init :
  MultiHeadAttention.init 1 1 2 1 1 0 false zero_params = Ok lopsided_attention.
Proof.
  unfold MultiHeadAttention.init, Dropout_init.
  destruct (Rlt_dec 0 0) as [H|_]; [lra|].
  destruct (Rlt_dec 1 0) as [H|_]; [lra|].
  reflexivity.
Qed.

Lemma attention_needs_equal_query_and_key_widths_witness :
  raises (MultiHeadAttention.forward lopsided_attention (fun _ => true)
            tiny_input tiny_input tiny_input None) KRuntime.
Proof.
  apply (@attention_needs_equal_query_and_key_widths 1 1 2 1 1 0%R false zero_params
           lopsided_attention (fun _ => true) 1 1 tiny_input tiny_input tiny_input None
           lopsided_attention_init); try reflexivity.
  lia.
Defined.

(** X17. The keys are reshaped with the sequence length of the queries: keys of
    another length make the forward pass raise RuntimeError. *)
Theorem attention_needs_keys_as_long_as_queries
        D dq dk dv h p tr w self keep B S S' x_Q x_K x_V lens :
  MultiHeadAttention.init D dq dk dv h p tr w = Ok self ->
  1 <= B -> 1 <= h -> 1 <= dk -> S' <> S ->
  rshape x_Q = [B; S; D] -> rshape x_K = [B; S'; D] ->
  raises (MultiHeadAttention.forward self keep x_Q x_K x_V lens) KRuntime.
Proof.
  intros Einit HB Hh Hdk Hne HxQ HxK.
  destruct (init_built _ _ _ _ _ _ _ _ Einit) as (Hb & Eq & Ek & Ev & Eh).
  destruct Hb as (HWQ & HWK & _ & _).
  unfold MultiHeadAttention.forward, MultiHeadAttention.forward_with_attention.
  do 2 apply raises_bind_l.
  unfold MultiHeadAttention.scores_and_values, unpack3. rewrite HxQ. cbn [bind].
  destruct (@project_heads self B S D (MultiHeadAttention.W_Q self) x_Q
              (MultiHeadAttention.d_Q self) (proj1 HWQ) (proj2 HWQ) HxQ)
    as (Q & EQ & SQ).
  destruct (Linear_forward (MultiHeadAttention.W_Q self) x_Q) as [q1|]; [|discriminate].
  cbn [bind] in EQ |- *.
  destruct (view q1 _) as [q2|]; [|discriminate]. cbn [bind] in EQ |- *.
  rewrite EQ. cbn [bind].
  destruct (@Linear_forward_spec (MultiHeadAttention.W_K self) x_K B S'
              ltac:(rewrite (proj1 HWK); exact HxK)) as (k1 & E1 & S1 & _).
  rewrite E1. cbn [bind]. apply raises_bind_l.
  unfold view. apply raises_bind_l.
  change [Z.of_nat B; Z.of_nat S; Z.of_nat (MultiHeadAttention.numhead self);
          Z.of_nat (MultiHeadAttention.d_K self)]
    with (map Z.of_nat [B; S; MultiHeadAttention.numhead self;
                        MultiHeadAttention.d_K self]).
  apply infer_size_of_nat_mismatch.
  rewrite S1, (proj2 HWK), Ek, Eh. cbn [numel fold_right].
  rewrite !Nat.mul_1_r, (Nat.mul_comm dk h). intros E.
  apply Nat.mul_cancel_l in E; [|lia].
  apply Nat.mul_cancel_r in E; [congruence | nia].
Qed.

Lemma attention_needs_keys_as_long_as_queries_witness :
  raises (MultiHeadAttention.forward tiny_attention (fun _ => true)
            tiny_input one_input tiny_input None) KRuntime.
Proof.
  apply (@attention_needs_keys_as_long_as_queries 1 1 1 1 1 0%R false zero_params
           tiny_attention (fun _ => true) 1 1 2 tiny_input one_input tiny_input None
           tiny_attention_init); try reflexivity; lia.
Defined.

(** ** Attention weights are a probability distribution *)

Lemma fold_xadd_Fin ws : forall a,
  fold_left xadd (map Fin ws) (Fin a) = Fin (a + Rsum ws).
Proof.
  induction ws as [|w ws IH]; intros a; cbn [map fold_left Rsum fold_right].
  - f_equal. lra.
  - cbn [xadd]. rewrite IH. f_equal. unfold Rsum. lra.
Qed.

Lemma Rsum_nonneg ws : Forall (fun w => 0 <= w)%R ws -> (0 <= Rsum ws)%R.
Proof.
  induction 1 as [|w ws Hw _ IH]; cbn [Rsum fold_right]; [lra|].
  unfold Rsum in IH. lra.
Qed.

Lemma Rsum_bound ws w :
  Forall (fun w => 0 <= w)%R ws -> In w ws -> (w <= Rsum ws)%R.
Proof.
  induction 1 as [|v ws Hv Hws IH]; intros Hin; [destruct Hin|].
  cbn [Rsum fold_right]. pose proof (Rsum_nonneg Hws) as Hs. unfold Rsum in *.
  destruct Hin as [->|Hin]; [lra|]. specialize (IH Hin). lra.
Qed.

Lemma Rsum_scale ws c : Rsum (map (fun w => w / c)%R ws) = (Rsum ws / c)%R.
Proof.
  induction ws as [|w ws IH]; cbn [map Rsum fold_right].
  - unfold Rdiv. ring.
  - unfold Rsum in IH. rewrite IH. unfold Rdiv. ring.
Qed.

(** The softmax of a row of finite or masked scores, one of them finite:
    nonnegative real weights that sum to one. *)
Lemma softmax_row_weights row :
  Forall finite_or_masked row -> Exists finite row ->
  exists ws, softmax_row row = map Fin ws /\
             Forall (fun w => 0 <= w <= 1)%R ws /\ Rsum ws = 1%R.
Proof.
  intros Hall Hex. destruct row as [|x row]; [inversion Hex|].
  unfold softmax_row.
  assert (Hm : finite (fold_left xmax row x)).
  { inversion Hall; subst. apply fold_xmax_row; try assumption.
    inversion Hex; subst; [now left | now right]. }
  destruct Hm as [m Hm]. rewrite Hm.
  set (f := fun v => xexp (xsub v (Fin m))).
  assert (He : exists es, map f (x :: row) = map Fin es /\
                          Forall (fun e => 0 <= e)%R es /\ (0 < Rsum es)%R).
  { assert (Hgen : forall l, Forall finite_or_masked l ->
              exists es, map f l = map Fin es /\ Forall (fun e => 0 <= e)%R es /\
                         (Exists finite l -> 0 < Rsum es)%R).
    { induction l as [|v l IH]; intros Hl.
      - exists []. repeat split; [constructor | intros H; inversion H].
      - inversion Hl as [|? ? Hv Hl']; subst.
        destruct (IH Hl') as (es & E & Hes & Hpos).
        pose proof (Rsum_nonneg Hes) as Hs.
        destruct Hv as [->|[r ->]].
        + exists (0%R :: es). cbn [map]. rewrite E. repeat split.
          * constructor; [lra | exact Hes].
          * intros H. cbn [Rsum fold_right]. unfold Rsum in Hpos.
            inversion H as [? ? [s Hs']|? ? Hx]; subst; [discriminate|].
            specialize (Hpos Hx). lra.
        + exists (exp (r + - m) :: es). cbn [map]. rewrite E. repeat split.
          * constructor; [left; apply exp_pos | exact Hes].
          * intros _. cbn [Rsum fold_right]. pose proof (exp_pos (r + - m)).
            unfold Rsum in Hs. lra. }
    destruct (Hgen (x :: row) Hall) as (es & E & Hes & Hpos).
    exists es. repeat split; [exact E | exact Hes | now apply Hpos]. }
  destruct He as (es & Ees & Hes & Hpos). rewrite Ees.
  unfold xsum. rewrite fold_xadd_Fin, Rplus_0_l.
  exists (map (fun e => e / Rsum es)%R es). split; [|split].
  - rewrite !map_map. apply map_ext. intros e. cbn [xdiv].
    now rewrite (@sign_pos (Rsum es) Hpos).
  - apply Forall_forall. intros w Hw. apply in_map_iff in Hw as (e & <- & He).
    pose proof (@Rsum_bound es e Hes He) as Hb.
    rewrite Forall_forall in Hes. specialize (Hes e He).
    split.
    + apply Rmult_le_pos; [exact Hes | left; now apply Rinv_0_lt_compat].
    + apply Rmult_le_reg_r with (r := Rsum es); [exact Hpos|].
      unfold Rdiv. rewrite Rmult_assoc, Rinv_l by lra. lra.
  - rewrite Rsum_scale. unfold Rdiv. apply Rinv_r. lra.
Qed.

Lemma softmax_row_length row : length (softmax_row row) = length row.
Proof.
  destruct row as [|x row]; [reflexivity|].
  unfold softmax_row. now rewrite !length_map.
Qed.

Lemma masked_score_cases S scores lens b hh q j :
  masked_score S scores lens b hh q j = NegInf \/
  masked_score S scores lens b hh q j = elem scores [b; hh; q; j].
Proof.
  unfold masked_score. destruct lens as [l|]; [|now right].
  destruct ((b <? length l) && (slice_start (nth b l 0%Z) S <=? j)); [now left | now right].
Qed.

Lemma masked_score_first_key S scores lens b hh q :
  1 <= S -> first_key_kept lens b ->
  masked_score S scores lens b hh q 0 = elem scores [b; hh; q; 0].
Proof.
  intros HS Hk. unfold masked_score. destruct lens as [l|]; [|reflexivity].
  destruct (b <? length l) eqn:Eb; [|reflexivity]. cbn [andb].
  apply Nat.ltb_lt in Eb. specialize (Hk Eb).
  replace (slice_start (nth b l 0%Z) S <=? 0) with false; [reflexivity|].
  symmetry. apply Nat.leb_gt. unfold slice_start.
  replace (nth b l 0 <? 0)%Z with false by (symmetry; apply Z.ltb_ge; lia).
  lia.
Qed.

(** X18. For a query whose scores are finite and whose first key is not masked,
    the attention weights over the keys are numbers between 0 and 1 that sum
    to 1. *)
Theorem attention_rows_are_distributions
        D dq dk dv h p tr w self keep B S x_Q x_K x_V lens :
  MultiHeadAttention.init D dq dk dv h p tr w = Ok self ->
  dq = dk -> 1 <= B -> 1 <= S ->
  rshape x_Q = [B; S; D] -> rshape x_K = [B; S; D] -> rshape x_V = [B; S; D] ->
  lens_ok lens B ->
  exists scores V attention out,
    MultiHeadAttention.scores_and_values self x_Q x_K x_V
    = Ok (scores, V, Z.of_nat B, Z.of_nat S) /\
    MultiHeadAttention.forward_with_attention self keep x_Q x_K x_V lens
    = Ok (attention, out) /\
    forall i hh q,
      i < B -> hh < h -> q < S ->
      (forall k, k < S -> finite (elem scores [i; hh; q; k])) ->
      first_key_kept lens i ->
      (forall k, k < S ->
         exists r, elem attention [i; hh; q; k] = Fin r /\ (0 <= r <= 1)%R) /\
      xsum (map (fun k => elem attention [i; hh; q; k]) (seq 0 S)) = Fin 1.
Proof.
  intros Einit Hqk HB HS HQ HK HV Hl.
  destruct (init_built _ _ _ _ _ _ _ _ Einit) as (Hb & Eq & Ek & _ & _).
  destruct (@forward_with_attention_spec self keep D B S x_Q x_K x_V lens
              Hb ltac:(congruence) HB HS HQ HK HV Hl)
    as (scores & V & attention & out & Es & E & _ & Hatt & _).
  exists scores, V, attention, out. split; [exact Es|]. split; [exact E|].
  intros i hh q Hi Hhh Hq Hfin Hkept.
  set (row := map (masked_score S scores lens i hh q) (seq 0 S)).
  assert (Hrow : Forall finite_or_masked row).
  { apply Forall_forall. intros v Hv. apply in_map_iff in Hv as (j & <- & Hj).
    apply in_seq in Hj.
    destruct (masked_score_cases S scores lens i hh q j) as [-> | ->];
      [now left | right; apply Hfin; lia]. }
  assert (Hex : Exists finite row).
  { apply Exists_exists. exists (masked_score S scores lens i hh q 0). split.
    - apply in_map. apply in_seq. lia.
    - rewrite masked_score_first_key by assumption. apply Hfin. lia. }
  destruct (softmax_row_weights Hrow Hex) as (ws & Ews & Hws & Hsum).
  assert (Hlen : length ws = S).
  { apply (f_equal (@length _)) in Ews.
    rewrite softmax_row_length, length_map in Ews. rewrite <- Ews.
    unfold row. now rewrite length_map, length_seq. }
  assert (Helem : forall k, k < S -> elem attention [i; hh; q; k] = Fin (nth k ws 0%R)).
  { intros k Hk. rewrite Hatt. fold row. rewrite Ews.
    rewrite nth_indep with (d' := Fin 0) by (rewrite length_map; lia).
    apply map_nth. }
  split.
  - intros k Hk. exists (nth k ws 0%R). split; [now apply Helem|].
    rewrite Forall_forall in Hws. apply Hws. apply nth_In. lia.
  - replace (map (fun k => elem attention [i; hh; q; k]) (seq 0 S)) with (map Fin ws).
    + unfold xsum. rewrite fold_xadd_Fin, Hsum. f_equal. lra.
    + apply nth_ext with (d := Fin 0) (d' := Fin 0).
      * now rewrite !length_map, length_seq.
      * intros k Hk. rewrite length_map in Hk.
        rewrite (map_nth Fin ws 0%R).
        rewrite nth_map_seq by lia. symmetry. apply Helem. lia.
Qed.

Lemma attention_rows_are_distributions_witness :
  exists attention out,
    MultiHeadAttention.forward_with_attention tiny_attention (fun _ => true)
      one_input one_input one_input (Some [1%Z])
    = Ok (attention, out) /\
    xsum (map (fun k => elem attention [0; 0; 0; k]) (seq 0 2)) = Fin 1.
Proof.
  destruct (@attention_rows_are_distributions 1 1 1 1 1 0%R false zero_params
              tiny_attention (fun _ => true) 1 2 one_input one_input one_input
              (Some [1%Z]) tiny_attention_init eq_refl ltac:(lia) ltac:(lia)
              eq_refl eq_refl eq_refl ltac:(simpl; lia))
    as (scores & V & attention & out & Esc & E & H).
  exists attention, out. split; [exact E|].
  apply (H 0 0 0); try lia.
  - intros k Hk.
    unfold MultiHeadAttention.scores_and_values in Esc.
    cbn in Esc. injection Esc as <- _.
    cbn. unfold xsum. cbn.
    rewrite sqrt_1, (@sign_pos 1%R ltac:(lra)). eexists. reflexivity.
  - simpl. lia.
Defined.

(** X19. Lengths at or beyond the sequence length mask nothing: the attention
    weights are those of a call without lengths. *)
Theorem attention_long_lengths_mask_nothing
        D dq dk dv h p tr w self keep B S x_Q x_K x_V lens :
  MultiHeadAttention.init D dq dk dv h p tr w = Ok self ->
  dq = dk -> 1 <= B -> 1 <= S ->
  rshape x_Q = [B; S; D] -> rshape x_K = [B; S; D] -> rshape x_V = [B; S; D] ->
  length lens <= B ->
  Forall (fun len => Z.of_nat S <= len)%Z lens ->
  exists attention out attention' out',
    MultiHeadAttention.forward_with_attention self keep x_Q x_K x_V (Some lens)
    = Ok (attention, out) /\
    MultiHeadAttention.forward_with_attention self keep x_Q x_K x_V None
    = Ok (attention', out') /\
    forall b hh q k, elem attention [b; hh; q; k] = elem attention' [b; hh; q; k].
Proof.
  intros Einit Hqk HB HS HQ HK HV Hlen Hall.
  destruct (init_built _ _ _ _ _ _ _ _ Einit) as (Hb & Eq & Ek & _ & _).
  destruct (@forward_with_attention_spec self keep D B S x_Q x_K x_V (Some lens)
              Hb ltac:(congruence) HB HS HQ HK HV Hlen)
    as (scores & V & attention & out & Es & E & _ & Hatt & _).
  destruct (@forward_with_attention_spec self keep D B S x_Q x_K x_V None
              Hb ltac:(congruence) HB HS HQ HK HV I)
    as (scores' & V' & attention' & out' & Es' & E' & _ & Hatt' & _).
  rewrite Es in Es'. injection Es' as <- <-.
  exists attention, out, attention', out'. split; [exact E|]. split; [exact E'|].
  intros b hh q k. rewrite Hatt, Hatt'. f_equal. f_equal.
  apply map_ext_in. intros j Hj. apply in_seq in Hj.
  unfold masked_score.
  destruct (b <? length lens) eqn:Eb; [|reflexivity]. cbn [andb].
  apply Nat.ltb_lt in Eb.
  rewrite Forall_forall in Hall.
  pose proof (Hall (nth b lens 0%Z) (nth_In lens 0%Z Eb)) as Hlong.
  replace (slice_start (nth b lens 0%Z) S <=? j) with false; [reflexivity|].
  symmetry. apply Nat.leb_gt. unfold slice_start.
  replace (nth b lens 0 <? 0)%Z with false by (symmetry; apply Z.ltb_ge; lia).
  lia.
Qed.

Lemma attention_long_lengths_mask_nothing_witness :
  exists attention out attention' out',
    MultiHeadAttention.forward_with_attention tiny_attention (fun _ => true)
      one_input one_input one_input (Some [5%Z])
    = Ok (attention, out) /\
    MultiHeadAttention.forward_with_attention tiny_attention (fun _ => true)
      one_input one_input one_input None
    = Ok (attention', out') /\
    elem attention [0; 0; 0; 1] = elem attention' [0; 0; 0; 1].
Proof.
  destruct (@attention_long_lengths_mask_nothing 1 1 1 1 1 0%R false zero_params
              tiny_attention (fun _ => true) 1 2 one_input one_input one_input
              [5%Z] tiny_attention_init eq_refl ltac:(lia) ltac:(lia)
              eq_refl eq_refl eq_refl ltac:(simpl; lia)
              ltac:(repeat constructor; simpl; lia))
    as (a & o & a' & o' & E & E' & H).
  exists a, o, a', o'. split; [exact E|]. split; [exact E'|]. apply H.
Defined.

(** ** Evaluation mode *)

Lemma Dropout_init_training p tr d : Dropout_init p tr = Ok d -> training d = tr.
Proof.
  unfold Dropout_init. destruct (Rlt_dec p 0); [discriminate|].
  destruct (Rlt_dec 1 p); [discriminate|]. intros [= <-]. reflexivity.
Qed.

Lemma block_init_eval D d_ff h p w blk :
  TF_Encoder_Block.init D d_ff h p false w = Ok blk -> eval_mode_block blk.
Proof.
  unfold TF_Encoder_Block.init, TF_Encoder_Block.floordiv, MultiHeadAttention.init.
  intros E. destruct (h =? 0); [discriminate|]. cbn [bind] in E.
  destruct (Dropout_init p false) as [d|] eqn:Ed; [|discriminate]. cbn [bind] in E.
  injection E as <-. apply Dropout_init_training in Ed.
  unfold eval_mode_block. cbn. auto.
Qed.

Lemma make_layers_eval D d_ff h p w n : forall k layers,
  TF_Encoder.make_layers D d_ff h p false w k n = Ok layers ->
  Forall eval_mode_block layers.
Proof.
  induction n as [|n IH]; intros k layers E.
  - injection E as <-. constructor.
  - cbn [TF_Encoder.make_layers] in E.
    destruct (TF_Encoder_Block.init D d_ff h p false (w k)) as [blk|] eqn:Eb;
      [|discriminate].
    cbn [bind] in E.
    destruct (TF_Encoder.make_layers D d_ff h p false w (S k) n) as [rest|] eqn:Er;
      [|discriminate].
    cbn [bind] in E. injection E as <-.
    constructor; [eapply block_init_eval; eassumption | eapply IH; eassumption].
Qed.

Lemma classifier_init_eval vocab D d_ff n h p emb w cw model :
  sentiment_classifier.init vocab D d_ff n h p false emb w cw = Ok model ->
  eval_mode model.
Proof.
  unfold sentiment_classifier.init, TF_Encoder.init. intros E.
  destruct (Dropout_init p false) as [d|] eqn:Ed; [|discriminate]. cbn [bind] in E.
  destruct (TF_Encoder.make_layers D d_ff h p false w 0 n) as [layers|] eqn:El;
    [|discriminate].
  cbn [bind] in E. injection E as <-.
  apply Dropout_init_training in Ed. apply make_layers_eval in El.
  unfold eval_mode, eval_mode_encoder. cbn. auto.
Qed.

Lemma block_forward_eval blk rng rng' x lens :
  eval_mode_block blk ->
  TF_Encoder_Block.forward blk rng x lens = TF_Encoder_Block.forward blk rng' x lens.
Proof.
  intros (H1 & H2 & H3).
  unfold TF_Encoder_Block.forward, TF_Encoder_Block.ff_forward,
    MultiHeadAttention.forward, MultiHeadAttention.forward_with_attention,
    MultiHeadAttention.attend, Dropout_forward.
  rewrite H1, H2, H3. reflexivity.
Qed.

Lemma layers_loop_eval layers rng rng' x lens : forall k out,
  Forall eval_mode_block layers ->
  TF_Encoder.layers_loop layers rng k x lens out
  = TF_Encoder.layers_loop layers rng' k x lens out.
Proof.
  induction layers as [|blk layers IH]; intros k out Hall; [reflexivity|].
  inversion Hall as [|? ? Hblk Hrest]; subst. cbn [TF_Encoder.layers_loop].
  rewrite (@block_forward_eval blk (TF_Encoder.block_noise rng k)
             (TF_Encoder.block_noise rng' k) x lens Hblk).
  destruct (TF_Encoder_Block.forward blk (TF_Encoder.block_noise rng' k) x lens);
    cbn [bind]; [now apply IH | reflexivity].
Qed.

(** X20. With every dropout layer in evaluation mode the logits of the classifier
    do not depend on the random draws. *)
Theorem evaluation_ignores_the_random_draws model :
  eval_mode model ->
  forall rng rng' x x_lens,
    sentiment_classifier.forward model rng x x_lens
    = sentiment_classifier.forward model rng' x x_lens.
Proof.
  intros ((He & Hl) & H1 & H2) rng rng' x x_lens.
  unfold sentiment_classifier.forward, TF_Encoder.forward.
  assert (Eemb : TF_Encoder.embed (sentiment_classifier.encoder model) rng x
                 = TF_Encoder.embed (sentiment_classifier.encoder model) rng' x).
  { unfold TF_Encoder.embed, Dropout_forward. rewrite He. reflexivity. }
  rewrite Eemb.
  destruct (TF_Encoder.embed (sentiment_classifier.encoder model) rng' x) as [x0|];
    [|reflexivity].
  cbn [bind].
  rewrite (@layers_loop_eval _ rng rng' x0 x_lens 0 None Hl).
  assert (Ecls : forall y, sentiment_classifier.classifier_forward model rng y
                           = sentiment_classifier.classifier_forward model rng' y).
  { intros y. unfold sentiment_classifier.classifier_forward, Dropout_forward.
    rewrite H1, H2. reflexivity. }
  destruct (TF_Encoder.layers_loop _ rng' 0 x0 x_lens None) as [[out|]|];
    cbn [bind]; try reflexivity.
  now rewrite Ecls.
Qed.

(** A classifier with a vocabulary of one token, one block and one head. *)
Lemma tiny_classifier :
  { model | sentiment_classifier.init 1 1 1 1 1 0 false (fun _ _ => Fin 0)
              (fun _ => zero_block_params) zero_classifier_params = Ok model }.
Proof.
  unfold sentiment_classifier.init, TF_Encoder.init, TF_Encoder.make_layers,
    TF_Encoder_Block.init, MultiHeadAttention.init.
  rewrite !Dropout_init_zero. cbn. eexists. reflexivity.
Qed.

Lemma evaluation_ignores_the_random_draws_witness :
  sentiment_classifier.forward (proj1_sig tiny_classifier) (fun _ _ => true)
    one_token (Some [1%Z])
  = sentiment_classifier.forward (proj1_sig tiny_classifier) (fun _ _ => false)
      one_token (Some [1%Z]).
Proof.
  apply (@evaluation_ignores_the_random_draws (proj1_sig tiny_classifier)).
  exact (classifier_init_eval _ _ _ _ _ _ _ _ _ (proj2_sig tiny_classifier)).
Defined.

(** ** The input of the first block *)

Lemma broadcast_index_tail S D b pos i :
  pos < S -> i < D -> broadcast_index [S; D] [b; pos; i] = [pos; i].
Proof.
  intros Hp Hi. unfold broadcast_index. cbn [length Nat.sub skipn combine map].
  destruct (Nat.eqb_spec S 1) as [->|_]; destruct (Nat.eqb_spec D 1) as [->|_];
    repeat f_equal; lia.
Qed.

(** X21. In evaluation mode, for reviews of at least one token and a model
    dimension of at least 1, the input of the first block is, entry by entry,
    the embedding of the token plus the positional encoding of its position;
    the embedding is not scaled. *)
Theorem embed_is_embedding_plus_position enc rng x B S :
  training (TF_Encoder.dropout enc) = false ->
  1 <= S -> 1 <= embedding_dim (TF_Encoder.src_embed enc) ->
  ishape x = [B; S] ->
  tokens_in_vocab x (num_embeddings (TF_Encoder.src_embed enc)) ->
  exists x0,
    TF_Encoder.embed enc rng x = Ok x0 /\
    forall b pos i,
      b < B -> pos < S -> i < embedding_dim (TF_Encoder.src_embed enc) ->
      elem x0 [b; pos; i]
      = xadd (emb_weight (TF_Encoder.src_embed enc) (Z.to_nat (ielem x [b; pos])) i)
             (Fin (PosEncoding_value (embedding_dim (TF_Encoder.src_embed enc)) pos i)).
Proof.
  intros Htr HS HD Hx Htok. unfold TF_Encoder.embed, Embedding_forward.
  replace (forallb _ (indices (ishape x))) with true.
  2:{ symmetry. apply forallb_forall. intros idx Hin.
      specialize (Htok idx Hin). apply andb_true_intro. split.
      - apply Z.leb_le. lia.
      - apply Z.ltb_lt. lia. }
  cbn [bind]. unfold Dropout_forward. rewrite Htr.
  unfold shape_at. cbn [rshape]. rewrite Hx.
  cbn [app nth_error bind]. rewrite PosEncoding_ok by assumption. cbn [bind].
  unfold add. cbn [rshape].
  unfold broadcast_shapes. cbn [app rev broadcast_rev bind].
  rewrite !Nat.eqb_refl. cbn [bind rev app].
  eexists. split; [reflexivity|].
  intros b pos i Hb Hpos Hi. cbn [elem].
  rewrite broadcast_index_self by solve_bounds.
  rewrite broadcast_index_tail by assumption.
  reflexivity.
Qed.

Lemma embed_is_embedding_plus_position_witness :
  exists x0,
    TF_Encoder.embed empty_encoder (fun _ _ => true) one_token = Ok x0 /\
    elem x0 [0; 0; 0] = xadd (Fin 0) (Fin (PosEncoding_value 1 0 0)).
Proof.
  destruct (@embed_is_embedding_plus_position empty_encoder (fun _ _ => true)
              one_token 1 1 eq_refl ltac:(lia) ltac:(simpl; lia) eq_refl
              ltac:(intros idx _; simpl; lia))
    as (x0 & E & H).
  exists x0. split; [exact E|].
  apply (H 0 0 0); simpl; lia.
Defined.

(** ** The classifier *)

Lemma add_same_elem (a c : rtensor) s :
  rshape a = s -> rshape c = s ->
  exists r, add a c = Ok r /\ rshape r = s /\
            forall idx, in_bounds idx s = true ->
                        elem r idx = xadd (elem a idx) (elem c idx).
Proof.
  intros Ha Hc. unfold add. rewrite Ha, Hc, broadcast_shapes_same. cbn [bind].
  eexists. split; [reflexivity|]. split; [reflexivity|].
  intros idx Hidx. cbn [elem]. now rewrite broadcast_index_self.
Qed.

Lemma xdiv_nan_l a : xdiv NaN a = NaN.
Proof. reflexivity. Qed.

Lemma LayerNorm_forward_nan (L : LayerNorm) x B S :
  rshape x = [B; S; normalized_shape L] ->
  exists r, LayerNorm_forward L x = Ok r /\ rshape r = [B; S; normalized_shape L] /\
            forall idx, elem x idx = NaN -> elem r idx = NaN.
Proof.
  intros Hx. unfold LayerNorm_forward. rewrite Hx. cbn [rev app].
  rewrite Nat.eqb_refl. eexists. split; [reflexivity|]. split; [reflexivity|].
  intros idx Hidx. cbn [elem]. rewrite Hidx. reflexivity.
Qed.

(** A block hands the NaN of an all-padding batch element on. *)
Lemma block_forward_nan blk rng D B S x lens i :
  built_block blk D -> heads_nonempty blk -> 1 <= B -> 1 <= S ->
  rshape x = [B; S; D] -> length lens = B -> i < B -> nth i lens 0%Z = 0%Z ->
  exists out,
    TF_Encoder_Block.forward blk rng x (Some lens) = Ok out /\
    rshape out = [B; S; D] /\
    forall q m, q < S -> m < D -> elem out [i; q; m] = NaN.
Proof.
  intros (Hb & Hqk & Hin & Hmid & Hout & Hn1 & Hn2) Hheads HB HS Hx Hlen Hi Hzero.
  unfold TF_Encoder_Block.forward.
  destruct (@all_padding_is_nan (TF_Encoder_Block.attention blk) (rng 0) D B S x x x
              lens i Hb Hqk HB HS Hx Hx Hx Hlen Hi Hzero)
    as (attention & att & Ea & _ & Hnan).
  specialize (Hnan Hheads).
  destruct (@forward_with_attention_spec (TF_Encoder_Block.attention blk) (rng 0)
              D B S x x x (Some lens) Hb Hqk HB HS Hx Hx Hx ltac:(simpl; lia))
    as (sc & V0 & attention' & att' & _ & Ea' & Sa & _).
  rewrite Ea in Ea'. injection Ea' as <- <-.
  unfold MultiHeadAttention.forward. rewrite Ea. cbn [bind snd].
  destruct (@add_same_elem x (Dropout_forward (TF_Encoder_Block.dropout blk) (rng 1) att)
              [B; S; D] Hx ltac:(now rewrite rshape_dropout)) as (x1 & E1 & S1 & H1).
  rewrite E1. cbn [bind].
  destruct (@LayerNorm_forward_nan (TF_Encoder_Block.norm1 blk) x1 B S
              ltac:(now rewrite Hn1)) as (x2 & E2 & S2 & H2).
  rewrite E2. cbn [bind]. rewrite Hn1 in S2.
  unfold TF_Encoder_Block.ff_forward.
  destruct (@Linear_forward_spec (TF_Encoder_Block.ff_in (TF_Encoder_Block.ff_network blk))
              x2 B S ltac:(now rewrite Hin)) as (y1 & E3 & S3 & _).
  rewrite E3. cbn [bind].
  match goal with
  | |- context [Linear_forward ?L ?y] =>
      destruct (@Linear_forward_spec L y B S) as (y2 & E4 & S4 & _)
  end.
  { rewrite rshape_dropout. cbn [relu map_elems rshape]. now rewrite S3, Hmid. }
  rewrite E4. cbn [bind]. rewrite Hout in S4.
  destruct (@add_same_elem x2 (Dropout_forward (TF_Encoder_Block.dropout blk) (rng 3) y2)
              [B; S; D] S2 ltac:(now rewrite rshape_dropout)) as (x3 & E5 & S5 & H5).
  rewrite E5. cbn [bind].
  destruct (@LayerNorm_forward_nan (TF_Encoder_Block.norm2 blk) x3 B S
              ltac:(now rewrite Hn2)) as (out & E6 & S6 & H6).
  exists out. split; [exact E6|]. split; [now rewrite <- Hn2|].
  intros q m Hq Hm.
  assert (Hidx : in_bounds [i; q; m] [B; S; D] = true) by solve_bounds.
  apply H6. rewrite H5 by exact Hidx.
  rewrite H2; [reflexivity|].
  rewrite H1 by exact Hidx.
  rewrite dropout_nan; [apply xadd_nan_r | now apply Hnan].
Qed.

Lemma block_init_heads D d_ff h p tr w blk :
  TF_Encoder_Block.init D d_ff h p tr w = Ok blk -> 1 <= h -> h <= D ->
  heads_nonempty blk.
Proof.
  unfold TF_Encoder_Block.init, TF_Encoder_Block.floordiv, MultiHeadAttention.init.
  intros E Hh HD. destruct (h =? 0); [discriminate|]. cbn [bind] in E.
  destruct (Dropout_init p tr) as [d|]; [|discriminate]. cbn [bind] in E.
  injection E as <-. unfold heads_nonempty. cbn.
  assert (1 <= D / h) by (apply Nat.div_le_lower_bound; lia). nia.
Qed.

Lemma make_layers_heads D d_ff h p tr w n : forall k layers,
  TF_Encoder.make_layers D d_ff h p tr w k n = Ok layers ->
  1 <= h -> h <= D -> Forall heads_nonempty layers.
Proof.
  induction n as [|n IH]; intros k layers E Hh HD.
  - injection E as <-. constructor.
  - cbn [TF_Encoder.make_layers] in E.
    destruct (TF_Encoder_Block.init D d_ff h p tr (w k)) as [blk|] eqn:Eb; [|discriminate].
    cbn [bind] in E.
    destruct (TF_Encoder.make_layers D d_ff h p tr w (S k) n) as [rest|] eqn:Er;
      [|discriminate].
    cbn [bind] in E. injection E as <-.
    constructor; [eapply block_init_heads; eassumption | eapply IH; eassumption].
Qed.

Lemma classifier_init_built vocab D d_ff n h p tr emb w cw model :
  sentiment_classifier.init vocab D d_ff n h p tr emb w cw = Ok model ->
  built_classifier model vocab D n /\
  (1 <= h -> h <= D ->
   Forall heads_nonempty
          (TF_Encoder.encoder_layers (sentiment_classifier.encoder model))).
Proof.
  unfold sentiment_classifier.init. intros E.
  destruct (TF_Encoder.init vocab D d_ff n h p tr emb w) as [enc|] eqn:Ee; [|discriminate].
  cbn [bind] in E.
  destruct (Dropout_init p tr) as [d|]; [|discriminate]. cbn [bind] in E.
  injection E as <-.
  destruct (encoder_init_built _ _ _ _ _ _ _ _ _ Ee) as (Hv & HD & Hlen & Hall).
  split.
  - unfold built_classifier. cbn. repeat split; assumption.
  - intros Hh HhD. cbn. unfold TF_Encoder.init in Ee.
    destruct (Dropout_init p tr) as [d'|]; [|discriminate]. cbn [bind] in Ee.
    destruct (TF_Encoder.make_layers D d_ff h p tr w 0 n) as [layers|] eqn:El;
      [|discriminate].
    cbn [bind] in Ee. injection Ee as <-. cbn.
    eapply make_layers_heads; eassumption.
Qed.

Lemma Linear_forward_nan (L : Linear) (x : rtensor) B S b s :
  rshape x = [B; S; in_features L] -> 1 <= in_features L ->
  (forall j, j < in_features L -> elem x [b; s; j] = NaN) ->
  exists r, Linear_forward L x = Ok r /\ rshape r = [B; S; out_features L] /\
            forall o, elem r [b; s; o] = NaN.
Proof.
  intros Hx Hin Hnan.
  destruct (@Linear_forward_spec L x B S Hx) as (r & E & Sr & Hr).
  exists r. split; [exact E|]. split; [exact Sr|].
  intros o. rewrite Hr. rewrite xsum_nan; [reflexivity|].
  apply in_map_iff. exists 0. split.
  - rewrite Hnan by lia. reflexivity.
  - apply in_seq. lia.
Qed.

(** The pooled, projected and flattened output of the classifier head. *)
Lemma classifier_forward_spec model rng x vocab D n B S :
  built_classifier model vocab D n ->
  1 <= S -> 1 <= D -> rshape x = [B; S; D] ->
  exists out,
    sentiment_classifier.classifier_forward model rng x = Ok out /\
    rshape out = [B; 1; 1] /\
    forall i, (forall q m, q < S -> m < D -> elem x [i; q; m] = NaN) ->
              elem out [i; 0; 0] = NaN.
Proof.
  intros (_ & _ & _ & _ & Hi1 & Ho1 & Hi2 & Ho2) HS HD Hx.
  unfold sentiment_classifier.classifier_forward, AdaptiveAvgPool2d_1_None.
  rewrite Hx.
  replace ((S =? 0) || (D =? 0)) with false.
  2:{ symmetry. apply orb_false_intro; apply Nat.eqb_neq; lia. }
  cbn [bind app length].
  match goal with
  | |- context [Linear_forward ?L (Dropout_forward ?d ?k ?y)] =>
      set (pooled := y);
      destruct (@Linear_forward_spec L (Dropout_forward d k pooled) B 1)
        as (y1 & E1 & S1 & H1)
  end.
  { rewrite rshape_dropout. cbn [pooled rshape]. now rewrite Hi1. }
  rewrite E1. cbn [bind]. rewrite Ho1 in S1.
  match goal with
  | |- context [Linear_forward ?L (Dropout_forward ?d ?k (relu y1))] =>
      destruct (@Linear_forward_spec L (Dropout_forward d k (relu y1)) B 1)
        as (y2 & E2 & S2 & H2)
  end.
  { rewrite rshape_dropout. cbn [relu map_elems rshape]. now rewrite S1, Hi2. }
  exists y2. split; [exact E2|]. split; [now rewrite S2, Ho2|].
  intros i Hnan.
  assert (Hp : forall m, m < D -> elem pooled [i; 0; m] = NaN).
  { intros m Hm. cbn [pooled elem firstn last].
    rewrite xsum_nan; [reflexivity|].
    apply in_map_iff. exists 0. split; [apply Hnan; lia | apply in_seq; lia]. }
  assert (Hy1 : forall o, elem y1 [i; 0; o] = NaN).
  { intros o. rewrite H1. rewrite xsum_nan; [reflexivity|].
    apply in_map_iff. exists 0. split; [|apply in_seq; lia].
    rewrite dropout_nan; [reflexivity | apply Hp; lia]. }
  rewrite H2. rewrite xsum_nan; [reflexivity|].
  apply in_map_iff. exists 0. split; [|apply in_seq; lia].
  rewrite dropout_nan; [reflexivity|].
  cbn [relu map_elems elem]. now rewrite Hy1.
Qed.

Lemma flatten_column (x : rtensor) B :
  rshape x = [B; 1; 1] ->
  rshape (flatten x) = [B] /\
  forall i, elem (flatten x) [i] = elem x [i; 0; 0].
Proof.
  intros Hx. unfold flatten. rewrite Hx. split.
  - cbn [rshape numel fold_right]. f_equal. lia.
  - intros i. cbn [elem nth unravel numel fold_right].
    rewrite !Nat.mul_1_r, !Nat.mod_1_r, !Nat.div_1_r. reflexivity.
Qed.

(** X22. On a batch of B reviews of S tokens of the vocabulary, a classifier with
    at least one encoder layer and a model dimension of at least 1 returns a
    tensor of shape (B,). *)
Theorem classifier_returns_one_logit_per_review
        vocab D d_ff n h p tr emb w cw model rng B S x lens :
  sentiment_classifier.init vocab D d_ff n h p tr emb w cw = Ok model ->
  1 <= n -> 1 <= D -> 1 <= B -> 1 <= S ->
  ishape x = [B; S] -> tokens_in_vocab x vocab -> lens_ok lens B ->
  exists logits,
    sentiment_classifier.forward model rng x lens = Ok logits /\
    rshape logits = [B].
Proof.
  intros Einit Hn HD HB HS Hx Htok Hl.
  destruct (classifier_init_built _ _ _ _ _ _ _ _ _ _ Einit) as [Hbuilt _].
  pose proof Hbuilt as (Hv & HDim & Hlen & Hall & _).
  destruct (@encoder_forward_shape (sentiment_classifier.encoder model) rng x lens
              D B S HDim Hall ltac:(lia) HD HB HS Hx ltac:(now rewrite Hv) Hl)
    as (ctx & Ec & Sc).
  destruct (@classifier_forward_spec model rng ctx vocab D n B S Hbuilt HS HD Sc)
    as (out & Eo & So & _).
  unfold sentiment_classifier.forward. rewrite Ec. cbn [bind]. rewrite Eo. cbn [bind].
  eexists. split; [reflexivity|]. now apply flatten_column.
Qed.

Lemma classifier_returns_one_logit_per_review_witness :
  exists logits,
    sentiment_classifier.forward (proj1_sig tiny_classifier) (fun _ _ => true)
      one_token (Some [1%Z]) = Ok logits /\
    rshape logits = [1].
Proof.
  apply (@classifier_returns_one_logit_per_review 1 1 1 1 1 0%R false
           (fun _ _ => Fin 0) (fun _ => zero_block_params) zero_classifier_params
           (proj1_sig tiny_classifier) (fun _ _ => true) 1 1 one_token (Some [1%Z])
           (proj2_sig tiny_classifier)); try lia.
  - reflexivity.
  - intros idx _. simpl. lia.
  - simpl. lia.
Defined.

(** ** Lengths of the reviews of a batch *)

Lemma wrap_small w z :
  (1 <= w)%Z -> (- 2 ^ (w - 1) <= z < 2 ^ (w - 1))%Z -> wrap w z = z.
Proof.
  intros Hw Hz. unfold wrap.
  assert (E : (2 ^ w = 2 * 2 ^ (w - 1))%Z).
  { replace w with (Z.succ (w - 1)) at 1 by lia. apply Z.pow_succ_r. lia. }
  rewrite Z.mod_small by lia. lia.
Qed.

(** Adding up zeros and ones in a [w]-bit accumulator. *)
Lemma fold_wrap_count {A : Type} w (f : A -> Z) (g : A -> bool) l : forall acc,
  (forall j, f j = if g j then 1 else 0)%Z ->
  (1 <= w)%Z -> (0 <= acc)%Z -> (acc + Z.of_nat (length l) < 2 ^ (w - 1))%Z ->
  fold_left (fun acc j => wrap w (acc + f j)) l acc
  = (acc + Z.of_nat (length (filter g l)))%Z.
Proof.
  induction l as [|a l IH]; intros acc Hf Hw Hacc Hlen; cbn [fold_left filter length].
  - lia.
  - cbn [length] in Hlen.
    assert (Hp : (0 < 2 ^ (w - 1))%Z) by (apply Z.pow_pos_nonneg; lia).
    rewrite Hf.
    rewrite wrap_small by (destruct (g a); lia).
    rewrite IH by (try assumption; destruct (g a); lia).
    destruct (g a); cbn [length]; lia.
Qed.

Lemma filter_length_le {A : Type} (g : A -> bool) l : length (filter g l) <= length l.
Proof.
  induction l as [|a l IH]; cbn [filter length]; [lia|].
  destruct (g a); cbn [length]; lia.
Qed.

Lemma filter_all {A : Type} (g : A -> bool) l :
  (forall a, In a l -> g a = true) -> filter g l = l.
Proof.
  induction l as [|a l IH]; intros H; cbn [filter]; [reflexivity|].
  rewrite (H a (or_introl eq_refl)). f_equal. apply IH. intros b Hb. apply H. now right.
Qed.

Lemma filter_none {A : Type} (g : A -> bool) l :
  (forall a, In a l -> g a = false) -> filter g l = [].
Proof.
  induction l as [|a l IH]; intros H; cbn [filter]; [reflexivity|].
  rewrite (H a (or_introl eq_refl)). apply IH. intros b Hb. apply H. now right.
Qed.

Lemma get_lens_shape PAD x B S :
  ishape x = [B; S] -> ishape (get_lens_from_tensor PAD x) = [B].
Proof.
  intros Hx. unfold get_lens_from_tensor, isum_last. cbn [ishape]. now rewrite Hx.
Qed.

Lemma get_lens_count PAD x B S i :
  ishape x = [B; S] -> (Z.of_nat S < 2 ^ 63)%Z ->
  ielem (get_lens_from_tensor PAD x) [i] = Z.of_nat (non_padding PAD x i S).
Proof.
  intros Hx HS. unfold get_lens_from_tensor, isum_last. cbn [ishape]. rewrite Hx.
  cbn [rev app ielem]. unfold non_padding.
  rewrite (@fold_wrap_count nat 64
             (fun j => if (ielem x [i; j] =? PAD)%Z then 0%Z else 1%Z)
             (fun j => negb (ielem x [i; j] =? PAD)%Z)).
  - lia.
  - intros j. now destruct (ielem x [i; j] =? PAD)%Z.
  - lia.
  - lia.
  - rewrite length_seq. exact HS.
Qed.

(** X23. [get_lens_from_tensor] returns one length per review: the number of
    tokens that are not the padding token, between 0 and the sequence length,
    0 for a review of padding only and the sequence length for a review
    without padding. *)
Theorem get_lens_counts_the_tokens PAD x B S :
  ishape x = [B; S] -> (Z.of_nat S < 2 ^ 63)%Z ->
  ishape (get_lens_from_tensor PAD x) = [B] /\
  forall i,
    ielem (get_lens_from_tensor PAD x) [i] = Z.of_nat (non_padding PAD x i S) /\
    (0 <= ielem (get_lens_from_tensor PAD x) [i] <= Z.of_nat S)%Z /\
    ((forall j, j < S -> ielem x [i; j] = PAD) ->
     ielem (get_lens_from_tensor PAD x) [i] = 0%Z) /\
    ((forall j, j < S -> ielem x [i; j] <> PAD) ->
     ielem (get_lens_from_tensor PAD x) [i] = Z.of_nat S).
Proof.
  intros Hx HS. split; [eapply get_lens_shape; eassumption|].
  intros i. rewrite (@get_lens_count PAD x B S i Hx HS). unfold non_padding.
  split; [reflexivity|]. split; [|split].
  - pose proof (filter_length_le (fun j => negb (ielem x [i; j] =? PAD)%Z) (seq 0 S)) as H.
    rewrite length_seq in H. lia.
  - intros Hall. rewrite filter_none; [reflexivity|].
    intros j Hj. apply in_seq in Hj. rewrite Hall by lia. now rewrite Z.eqb_refl.
  - intros Hall. rewrite filter_all; [now rewrite length_seq|].
    intros j Hj. apply in_seq in Hj.
    apply negb_true_iff. apply Z.eqb_neq. apply Hall. lia.
Qed.

Lemma get_lens_counts_the_tokens_witness :
  ishape (get_lens_from_tensor 0 one_token) = [1] /\
  ielem (get_lens_from_tensor 0 one_token) [0] = 0%Z.
Proof.
  destruct (@get_lens_counts_the_tokens 0%Z one_token 1 1 eq_refl ltac:(simpl; lia))
    as [Hs H].
  split; [exact Hs|].
  destruct (H 0) as (_ & _ & Hpad & _). apply Hpad. intros j _. reflexivity.
Defined.

(** X24. The length of a review with L real tokens is L whether the padding comes
    after them or before them. *)
Theorem get_lens_ignores_where_the_padding_is PAD x B S i L :
  ishape x = [B; S] -> (Z.of_nat S < 2 ^ 63)%Z -> L <= S ->
  ((forall j, j < L -> ielem x [i; j] <> PAD) ->
   (forall j, L <= j < S -> ielem x [i; j] = PAD) ->
   ielem (get_lens_from_tensor PAD x) [i] = Z.of_nat L) /\
  ((forall j, j < S - L -> ielem x [i; j] = PAD) ->
   (forall j, S - L <= j < S -> ielem x [i; j] <> PAD) ->
   ielem (get_lens_from_tensor PAD x) [i] = Z.of_nat L).
Proof.
  intros Hx HS HL. rewrite (@get_lens_count PAD x B S i Hx HS). unfold non_padding.
  split; intros H1 H2.
  - replace S with (L + (S - L)) at 1 by lia.
    rewrite seq_app, filter_app, length_app.
    rewrite filter_all, filter_none.
    + rewrite length_seq. cbn [length]. f_equal. lia.
    + intros j Hj. apply in_seq in Hj. rewrite H2 by lia. now rewrite Z.eqb_refl.
    + intros j Hj. apply in_seq in Hj. apply negb_true_iff. apply Z.eqb_neq.
      apply H1. lia.
  - replace S with ((S - L) + L) at 1 by lia.
    rewrite seq_app, filter_app, length_app.
    rewrite filter_none, filter_all.
    + rewrite length_seq. cbn [length]. f_equal.
    + intros j Hj. apply in_seq in Hj. apply negb_true_iff. apply Z.eqb_neq.
      apply H2. lia.
    + intros j Hj. apply in_seq in Hj. rewrite H1 by lia. now rewrite Z.eqb_refl.
Qed.

Lemma get_lens_ignores_where_the_padding_is_witness :
  ielem (get_lens_from_tensor 0 right_padded) [0] = 1%Z /\
  ielem (get_lens_from_tensor 0 left_padded) [0] = 1%Z.
Proof.
  split.
  - apply (proj1 (@get_lens_ignores_where_the_padding_is 0%Z right_padded 1 2 0 1
                    eq_refl ltac:(simpl; lia) ltac:(lia))).
    + intros j Hj. assert (j = 0) by lia. subst j. simpl. lia.
    + intros j Hj. assert (j = 1) by lia. subst j. reflexivity.
  - apply (proj2 (@get_lens_ignores_where_the_padding_is 0%Z left_padded 1 2 0 1
                    eq_refl ltac:(simpl; lia) ltac:(lia))).
    + intros j Hj. assert (j = 0) by lia. subst j. reflexivity.
    + intros j Hj. assert (j = 1) by lia. subst j. simpl. lia.
Defined.

(** ** A review that is all padding *)

Lemma encoder_forward_nan enc rng x lens D B S i :
  embedding_dim (TF_Encoder.src_embed enc) = D ->
  Forall (fun blk => built_block blk D) (TF_Encoder.encoder_layers enc) ->
  Forall heads_nonempty (TF_Encoder.encoder_layers enc) ->
  1 <= length (TF_Encoder.encoder_layers enc) ->
  1 <= D -> 1 <= B -> 1 <= S -> ishape x = [B; S] ->
  tokens_in_vocab x (num_embeddings (TF_Encoder.src_embed enc)) ->
  length lens = B -> i < B -> nth i lens 0%Z = 0%Z ->
  exists out,
    TF_Encoder.forward enc rng x (Some lens) = Ok out /\
    rshape out = [B; S; D] /\
    forall q m, q < S -> m < D -> elem out [i; q; m] = NaN.
Proof.
  intros HD Hall Hheads Hn HD1 HB HS Hx Htok Hlen Hi Hzero. unfold TF_Encoder.forward.
  destruct (@embed_shape enc rng x B S HS ltac:(now rewrite HD) Hx Htok)
    as (x0 & E0 & S0).
  rewrite E0. cbn [bind]. rewrite HD in S0.
  destruct (@layers_loop_spec D B S x0 (Some lens) rng HB HS S0 ltac:(simpl; lia)
              (TF_Encoder.encoder_layers enc) 0 None Hall) as (r & Er & Hr).
  rewrite Er. cbn [bind].
  destruct (rev (TF_Encoder.encoder_layers enc)) as [|blk pre] eqn:Erev.
  - apply (f_equal (@length _)) in Erev. rewrite length_rev in Erev. simpl in Erev. lia.
  - destruct Hr as (out & Eo & So & ->). exists out.
    split; [reflexivity|]. split; [exact So|].
    assert (Hin : In blk (TF_Encoder.encoder_layers enc)).
    { apply in_rev. rewrite Erev. now left. }
    rewrite Forall_forall in Hall, Hheads.
    destruct (@block_forward_nan blk
                (TF_Encoder.block_noise rng
                   (0 + length (TF_Encoder.encoder_layers enc) - 1))
                D B S x0 lens i (Hall blk Hin) (Hheads blk Hin) HB HS S0 Hlen Hi Hzero)
      as (out' & Eo' & _ & Hnan).
    rewrite Eo in Eo'. injection Eo' as <-. exact Hnan.
Qed.

(** X25. When the model is called as [train] and [evaluate] call it, the logit of
    a review that consists of padding only is NaN. *)
Theorem padding_only_review_gets_a_nan_logit
        vocab D d_ff n h p tr emb w cw model PAD rng B S x i :
  sentiment_classifier.init vocab D d_ff n h p tr emb w cw = Ok model ->
  1 <= n -> 1 <= h -> h <= D -> 1 <= B -> 1 <= S ->
  ishape x = [B; S] -> tokens_in_vocab x vocab ->
  i < B -> (forall j, j < S -> ielem x [i; j] = PAD) ->
  exists logits,
    model_on_batch model PAD rng x = Ok logits /\
    rshape logits = [B] /\
    elem logits [i] = NaN.
Proof.
  intros Einit Hn Hh HhD HB HS Hx Htok Hi Hpad.
  destruct (classifier_init_built _ _ _ _ _ _ _ _ _ _ Einit) as [Hbuilt Hheads].
  specialize (Hheads Hh HhD).
  pose proof Hbuilt as (Hv & HDim & Hlen & Hall & _).
  set (lens := tensor_items (get_lens_from_tensor PAD x)).
  assert (Hshape : ishape (get_lens_from_tensor PAD x) = [B])
    by (eapply get_lens_shape; eassumption).
  assert (Hll : length lens = B).
  { unfold lens, tensor_items. rewrite Hshape. cbn [nth].
    now rewrite length_map, length_seq. }
  assert (Hzero : nth i lens 0%Z = 0%Z).
  { unfold lens, tensor_items. rewrite Hshape. cbn [nth].
    rewrite nth_map_seq by exact Hi.
    unfold get_lens_from_tensor, isum_last. cbn [ishape]. rewrite Hx.
    cbn [rev app ielem].
    assert (Hfold : forall l acc,
              (forall j, In j l -> j < S) -> acc = 0%Z ->
              fold_left (fun acc j => wrap 64 (acc + (if (ielem x [i; j] =? PAD)%Z
                                                      then 0 else 1))%Z) l acc = 0%Z).
    { induction l as [|j l IH]; intros acc Hl ->; [reflexivity|].
      cbn [fold_left]. apply IH; [intros k Hk; apply Hl; now right|].
      rewrite Hpad by (apply Hl; now left). rewrite Z.eqb_refl. reflexivity. }
    apply Hfold; [|reflexivity]. intros j Hj. apply in_seq in Hj. lia. }
  destruct (@encoder_forward_nan (sentiment_classifier.encoder model) rng x lens
              D B S i HDim Hall Hheads ltac:(lia) ltac:(lia) HB HS Hx
              ltac:(now rewrite Hv) Hll Hi Hzero)
    as (ctx & Ec & Sc & Hnan).
  destruct (@classifier_forward_spec model rng ctx vocab D n B S Hbuilt HS
              ltac:(lia) Sc)
    as (out & Eo & So & Hout).
  unfold model_on_batch, sentiment_classifier.forward. fold lens.
  rewrite Ec. cbn [bind]. rewrite Eo. cbn [bind].
  destruct (@flatten_column out B So) as [Sf Hf].
  eexists. split; [reflexivity|]. split; [exact Sf|].
  rewrite Hf. apply Hout. exact Hnan.
Qed.

Lemma padding_only_review_gets_a_nan_logit_witness :
  exists logits,
    model_on_batch (proj1_sig tiny_classifier) 0 (fun _ _ => true) padding_only
    = Ok logits /\
    elem logits [0] = NaN.
Proof.
  destruct (@padding_only_review_gets_a_nan_logit 1 1 1 1 1 0%R false
              (fun _ _ => Fin 0) (fun _ => zero_block_params) zero_classifier_params
              (proj1_sig tiny_classifier) 0%Z (fun _ _ => true) 1 1 padding_only 0
              (proj2_sig tiny_classifier)
              ltac:(lia) ltac:(lia) ltac:(lia) ltac:(lia) ltac:(lia) eq_refl
              ltac:(intros idx _; simpl; lia) ltac:(lia)
              ltac:(intros j _; reflexivity))
    as (logits & E & _ & H).
  exists logits. split; [exact E | exact H].
Defined.

(** ** Binary metrics *)

Lemma both_same_length a c u v :
  length a = length c ->
  both a c u v
  = Ok (map (fun p => if (fst p =? u)%Z && (snd p =? v)%Z then 1%Z else 0%Z)
            (combine a c)).
Proof.
  intros H. unfold both. rewrite H, Nat.eqb_refl. reflexivity.
Qed.

Lemma sum32_map {A : Type} (f : A -> Z) l : forall acc,
  fold_left (fun acc v => wrap 32 (acc + v)) (map f l) acc
  = fold_left (fun acc a => wrap 32 (acc + f a)) l acc.
Proof.
  induction l as [|a l IH]; intros acc; cbn [map fold_left]; [reflexivity | apply IH].
Qed.

Lemma sum32_tally a c u v :
  (Z.of_nat (length (combine a c)) < 2 ^ 31)%Z ->
  sum32 (map (fun p => if (fst p =? u)%Z && (snd p =? v)%Z then 1%Z else 0%Z)
             (combine a c))
  = Z.of_nat (tally u v a c).
Proof.
  intros Hlen. unfold sum32, tally. rewrite sum32_map.
  rewrite (@fold_wrap_count _ 32
             (fun p => if (fst p =? u)%Z && (snd p =? v)%Z then 1%Z else 0%Z)
             (fun p => (fst p =? u)%Z && (snd p =? v)%Z)); try lia.
Qed.

(** The four counts are of disjoint sets of positions. *)
Lemma tally_total a c :
  tally 1 1 a c + tally 1 0 a c + tally 0 0 a c + tally 0 1 a c <= length (combine a c).
Proof.
  unfold tally. induction (combine a c) as [|[x y] l IH]; cbn [filter length fst snd];
    [lia|].
  destruct (Z.eqb_spec x 1), (Z.eqb_spec x 0), (Z.eqb_spec y 1), (Z.eqb_spec y 0);
    cbn [andb length]; lia.
Qed.

Lemma tally_total_labels a c :
  length a = length c -> labels a -> labels c ->
  tally 1 1 a c + tally 1 0 a c + tally 0 0 a c + tally 0 1 a c = length a /\
  tally 1 1 a c + tally 0 0 a c = agreements a c.
Proof.
  unfold tally, agreements, labels. revert c.
  induction a as [|x a IH]; intros [|y c] Hlen Ha Hc; try discriminate;
    cbn [combine filter length fst snd]; [split; reflexivity|].
  inversion Ha as [|? ? Hx Ha']; subst. inversion Hc as [|? ? Hy Hc']; subst.
  destruct (IH c ltac:(simpl in Hlen; lia) Ha' Hc') as [IH1 IH2].
  destruct Hx as [-> | ->], Hy as [-> | ->];
    change (1 =? 1)%Z with true; change (0 =? 0)%Z with true;
    change (1 =? 0)%Z with false; change (0 =? 1)%Z with false;
    cbn [andb length]; split; lia.
Qed.

Lemma match_nonempty {A B : Type} (l : list A) (a b : B) :
  l <> [] -> match l with [] => a | _ :: _ => b end = b.
Proof. destruct l; [congruence | reflexivity]. Qed.

Lemma get_binary_metrics_counts y_pred y :
  length y_pred = length y -> 1 <= length y -> (Z.of_nat (length y) < 2 ^ 31)%Z ->
  let TP := tally 1 1 y_pred y in
  let FP := tally 1 0 y_pred y in
  let TN := tally 0 0 y_pred y in
  let FN := tally 0 1 y_pred y in
  let recall := if TP + FN =? 0 then Fin 0
                else xdiv (Fin (INR TP)) (Fin (INR (TP + FN))) in
  let prec := if TP + FP =? 0 then Fin 0
              else xdiv (Fin (INR TP)) (Fin (INR (TP + FP))) in
  get_binary_metrics y_pred y
  = Ok (xdiv (Fin (INR (TP + TN))) (Fin (INR (TP + FP + TN + FN))),
        recall, prec,
        if xnonzero (xadd recall prec)
        then xdiv (xmul (xmul (Fin 2) recall) prec) (xadd recall prec)
        else Fin 0).
Proof.
  intros Hlen Hn Hsmall TP FP TN FN recall prec.
  assert (Hc : length (combine y_pred y) = length y).
  { rewrite length_combine, Hlen. apply Nat.min_id. }
  unfold get_binary_metrics. rewrite !both_same_length by exact Hlen. cbn [bind].
  match goal with
  | |- match ?l with [] => ?a | _ :: _ => ?b end = _ =>
      rewrite (@match_nonempty _ _ l a b)
  end.
  2:{ intros E. apply (f_equal (@length _)) in E.
      rewrite length_map, Hc in E. simpl in E. lia. }
  rewrite !sum32_tally by (rewrite Hc; exact Hsmall).
  fold TP FP TN FN.
  pose proof (tally_total y_pred y) as Htot. fold TP FP TN FN in Htot. rewrite Hc in Htot.
  assert (Hp : (0 < 2 ^ 31)%Z) by (apply Z.pow_pos_nonneg; lia).
  repeat match goal with
         | |- context [wrap 32 (Z.of_nat ?a + Z.of_nat ?b)] =>
             rewrite (@wrap_small 32 (Z.of_nat a + Z.of_nat b))
               by (change (32 - 1)%Z with 31%Z; lia);
             rewrite <- (Nat2Z.inj_add a b)
         end.
  rewrite <- !INR_IZR_INZ.
  replace (Z.of_nat (TP + FN) =? 0)%Z with (TP + FN =? 0)
    by (destruct (Nat.eqb_spec (TP + FN) 0), (Z.eqb_spec (Z.of_nat (TP + FN)) 0);
        try reflexivity; lia).
  replace (Z.of_nat (TP + FP) =? 0)%Z with (TP + FP =? 0)
    by (destruct (Nat.eqb_spec (TP + FP) 0), (Z.eqb_spec (Z.of_nat (TP + FP)) 0);
        try reflexivity; lia).
  reflexivity.
Qed.

Lemma xdiv_Fin_pos a c : (0 < c)%R -> xdiv (Fin a) (Fin c) = Fin (a / c).
Proof. intros H. cbn [xdiv]. now rewrite (@sign_pos c H). Qed.

Lemma xnonzero_pos r : (0 < r)%R -> xnonzero (Fin r) = true.
Proof.
  intros H. cbn [xnonzero]. destruct (Req_EM_T r 0); [lra | reflexivity].
Qed.

Lemma xnonzero_zero : xnonzero (Fin 0) = false.
Proof. cbn [xnonzero]. destruct (Req_EM_T 0 0); [reflexivity | lra]. Qed.

Ltac solve_labels :=
  unfold labels;
  repeat (apply Forall_cons; [solve [left; reflexivity | right; reflexivity]|]);
  apply Forall_nil.

(** X26. On two label tensors of the same length n, with 1 <= n < 2^31, the
    accuracy is the number of positions where they agree divided by n, a
    number between 0 and 1. *)
Theorem accuracy_is_the_agreement_rate y_pred y :
  length y_pred = length y -> 1 <= length y -> (Z.of_nat (length y) < 2 ^ 31)%Z ->
  labels y_pred -> labels y ->
  exists recall prec f1,
    get_binary_metrics y_pred y
    = Ok (Fin (INR (agreements y_pred y) / INR (length y)), recall, prec, f1) /\
    (0 <= INR (agreements y_pred y) / INR (length y) <= 1)%R.
Proof.
  intros Hlen Hn Hsmall Hp Hy.
  rewrite (@get_binary_metrics_counts y_pred y Hlen Hn Hsmall). cbv zeta.
  destruct (@tally_total_labels y_pred y Hlen Hp Hy) as [Htot Hagree].
  rewrite Htot, Hagree, Hlen.
  assert (Hpos : (0 < INR (length y))%R) by (apply lt_0_INR; lia).
  rewrite xdiv_Fin_pos by exact Hpos.
  do 3 eexists. split; [reflexivity|].
  assert (Hle : agreements y_pred y <= length y).
  { unfold agreements.
    pose proof (filter_length_le (fun p => (fst p =? snd p)%Z) (combine y_pred y)) as H.
    rewrite length_combine, Hlen, Nat.min_id in H. exact H. }
  apply le_INR in Hle. pose proof (pos_INR (agreements y_pred y)) as H0.
  split.
  - apply Rmult_le_pos; [exact H0 | left; now apply Rinv_0_lt_compat].
  - apply Rmult_le_reg_r with (r := INR (length y)); [exact Hpos|].
    unfold Rdiv. rewrite Rmult_assoc, Rinv_l by lra. lra.
Qed.

Lemma accuracy_is_the_agreement_rate_witness :
  exists recall prec f1,
    get_binary_metrics [1; 0; 1; 1]%Z [1; 0; 0; 1]%Z
    = Ok (Fin (INR 3 / INR 4), recall, prec, f1).
Proof.
  destruct (@accuracy_is_the_agreement_rate [1; 0; 1; 1]%Z [1; 0; 0; 1]%Z
              eq_refl ltac:(simpl; lia) ltac:(simpl; lia)
              ltac:(solve_labels) ltac:(solve_labels))
    as (r & q & f & E & _).
  exists r, q, f. exact E.
Defined.

(** X27. With TP, FP and FN the counts of true positives, false positives and
    false negatives: without a true positive recall, precision and F1 are 0;
    otherwise they are TP / (TP + FN), TP / (TP + FP) and
    2 TP / (2 TP + FP + FN). *)
Theorem f1_is_the_harmonic_mean y_pred y :
  length y_pred = length y -> 1 <= length y -> (Z.of_nat (length y) < 2 ^ 31)%Z ->
  let TP := tally 1 1 y_pred y in
  let FP := tally 1 0 y_pred y in
  let FN := tally 0 1 y_pred y in
  exists accy recall prec f1,
    get_binary_metrics y_pred y = Ok (accy, recall, prec, f1) /\
    (TP = 0 -> recall = Fin 0 /\ prec = Fin 0 /\ f1 = Fin 0) /\
    (1 <= TP ->
     recall = Fin (INR TP / INR (TP + FN)) /\
     prec = Fin (INR TP / INR (TP + FP)) /\
     f1 = Fin (2 * INR TP / INR (2 * TP + FP + FN))).
Proof.
  intros Hlen Hn Hsmall TP FP FN.
  rewrite (@get_binary_metrics_counts y_pred y Hlen Hn Hsmall). cbv zeta.
  fold TP FP FN. do 4 eexists. split; [reflexivity|]. split.
  - intros E. rewrite E. cbn [Nat.add].
    assert (Hz : forall k, (if k =? 0 then Fin 0 else xdiv (Fin (INR 0)) (Fin (INR k)))
                           = Fin 0).
    { intros k. destruct (Nat.eqb_spec k 0) as [|Hk]; [reflexivity|].
      rewrite xdiv_Fin_pos by (apply lt_0_INR; lia).
      f_equal. cbn [INR]. unfold Rdiv. ring. }
    rewrite !Hz. cbn [xadd]. rewrite Rplus_0_l, xnonzero_zero. auto.
  - intros HTP.
    replace (TP + FN =? 0) with false by (symmetry; apply Nat.eqb_neq; lia).
    replace (TP + FP =? 0) with false by (symmetry; apply Nat.eqb_neq; lia).
    assert (Ha : (0 < INR TP)%R) by (apply lt_0_INR; lia).
    assert (Hb : (0 < INR (TP + FN))%R) by (apply lt_0_INR; lia).
    assert (Hc : (0 < INR (TP + FP))%R) by (apply lt_0_INR; lia).
    rewrite !xdiv_Fin_pos by assumption.
    split; [reflexivity|]. split; [reflexivity|].
    cbn [xadd xmul].
    assert (Hr : (0 < INR TP / INR (TP + FN))%R)
      by (apply Rmult_lt_0_compat; [exact Ha | now apply Rinv_0_lt_compat]).
    assert (Hq : (0 < INR TP / INR (TP + FP))%R)
      by (apply Rmult_lt_0_compat; [exact Ha | now apply Rinv_0_lt_compat]).
    rewrite xnonzero_pos by lra.
    rewrite xdiv_Fin_pos by lra.
    f_equal.
    replace (2 * TP + FP + FN) with ((TP + FN) + (TP + FP)) by lia.
    rewrite (plus_INR (TP + FN) (TP + FP)).
    set (a := INR TP) in *. set (b := INR (TP + FN)) in *. set (c := INR (TP + FP)) in *.
    field. repeat split; try lra.
    assert (0 < a * c)%R by (now apply Rmult_lt_0_compat).
    assert (0 < a * b)%R by (now apply Rmult_lt_0_compat).
    lra.
Qed.

Lemma f1_is_the_harmonic_mean_witness :
  exists accy recall prec f1,
    get_binary_metrics [1; 0; 1; 1]%Z [1; 0; 0; 1]%Z = Ok (accy, recall, prec, f1) /\
    f1 = Fin (2 * INR 2 / INR 5).
Proof.
  destruct (@f1_is_the_harmonic_mean [1; 0; 1; 1]%Z [1; 0; 0; 1]%Z
              eq_refl ltac:(simpl; lia) ltac:(simpl; lia))
    as (a & r & q & f & E & _ & H).
  exists a, r, q, f. split; [exact E|].
  destruct (H ltac:(vm_compute; lia)) as (_ & _ & Hf). exact Hf.
Defined.

Lemma sign_zero : sign 0 = Eq.
Proof.
  unfold sign. destruct (total_order_T 0 0) as [[H|H]|H]; [lra | reflexivity | lra].
Qed.

Lemma tally_none u v a c :
  (forall x, In x a -> x <> u) -> tally u v a c = 0.
Proof.
  intros H. unfold tally. rewrite filter_none; [reflexivity|].
  intros [x y0] Hin. apply in_combine_l in Hin. cbn [fst snd].
  destruct (Z.eqb_spec x u) as [E|_]; [|reflexivity]. now apply H in Hin.
Qed.

(** X28. [get_binary_metrics] raises ZeroDivisionError on an empty batch and
    RuntimeError on tensors whose lengths differ and are not 1; predictions
    none of which is 0 or 1 give the accuracy NaN and 0 for the other three. *)
Theorem get_binary_metrics_degenerate_inputs y_pred y :
  (length y_pred = 0 /\ length y <= 1 \/ length y = 0 /\ length y_pred <= 1 ->
   raises (get_binary_metrics y_pred y) KZeroDivision) /\
  (length y_pred <> length y -> length y_pred <> 1 -> length y <> 1 ->
   raises (get_binary_metrics y_pred y) KRuntime) /\
  (length y_pred = length y -> 1 <= length y -> (Z.of_nat (length y) < 2 ^ 31)%Z ->
   Forall (fun v => v <> 0 /\ v <> 1)%Z y_pred ->
   get_binary_metrics y_pred y = Ok (NaN, Fin 0, Fin 0, Fin 0)).
Proof.
  split; [|split].
  - intros H. unfold get_binary_metrics, both.
    destruct y_pred as [|p0 [|p1 y_pred]], y as [|y0 [|y1 y]];
      cbn [length] in H; try lia; cbn; eexists; split; reflexivity.
  - intros Hne H1 H2. unfold get_binary_metrics. apply raises_bind_l. unfold both.
    replace (length y_pred =? length y) with false by (symmetry; now apply Nat.eqb_neq).
    replace (length y_pred =? 1) with false by (symmetry; now apply Nat.eqb_neq).
    replace (length y =? 1) with false by (symmetry; now apply Nat.eqb_neq).
    eexists. split; reflexivity.
  - intros Hlen Hn Hsmall Hall.
    rewrite (@get_binary_metrics_counts y_pred y Hlen Hn Hsmall). cbv zeta.
    rewrite Forall_forall in Hall.
    rewrite !tally_none by (intros x Hx; apply Hall in Hx; lia).
    cbn [Nat.add Nat.eqb INR xadd xdiv]. rewrite sign_zero, Rplus_0_l, xnonzero_zero.
    reflexivity.
Qed.

Lemma get_binary_metrics_degenerate_inputs_witness :
  raises (get_binary_metrics [] []) KZeroDivision /\
  raises (get_binary_metrics [1; 0]%Z [1; 0; 1]%Z) KRuntime /\
  get_binary_metrics [2; 2]%Z [1; 0]%Z = Ok (NaN, Fin 0, Fin 0, Fin 0).
Proof.
  split; [|split].
  - apply (proj1 (get_binary_metrics_degenerate_inputs [] [])).
    left. simpl. lia.
  - apply (proj1 (proj2 (get_binary_metrics_degenerate_inputs [1; 0]%Z [1; 0; 1]%Z)));
      simpl; lia.
  - apply (proj2 (proj2 (get_binary_metrics_degenerate_inputs [2; 2]%Z [1; 0]%Z)));
      try (simpl; lia).
    repeat constructor; lia.
Defined.

Lemma tally_diagonal u v y : u <> v -> tally u v y y = 0.
Proof.
  intros Hne. unfold tally. rewrite filter_none; [reflexivity|].
  intros [a c] Hin. cbn [fst snd].
  assert (a = c).
  { clear Hne. induction y as [|z y IH]; [destruct Hin|].
    destruct Hin as [E|Hin]; [now injection E as <- <- | now apply IH]. }
  subst c. destruct (Z.eqb_spec a u), (Z.eqb_spec a v); try reflexivity. congruence.
Qed.

Lemma tally_positive y : In 1%Z y <-> 1 <= tally 1 1 y y.
Proof.
  unfold tally. induction y as [|z y IH]; cbn [combine filter fst snd length].
  - split; [intros [] | lia].
  - destruct (Z.eqb_spec z 1) as [->|Hz]; cbn [andb length].
    + split; [lia | intros _; now left].
    + rewrite <- IH. split; [intros [E|H]; [congruence | exact H] | now right].
Qed.

(** X29. Predictions equal to the labels have accuracy 1; recall, precision and
    F1 are 1 when some label is positive and 0 when none is. *)
Theorem perfect_predictions_score y :
  1 <= length y -> (Z.of_nat (length y) < 2 ^ 31)%Z -> labels y ->
  (In 1%Z y -> get_binary_metrics y y = Ok (Fin 1, Fin 1, Fin 1, Fin 1)) /\
  (~ In 1%Z y -> get_binary_metrics y y = Ok (Fin 1, Fin 0, Fin 0, Fin 0)).
Proof.
  intros Hn Hsmall Hy.
  rewrite (@get_binary_metrics_counts y y eq_refl Hn Hsmall). cbv zeta.
  destruct (@tally_total_labels y y eq_refl Hy Hy) as [Htot _].
  rewrite !(@tally_diagonal 1 0) in * by lia.
  rewrite !(@tally_diagonal 0 1) in * by lia.
  rewrite !Nat.add_0_r in *. rewrite Htot.
  assert (Hpos : (0 < INR (length y))%R) by (apply lt_0_INR; lia).
  rewrite xdiv_Fin_pos by exact Hpos.
  replace (INR (length y) / INR (length y))%R with 1%R by (field; lra).
  split; intros H1.
  - apply tally_positive in H1.
    replace (tally 1 1 y y =? 0) with false by (symmetry; apply Nat.eqb_neq; lia).
    assert (Ha : (0 < INR (tally 1 1 y y))%R) by (apply lt_0_INR; lia).
    rewrite xdiv_Fin_pos by exact Ha.
    replace (INR (tally 1 1 y y) / INR (tally 1 1 y y))%R with 1%R by (field; lra).
    cbn [xadd xmul]. rewrite xnonzero_pos by lra. rewrite xdiv_Fin_pos by lra.
    do 3 f_equal. field.
  - rewrite tally_positive in H1.
    replace (tally 1 1 y y =? 0) with true by (symmetry; apply Nat.eqb_eq; lia).
    cbn [xadd]. rewrite Rplus_0_l, xnonzero_zero. reflexivity.
Qed.

Lemma perfect_predictions_score_witness :
  get_binary_metrics [0; 0]%Z [0; 0]%Z = Ok (Fin 1, Fin 0, Fin 0, Fin 0) /\
  get_binary_metrics [0; 1]%Z [0; 1]%Z = Ok (Fin 1, Fin 1, Fin 1, Fin 1).
Proof.
  split.
  - apply (proj2 (@perfect_predictions_score [0; 0]%Z ltac:(simpl; lia)
                    ltac:(simpl; lia) ltac:(solve_labels))).
    simpl. intros [H|[H|[]]]; discriminate.
  - apply (proj1 (@perfect_predictions_score [0; 1]%Z ltac:(simpl; lia)
                    ltac:(simpl; lia) ltac:(solve_labels))).
    simpl. auto.
Defined.
